(** * Schema reference resolution and documentation index

    A shallow embedding of the OpenAPI reference tooling of the
    documentation site:

    - [Resolve]   : [src/lib/openapi/resolve.ts] (JSON pointers),
    - [SchemaLib] : the schema classifier ([./schema]),
    - [Reference] : the reference collector, the section builder and the
                    row builders (the module that imports [./schema]).

    Recursive functions that follow [$ref] links can loop on cyclic or
    dangling references (in JavaScript: a stack overflow).  They take a
    [fuel] argument, each call spends one unit, and [None] means that the
    fuel ran out.  Functions that only recurse into the node they were
    given are structural fixpoints and total. *)

From Stdlib Require Import String Ascii List ZArith Lia Bool Arith PeanoNat.
From Stdlib Require Import Permutation DecimalString Sorted.
Import ListNotations.
Set Warnings "-register-all".

Local Open Scope string_scope.
Local Open Scope list_scope.

(** ** JavaScript primitives used by the sources *)

Module Js.

(** [s === t] on strings. *)
Definition str_eqb (s t : string) : bool := String.eqb s t.

(** Truthiness of a string: every string but the empty one. *)
Definition nonEmpty (s : string) : bool :=
  match s with EmptyString => false | String _ _ => true end.

(** Truthiness of an optional string field ([undefined] is falsy). *)
Definition truthy (o : option string) : bool :=
  match o with Some s => nonEmpty s | None => false end.

(** [o === t] for an optional string field. *)
Definition strIs (o : option string) (t : string) : bool :=
  match o with Some s => str_eqb s t | None => false end.

(** [a || b] on optional arrays: an array, even empty, is truthy. *)
Definition orElse {A : Type} (a b : option A) : option A :=
  match a with Some _ => a | None => b end.

Definition slash : ascii := "/"%char.
Definition tilde : ascii := "~"%char.

(** [s.startsWith(p)]. *)
Definition startsWith (p s : string) : bool := String.prefix p s.

(** [s.slice(n)] for [n] within the string. *)
Fixpoint slice (n : nat) (s : string) : string :=
  match n, s with
  | O, _ => s
  | S _, EmptyString => EmptyString
  | S n', String _ r => slice n' r
  end.

(** [s.split("/")]: never the empty array; the empty string gives one
    empty segment. *)
Fixpoint split (s : string) : list string :=
  match s with
  | EmptyString => [EmptyString]
  | String c r =>
      if Ascii.eqb c slash then EmptyString :: split r
      else match split r with
           | h :: t => String c h :: t
           | [] => [String c EmptyString]
           end
  end.

(** [arr.pop()] read as an expression: the last element. *)
Definition pop {A : Type} (l : list A) : option A :=
  match rev l with [] => None | x :: _ => Some x end.

(** [parts.join("/")]. *)
Fixpoint join (l : list string) : string :=
  match l with
  | [] => EmptyString
  | [s] => s
  | s :: r => (s ++ String slash (join r))%string
  end.

(** [s.replace(/~1/g, "/")]: every occurrence, left to right. *)
Fixpoint replace_tilde1 (s : string) : string :=
  match s with
  | EmptyString => EmptyString
  | String c r =>
      match r with
      | String d r' =>
          if Ascii.eqb c tilde && Ascii.eqb d "1"%char
          then String slash (replace_tilde1 r')
          else String c (replace_tilde1 r)
      | EmptyString => String c EmptyString
      end
  end.

(** [s.replace(/~0/g, "~")]. *)
Fixpoint replace_tilde0 (s : string) : string :=
  match s with
  | EmptyString => EmptyString
  | String c r =>
      match r with
      | String d r' =>
          if Ascii.eqb c tilde && Ascii.eqb d "0"%char
          then String tilde (replace_tilde0 r')
          else String c (replace_tilde0 r)
      | EmptyString => String c EmptyString
      end
  end.

(** Stable sort by a comparator ([Array.prototype.sort] is stable):
    insertion from the right keeps equal elements in input order. *)
Section Sort.
Context {A : Type} (cmp : A -> A -> comparison).

Fixpoint insert (x : A) (l : list A) : list A :=
  match l with
  | [] => [x]
  | y :: r =>
      match cmp x y with
      | Gt => y :: insert x r
      | _ => x :: l
      end
  end.

Definition sort (l : list A) : list A := fold_right insert [] l.
End Sort.

(** [obj[k]] on a record given by its entries, and [Map.prototype.get]. *)
Fixpoint assoc {A : Type} (k : string) (l : list (string * A)) : option A :=
  match l with
  | [] => None
  | (k', v) :: r => if str_eqb k' k then Some v else assoc k r
  end.

(** A [Map<string, V>] is the list of its entries in insertion order.
    [Map.prototype.has] and [Map.prototype.set]: setting a present key
    keeps its place, a new key goes last. *)
Definition has {V : Type} (m : list (string * V)) (k : string) : bool :=
  existsb (fun e => str_eqb (fst e) k) m.

Fixpoint set {V : Type} (m : list (string * V)) (k : string) (v : V)
  : list (string * V) :=
  match m with
  | [] => [(k, v)]
  | (k', v') :: r =>
      if str_eqb k' k then (k, v) :: r else (k', v') :: set r k v
  end.

(** The double quote character. *)
Definition quote : string := String (ascii_of_nat 34) EmptyString.

End Js.

(** ** Option as the out-of-fuel monad *)

Definition bind {A B : Type} (m : option A) (k : A -> option B) : option B :=
  match m with Some a => k a | None => None end.

Notation "x <- m ;; k" := (bind m (fun x => k))
  (at level 61, m at next level, right associativity).

(** [arr.map(f)] with a body that may run out of fuel. *)
Fixpoint mapM {A B : Type} (f : A -> option B) (l : list A) : option (list B) :=
  match l with
  | [] => Some []
  | x :: r => y <- f x ;; ys <- mapM f r ;; Some (y :: ys)
  end.

(** [arr.some(f)]: stops at the first [true]. *)
Fixpoint someM {A : Type} (f : A -> option bool) (l : list A) : option bool :=
  match l with
  | [] => Some false
  | x :: r => b <- f x ;; if b then Some true else someM f r
  end.

(** [for (const item of arr) { const r = f(item); if (ok(r)) return r; }]:
    the first result that passes the test, if any. *)
Fixpoint firstM {A R : Type} (ok : R -> bool) (f : A -> option R) (l : list A)
  : option (option R) :=
  match l with
  | [] => Some None
  | x :: r => y <- f x ;; if ok y then Some (Some y) else firstM ok f r
  end.

(** ** resolve.ts: JSON pointers *)

Module Resolve.

(** [decodePointerSegment]: [~1] first, then [~0] (RFC 6901). *)
Definition decodePointerSegment (seg : string) : string :=
  Js.replace_tilde0 (Js.replace_tilde1 seg).

(** [getByJsonPointer] takes [doc: unknown] and walks it with
    [cur[p]]: the walk is written over any type of JavaScript values,
    given the test [v === null] and the property read [v[p]] on a value
    that is neither [null] nor [undefined].  [None] is [undefined]. *)
Section Pointer.
Variable value : Type.
Variable isNull : value -> bool.
Variable get : value -> string -> option value.

(** [cur == null]: [null] or [undefined]. *)
Definition nullish (cur : option value) : bool :=
  match cur with None => true | Some v => isNull v end.

(** [cur[p]] once [cur] is known not to be nullish. *)
Definition index (cur : option value) (p : string) : option value :=
  match cur with None => None | Some v => get v p end.

(** The [for (const p of parts)] loop with its early return. *)
Fixpoint walk (cur : option value) (parts : list string) : option value :=
  match parts with
  | [] => cur
  | p :: rest => if nullish cur then None else walk (index cur p) rest
  end.

Definition getByJsonPointer (doc : option value) (pointer : string)
  : option value :=
  if negb (Js.startsWith "#/" pointer) then None
  else
    let parts := map decodePointerSegment (Js.split (Js.slice 2 pointer)) in
    walk doc parts.

(** [resolveRef<T>]: the cast to [T] has no run-time content. *)
Definition resolveRef (doc : option value) (ref : string) : option value :=
  if negb (Js.startsWith "#/" ref) then None
  else getByJsonPointer doc ref.
End Pointer.

(** Documents as [JSON.parse] builds them.  An object is the list of
    its entries in enumeration order, with distinct keys.  Numbers are
    the integers: [resolve.ts] reads no more of a number than whether it
    is zero. *)
Inductive JSON : Type :=
| JNull
| JBool (b : bool)
| JNum (n : Z)
| JStr (s : string)
| JArr (elems : list JSON)
| JObj (fields : list (string * JSON)).

Definition isNull (v : JSON) : bool :=
  match v with JNull => true | _ => false end.

(** A canonical array index: decimal digits without a leading zero. *)
Definition digit (c : ascii) : option nat :=
  let n := nat_of_ascii c in
  if ((48 <=? n) && (n <=? 57))%nat then Some (n - 48)%nat else None.

Fixpoint digits (acc : nat) (s : string) : option nat :=
  match s with
  | EmptyString => Some acc
  | String c r =>
      match digit c with
      | Some d => digits (10 * acc + d)%nat r
      | None => None
      end
  end.

Definition arrayIndex (p : string) : option nat :=
  match p with
  | EmptyString => None
  | String c r =>
      if Ascii.eqb c "0"%char
      then (match r with EmptyString => Some 0%nat | _ => None end)
      else digits 0%nat p
  end.

(** The own properties of a parsed JSON value: the fields of an
    object, the elements and the [length] of an array, the characters and
    the [length] of a string (a character of the model is one code unit);
    a number and a boolean have none.  What a value inherits from the
    built-in prototypes are functions, which are not JSON values: the
    pointer walk above is written, and its properties are proved, for any
    property read, and this one reads the sample documents. *)
Definition get (v : JSON) (p : string) : option JSON :=
  match v with
  | JObj fields => Js.assoc p fields
  | JArr elems =>
      if Js.str_eqb p "length" then Some (JNum (Z.of_nat (length elems)))
      else match arrayIndex p with
           | Some i => nth_error elems i
           | None => None
           end
  | JStr s =>
      if Js.str_eqb p "length" then Some (JNum (Z.of_nat (String.length s)))
      else match arrayIndex p with
           | Some i =>
               match String.get i s with
               | Some c => Some (JStr (String c EmptyString))
               | None => None
               end
           | None => None
           end
  | _ => None
  end.

Definition getJson : option JSON -> string -> option JSON :=
  getByJsonPointer JSON isNull get.

(** [!v] *)
Definition falsy (v : JSON) : bool :=
  match v with
  | JNull => true
  | JBool b => negb b
  | JNum n => Z.eqb n 0
  | JStr s => negb (Js.nonEmpty s)
  | JArr _ | JObj _ => false
  end.

(** [typeof v === "object"], which holds of [null] and of arrays too. *)
Definition isObject (v : JSON) : bool :=
  match v with
  | JNull | JArr _ | JObj _ => true
  | JBool _ | JNum _ | JStr _ => false
  end.

(** [p in v], for the own properties of an object or an array. *)
Definition hasProperty (v : JSON) (p : string) : bool :=
  match get v p with Some _ => true | None => false end.

(** [typeof v === "string"], with the string. *)
Definition asString (v : JSON) : option string :=
  match v with JStr s => Some s | _ => None end.

(** Sequential field lookup, as the specification words it: each key
    is looked up in the value reached so far, and an absent (or null)
    value has no fields. *)
Section Lookup.
Variable value : Type.
Variable isNull : value -> bool.
Variable get : value -> string -> option value.

Definition field (cur : option value) (key : string) : option value :=
  match cur with
  | None => None
  | Some v => if isNull v then None else get v key
  end.

Definition lookupPath (doc : option value) (keys : list string)
  : option value :=
  fold_left field keys doc.
End Lookup.

(** The RFC 6901 escaping of a key, the inverse the decoder is meant
    for: [~] becomes [~0] and [/] becomes [~1]. *)
Fixpoint escapeKey (key : string) : string :=
  match key with
  | EmptyString => EmptyString
  | String c r =>
      if Ascii.eqb c Js.tilde then String Js.tilde (String "0"%char (escapeKey r))
      else if Ascii.eqb c Js.slash then String Js.tilde (String "1"%char (escapeKey r))
      else String c (escapeKey r)
  end.

(** An escaped key after the first pass of the decoder: only [~0] is left. *)
Fixpoint escapeTilde (key : string) : string :=
  match key with
  | EmptyString => EmptyString
  | String c r =>
      if Ascii.eqb c Js.tilde
      then String Js.tilde (String "0"%char (escapeTilde r))
      else String c (escapeTilde r)
  end.

(** A string without [/]. *)
Fixpoint noSlash (s : string) : bool :=
  match s with
  | EmptyString => true
  | String c r => negb (Ascii.eqb c Js.slash) && noSlash r
  end.

Definition pointerOf (keys : list string) : string :=
  ("#/" ++ Js.join (map escapeKey keys))%string.

End Resolve.

(** ** The schema classifier ([./schema]) *)

Module SchemaLib.

(** [type EnumValue = string | number | boolean | null].  A number is
    given by its rendering [String(n)] ([1], [0.5], [1e+21]): the
    rendering is canonical, so two numbers of a parsed document are the
    same value for [includes] exactly when they render alike ([-0]
    renders as [0], and [includes] does not tell the two apart). *)
Inductive EnumValue : Type :=
| EStr (s : string)
| ENum (rendering : string)
| EBool (b : bool)
| ENull.

(** The comparison of [Array.prototype.includes] on these values. *)
Definition sameValue (a b : EnumValue) : bool :=
  match a, b with
  | EStr s, EStr t => String.eqb s t
  | ENum n, ENum m => String.eqb n m
  | EBool x, EBool y => Bool.eqb x y
  | ENull, ENull => true
  | _, _ => false
  end.

Definition includes (values : list EnumValue) (v : EnumValue) : bool :=
  existsb (sameValue v) values.

(** [String(v)]. *)
Definition toString (v : EnumValue) : string :=
  match v with
  | EStr s => s
  | ENum rendering => rendering
  | EBool true => "true"
  | EBool false => "false"
  | ENull => "null"
  end.

Definition EnumDescriptions : Type := list (string * string).

(** [OpenApiSchemaExt], with the fields that the classifier and the
    index builder read.  A [Record<string, T>] is the list of its
    entries in [Object.entries] order. *)
Inductive Schema : Type := mkSchema {
  s_ref : option string;
  s_description : option string;
  s_type : option string;
  s_enum : option (list EnumValue);
  s_properties : option (list (string * Schema));
  s_required : option (list string);
  s_items : option Schema;
  s_additionalProperties : option (bool + Schema);
  s_oneOf : option (list Schema);
  s_anyOf : option (list Schema);
  s_allOf : option (list Schema);
  x_inlineable : option bool;
  x_unionTitle : option string;
  x_enumDescriptions : option EnumDescriptions;
}.

Record Components : Type := { schemas : option (list (string * Schema)) }.
Record OpenApiDocument : Type := { components : option Components }.

(** [{}] and the one-field nodes the examples are built from. *)
Definition emptySchema : Schema :=
  mkSchema None None None None None None None None None None None None None None.

Definition refTo (ref : string) : Schema :=
  mkSchema (Some ref) None None None None None None None None None None None None None.

Definition ofType (t : string) : Schema :=
  mkSchema None None (Some t) None None None None None None None None None None None.

Definition nullSchema : Schema := ofType "null".

Definition enumOf (values : list EnumValue) : Schema :=
  mkSchema None None None (Some values) None None None None None None None None None None.

Definition anyOfSchema (branches : list Schema) : Schema :=
  mkSchema None None None None None None None None None (Some branches) None None None None.

Definition oneOfSchema (branches : list Schema) : Schema :=
  mkSchema None None None None None None None None (Some branches) None None None None None.

Definition allOfSchema (branches : list Schema) : Schema :=
  mkSchema None None None None None None None None None None (Some branches) None None None.

Definition arrayOf (item : Schema) : Schema :=
  mkSchema None None (Some "array") None None None (Some item) None None None None None None None.

Definition objectOf (props : list (string * Schema)) (req : list string) : Schema :=
  mkSchema None None (Some "object") None (Some props) (Some req) None None None None None None None None.

Definition docOf (defs : list (string * Schema)) : OpenApiDocument :=
  {| components := Some {| schemas := Some defs |} |}.

(** Structural comparison of two nodes. *)
Section Eqb.
Context {A : Type} (eqb : A -> A -> bool).

Definition option_eqb (a b : option A) : bool :=
  match a, b with
  | Some x, Some y => eqb x y
  | None, None => true
  | _, _ => false
  end.

Fixpoint list_eqb (a b : list A) : bool :=
  match a, b with
  | [], [] => true
  | x :: a', y :: b' => eqb x y && list_eqb a' b'
  | _, _ => false
  end.
End Eqb.

Definition pair_eqb (p q : string * string) : bool :=
  String.eqb (fst p) (fst q) && String.eqb (snd p) (snd q).

Fixpoint schema_eqb (a b : Schema) {struct a} : bool :=
  option_eqb String.eqb (s_ref a) (s_ref b)
  && option_eqb String.eqb (s_description a) (s_description b)
  && option_eqb String.eqb (s_type a) (s_type b)
  && option_eqb (list_eqb sameValue) (s_enum a) (s_enum b)
  && match s_properties a, s_properties b with
     | Some l, Some m =>
         (fix props (l m : list (string * Schema)) {struct l} : bool :=
            match l, m with
            | [], [] => true
            | (k, x) :: l', (k', y) :: m' =>
                String.eqb k k' && schema_eqb x y && props l' m'
            | _, _ => false
            end) l m
     | None, None => true
     | _, _ => false
     end
  && option_eqb (list_eqb String.eqb) (s_required a) (s_required b)
  && match s_items a, s_items b with
     | Some x, Some y => schema_eqb x y
     | None, None => true
     | _, _ => false
     end
  && match s_additionalProperties a, s_additionalProperties b with
     | Some (inl x), Some (inl y) => Bool.eqb x y
     | Some (inr x), Some (inr y) => schema_eqb x y
     | None, None => true
     | _, _ => false
     end
  && match s_oneOf a, s_oneOf b with
     | Some l, Some m =>
         (fix all (l m : list Schema) {struct l} : bool :=
            match l, m with
            | [], [] => true
            | x :: l', y :: m' => schema_eqb x y && all l' m'
            | _, _ => false
            end) l m
     | None, None => true
     | _, _ => false
     end
  && match s_anyOf a, s_anyOf b with
     | Some l, Some m =>
         (fix all (l m : list Schema) {struct l} : bool :=
            match l, m with
            | [], [] => true
            | x :: l', y :: m' => schema_eqb x y && all l' m'
            | _, _ => false
            end) l m
     | None, None => true
     | _, _ => false
     end
  && match s_allOf a, s_allOf b with
     | Some l, Some m =>
         (fix all (l m : list Schema) {struct l} : bool :=
            match l, m with
            | [], [] => true
            | x :: l', y :: m' => schema_eqb x y && all l' m'
            | _, _ => false
            end) l m
     | None, None => true
     | _, _ => false
     end
  && option_eqb Bool.eqb (x_inlineable a) (x_inlineable b)
  && option_eqb String.eqb (x_unionTitle a) (x_unionTitle b)
  && option_eqb (list_eqb pair_eqb) (x_enumDescriptions a) (x_enumDescriptions b).

(** The number of nodes of a schema, the measure of the proofs by
    induction on its structure. *)
Fixpoint size (s : Schema) : nat :=
  S (match s_properties s with
     | Some props => list_sum (map (fun p => size (snd p)) props)
     | None => 0
     end
     + match s_items s with Some items => size items | None => 0 end
     + match s_additionalProperties s with
       | Some (inr extra) => size extra
       | _ => 0
       end
     + match s_oneOf s with Some l => list_sum (map size l) | None => 0 end
     + match s_anyOf s with Some l => list_sum (map size l) | None => 0 end
     + match s_allOf s with Some l => list_sum (map size l) | None => 0 end)%nat.

(** The names that every object of a parsed document inherits from
    [Object.prototype]: [obj[name]] is defined for them also when [obj]
    has no entry of that name. *)
Definition objectPrototype : list string :=
  [ "constructor"; "__defineGetter__"; "__defineSetter__"; "hasOwnProperty";
    "__lookupGetter__"; "__lookupSetter__"; "isPrototypeOf";
    "propertyIsEnumerable"; "toString"; "valueOf"; "__proto__";
    "toLocaleString" ].

(** An inherited member is a built-in function, or the prototype itself
    for [__proto__]: a value that is not nullish and on which every field
    that the classifier and the index builder read is [undefined].  As a
    schema it reads as [{}]. *)
Definition inheritedMember : Schema := emptySchema.

(** [schemas[refName]]: the entry of that name, and otherwise the
    member that the object inherits, if any. *)
Definition readSchema (defs : list (string * Schema)) (refName : string)
  : option Schema :=
  match Js.assoc refName defs with
  | Some def => Some def
  | None =>
      if existsb (Js.str_eqb refName) objectPrototype
      then Some inheritedMember
      else None
  end.

(** [doc.components?.schemas?.[refName] ?? null] *)
Definition namedSchema (doc : OpenApiDocument) (refName : string)
  : option Schema :=
  match components doc with
  | Some c =>
      match schemas c with
      | Some defs => readSchema defs refName
      | None => None
      end
  | None => None
  end.

Definition getSchemaFromRef (doc : OpenApiDocument) (ref : string)
  : option Schema :=
  match Js.pop (Js.split ref) with
  | Some refName =>
      if negb (Js.nonEmpty refName) then None else namedSchema doc refName
  | None => None
  end.

Definition resolveRef (doc : OpenApiDocument) (schema : option Schema)
  : option Schema :=
  match schema with
  | None => None
  | Some s =>
      match s_ref s with
      | Some ref =>
          if negb (Js.nonEmpty ref) then schema
          else match getSchemaFromRef doc ref with
               | Some target => Some target
               | None => schema
               end
      | None => schema
      end
  end.

Definition getRefName (schema : option Schema) : option string :=
  match schema with
  | Some s =>
      match s_ref s with
      | Some ref => Js.pop (Js.split ref)
      | None => None
      end
  | None => None
  end.

(** [const resolved = resolveRef(doc, schema);
     if (resolved && resolved !== schema) ...]: the node to continue
    with, if any.  [!==] compares object identity: [resolved] is
    [schema] itself when the lookup failed, or when [schema] is the
    very definition that its own [$ref] names.  The model compares
    structure.  The two agree on the result: when the definition is a
    distinct but equal node, the source recurses into it, finds that it
    resolves to itself, and falls through to the same branches that the
    model falls through to at once. *)
Definition resolvedOther (doc : OpenApiDocument) (s : Schema) : option Schema :=
  match resolveRef doc (Some s) with
  | Some resolved => if schema_eqb resolved s then None else Some resolved
  | None => None
  end.

(** [a || b] on strings. *)
Definition orString (a : option string) (b : string) : string :=
  match a with
  | Some s => if Js.nonEmpty s then s else b
  | None => b
  end.

Definition isNullType (item : Schema) : bool := Js.strIs (s_type item) "null".

Definition hasRef (item : Schema) : bool := Js.truthy (s_ref item).

(** [schema.additionalProperties] as a condition. *)
Definition additionalTruthy (s : Schema) : bool :=
  match s_additionalProperties s with
  | Some (inl b) => b
  | Some (inr _) => true
  | None => false
  end.

Definition isSome {A : Type} (o : option A) : bool :=
  match o with Some _ => true | None => false end.

(** [getTypeLabel] never resolves a reference: it recurses into the
    node only.  [getTypeLabelNode] is its body for a present node; the
    two searches over the branches are written as local loops, and
    [getTypeLabel_anyOf] and [getTypeLabel_oneOf] give them in the
    source's form. *)
Fixpoint getTypeLabelNode (doc : OpenApiDocument) (schema : Schema) : string :=
  if Js.truthy (s_ref schema) then orString (getRefName (Some schema)) "unknown"
  else if isSome (s_properties schema) || additionalTruthy schema then "object"
  else
    match s_items schema with
    | Some items => getTypeLabelNode doc items
    | None =>
        if Js.truthy (s_type schema) then orString (s_type schema) "unknown"
        else
          match
            match s_allOf schema with
            | Some allOf => find hasRef allOf
            | None => None
            end
          with
          | Some refItem => orString (getRefName (Some refItem)) "object"
          | None =>
              match s_anyOf schema with
              | Some anyOf =>
                  orString
                    (Some ((fix nonNull (l : list Schema) : string :=
                              match l with
                              | [] => "unknown"
                              | item :: rest =>
                                  if negb (isNullType item)
                                  then getTypeLabelNode doc item
                                  else nonNull rest
                              end) anyOf))
                    "unknown"
              | None =>
                  match s_oneOf schema with
                  | Some oneOf =>
                      orString
                        (Some match oneOf with
                              | first :: _ => getTypeLabelNode doc first
                              | [] => "unknown"
                              end)
                        "unknown"
                  | None => "unknown"
                  end
              end
          end
    end.

(** The conditions of [getTypeLabel], in the order it tests them. *)
Definition objectShaped (s : Schema) : bool :=
  isSome (s_properties s) || additionalTruthy s.

(** [schema.allOf.find((item) => item.$ref)], if there is an [allOf]. *)
Definition refBranch (s : Schema) : option Schema :=
  match s_allOf s with
  | Some allOf => find hasRef allOf
  | None => None
  end.

(** A node that is not a reference, not object-shaped, has no [items]
    and no [type]: only the composite keywords are left to decide. *)
Definition untyped (s : Schema) : Prop :=
  Js.truthy (s_ref s) = false
  /\ objectShaped s = false
  /\ s_items s = None
  /\ Js.truthy (s_type s) = false.

Definition getTypeLabel (doc : OpenApiDocument) (schema : option Schema)
  : string :=
  match schema with
  | Some s => getTypeLabelNode doc s
  | None => "unknown"
  end.

(** [anyOf || oneOf || allOf] and [anyOf || oneOf]. *)
Definition variants3 (s : Schema) : option (list Schema) :=
  Js.orElse (Js.orElse (s_anyOf s) (s_oneOf s)) (s_allOf s).

Definition variants2 (s : Schema) : option (list Schema) :=
  Js.orElse (s_anyOf s) (s_oneOf s).

(** [variants.filter((item) => item?.type !== "null")] *)
Definition nonNull (variants : list Schema) : list Schema :=
  filter (fun item => negb (isNullType item)) variants.

(** [schema.allOf?.[1]?.description] *)
Definition secondDescription (s : Schema) : option string :=
  match s_allOf s with
  | Some (_ :: second :: _) => s_description second
  | _ => None
  end.

Definition orEmpty (o : option string) : string :=
  match o with Some d => d | None => EmptyString end.

Fixpoint getDescription (fuel : nat) (doc : OpenApiDocument)
  (schema : option Schema) : option string :=
  match fuel with
  | O => None
  | S fuel =>
      match schema with
      | None => Some EmptyString
      | Some s =>
          if Js.truthy (s_description s) then Some (orEmpty (s_description s))
          else if Js.truthy (secondDescription s)
          then Some (orEmpty (secondDescription s))
          else
            match (if Js.truthy (s_ref s) then resolvedOther doc s else None) with
            | Some resolved => getDescription fuel doc (Some resolved)
            | None =>
                match variants3 s with
                | Some variants =>
                    found <- firstM Js.nonEmpty
                               (fun item => getDescription fuel doc (Some item))
                               variants ;;
                    Some (orEmpty found)
                | None => Some EmptyString
                end
            end
      end
  end.

Fixpoint getUnionVariants (fuel : nat) (doc : OpenApiDocument)
  (schema : option Schema) : option (list Schema) :=
  match fuel with
  | O => None
  | S fuel =>
      match schema with
      | None => Some []
      | Some s =>
          match (if Js.truthy (s_ref s) then resolvedOther doc s else None) with
          | Some resolved => getUnionVariants fuel doc (Some resolved)
          | None =>
              match variants2 s with
              | Some variants =>
                  pieces <- mapM
                    (fun item =>
                       nested <- getUnionVariants fuel doc (Some item) ;;
                       Some (match nested with
                             | [] => [item]
                             | _ :: _ => nested
                             end))
                    (nonNull variants) ;;
                  Some (concat pieces)
              | None => Some []
              end
          end
      end
  end.

Fixpoint getInlineable (fuel : nat) (doc : OpenApiDocument)
  (schema : option Schema) : option bool :=
  match fuel with
  | O => None
  | S fuel =>
      match schema with
      | None => Some false
      | Some s =>
          match x_inlineable s with
          | Some true => Some true
          | _ =>
              if Js.truthy (s_ref s)
              then getInlineable fuel doc (resolveRef doc schema)
              else
                match variants3 s with
                | Some variants =>
                    someM (fun item => getInlineable fuel doc (Some item)) variants
                | None => Some false
                end
          end
      end
  end.

Fixpoint getUnionTitle (fuel : nat) (doc : OpenApiDocument)
  (schema : option Schema) : option (option string) :=
  match fuel with
  | O => None
  | S fuel =>
      match schema with
      | None => Some None
      | Some s =>
          if Js.truthy (x_unionTitle s) then Some (x_unionTitle s)
          else if Js.truthy (s_ref s)
          then getUnionTitle fuel doc (resolveRef doc schema)
          else
            match variants2 s with
            | Some variants =>
                found <- firstM Js.truthy
                           (fun item => getUnionTitle fuel doc (Some item))
                           (nonNull variants) ;;
                Some (match found with Some title => title | None => None end)
            | None => Some None
            end
      end
  end.

Definition Properties : Type := list (string * Schema).

Fixpoint getSchemaProperties (fuel : nat) (doc : OpenApiDocument)
  (schema : option Schema) : option (option Properties) :=
  match fuel with
  | O => None
  | S fuel =>
      let firstProps (branches : option (list Schema))
            (next : option (option Properties)) :=
        match branches with
        | Some items =>
            found <- firstM isSome
                       (fun item => getSchemaProperties fuel doc (Some item))
                       items ;;
            match found with
            | Some props => Some props
            | None => next
            end
        | None => next
        end in
      match schema with
      | None => Some None
      | Some s =>
          if Js.truthy (s_ref s)
          then getSchemaProperties fuel doc (resolveRef doc schema)
          else if Js.strIs (s_type s) "object" && isSome (s_properties s)
          then Some (s_properties s)
          else if Js.strIs (s_type s) "array" && isSome (s_items s)
          then getSchemaProperties fuel doc (s_items s)
          else
            firstProps (s_allOf s)
              (firstProps (s_anyOf s)
                 (firstProps (s_oneOf s) (Some None)))
      end
  end.

Definition nonEmptyList {A : Type} (l : list A) : bool :=
  match l with [] => false | _ :: _ => true end.

Fixpoint getSchemaRequired (fuel : nat) (doc : OpenApiDocument)
  (schema : option Schema) : option (list string) :=
  match fuel with
  | O => None
  | S fuel =>
      let firstReq (branches : option (list Schema))
            (next : option (list string)) :=
        match branches with
        | Some items =>
            found <- firstM nonEmptyList
                       (fun item => getSchemaRequired fuel doc (Some item))
                       items ;;
            match found with
            | Some req => Some req
            | None => next
            end
        | None => next
        end in
      match schema with
      | None => Some []
      | Some s =>
          if Js.truthy (s_ref s)
          then getSchemaRequired fuel doc (resolveRef doc schema)
          else if Js.strIs (s_type s) "object"
          then Some (match s_required s with Some req => req | None => [] end)
          else if Js.strIs (s_type s) "array" && isSome (s_items s)
          then getSchemaRequired fuel doc (s_items s)
          else
            firstReq (s_allOf s)
              (firstReq (s_anyOf s)
                 (firstReq (s_oneOf s) (Some [])))
      end
  end.

Definition PRIMITIVE_TYPES : list string :=
  ["string"; "number"; "integer"; "boolean"; "null"].

Fixpoint isSchemaComplex (fuel : nat) (doc : OpenApiDocument)
  (schema : option Schema) : option bool :=
  match fuel with
  | O => None
  | S fuel =>
      match schema with
      | None => Some false
      | Some s =>
          if Js.truthy (s_ref s)
          then isSchemaComplex fuel doc (resolveRef doc schema)
          else if isSome (s_anyOf s) || isSome (s_oneOf s) || isSome (s_allOf s)
          then Some true
          else if Js.strIs (s_type s) "array"
          then isSchemaComplex fuel doc (s_items s)
          else if Js.strIs (s_type s) "object" then Some true
          else if isSome (s_properties s) then Some true
          else if Js.truthy (s_type s)
                  && existsb (fun t => Js.strIs (s_type s) t) PRIMITIVE_TYPES
          then Some false
          else Some (isSome (s_items s))
      end
  end.

Fixpoint isArraySchema (fuel : nat) (doc : OpenApiDocument)
  (schema : option Schema) : option bool :=
  match fuel with
  | O => None
  | S fuel =>
      match schema with
      | None => Some false
      | Some s =>
          if Js.truthy (s_ref s)
          then isArraySchema fuel doc (resolveRef doc schema)
          else if Js.strIs (s_type s) "array" || isSome (s_items s)
          then Some true
          else
            match variants3 s with
            | Some variants =>
                someM (fun item => isArraySchema fuel doc (Some item)) variants
            | None => Some false
            end
      end
  end.

(** [schema.type === "array" && schema.items] *)
Definition arrayWithItems (s : Schema) : bool :=
  Js.strIs (s_type s) "array" && isSome (s_items s).

(** [for (const value of itemValues)
      if (!values.includes(value)) values.push(value);] *)
Definition pushNew (values itemValues : list EnumValue) : list EnumValue :=
  fold_left (fun vs v => if includes vs v then vs else vs ++ [v])
    itemValues values.

(** The outer [for (const item of variants)] loop over [values]. *)
Fixpoint gatherM (f : Schema -> option (list EnumValue))
  (values : list EnumValue) (variants : list Schema)
  : option (list EnumValue) :=
  match variants with
  | [] => Some values
  | item :: rest =>
      itemValues <- f item ;; gatherM f (pushNew values itemValues) rest
  end.

(** De-duplication that keeps the first occurrence of every value, in
    order: the specification's wording for what the loop above builds. *)
Fixpoint dedupe (values : list EnumValue) : list EnumValue :=
  match values with
  | [] => []
  | v :: rest => v :: filter (fun w => negb (sameValue v w)) (dedupe rest)
  end.

Fixpoint getEnumValues (fuel : nat) (doc : OpenApiDocument)
  (schema : option Schema) : option (list EnumValue) :=
  match fuel with
  | O => None
  | S fuel =>
      match schema with
      | None => Some []
      | Some s =>
          if Js.truthy (s_ref s)
          then getEnumValues fuel doc (resolveRef doc schema)
          else if Js.strIs (s_type s) "array" && isSome (s_items s)
          then getEnumValues fuel doc (s_items s)
          else
            match s_enum s with
            | Some values => Some values
            | None =>
                match variants3 s with
                | Some variants =>
                    gatherM (fun item => getEnumValues fuel doc (Some item))
                      [] variants
                | None => Some []
                end
            end
      end
  end.

Fixpoint getEnumDescriptions (fuel : nat) (doc : OpenApiDocument)
  (schema : option Schema) : option EnumDescriptions :=
  match fuel with
  | O => None
  | S fuel =>
      match schema with
      | None => Some []
      | Some s =>
          if Js.truthy (s_ref s)
          then getEnumDescriptions fuel doc (resolveRef doc schema)
          else if Js.strIs (s_type s) "array" && isSome (s_items s)
          then getEnumDescriptions fuel doc (s_items s)
          else
            match x_enumDescriptions s with
            | Some descriptions => Some descriptions
            | None =>
                match variants3 s with
                | Some variants =>
                    found <- firstM nonEmptyList
                               (fun item => getEnumDescriptions fuel doc (Some item))
                               variants ;;
                    Some (match found with Some desc => desc | None => [] end)
                | None => Some []
                end
            end
      end
  end.

End SchemaLib.

(** ** The reference index builder *)

(** A loop that threads a state through a body that may run out of fuel. *)
Fixpoint foldM {A S : Type} (f : S -> A -> option S) (l : list A) (s : S)
  : option S :=
  match l with
  | [] => Some s
  | x :: r => s' <- f s x ;; foldM f r s'
  end.

Module Reference.
Import SchemaLib.

Inductive ParameterUnionVariant : Type := mkVariant {
  v_label : string;
  v_array : bool;
  v_sectionId : option string;
  v_typeClass : string;
  v_groupVariants : option (list ParameterUnionVariant);
}.

Definition UnionVariantLink : Type := ParameterUnionVariant.

Record InlineRow : Type := {
  ir_name : string;
  ir_type : string;
  ir_description : string;
  ir_array : bool;
  ir_required : bool;
  ir_enumValues : list EnumValue;
  ir_enumDescriptions : EnumDescriptions;
  ir_literalValue : option string;
  ir_unionVariants : list ParameterUnionVariant;
}.

Record ParameterRow : Type := {
  pr_name : string;
  pr_typeLabel : string;
  pr_typeClass : string;
  pr_description : string;
  pr_required : bool;
  pr_array : bool;
  pr_enumValues : list EnumValue;
  pr_enumDescriptions : EnumDescriptions;
  pr_literalValue : option string;
  pr_inlineable : bool;
  pr_inlineRows : list InlineRow;
  pr_isUnion : bool;
  pr_unionVariants : list ParameterUnionVariant;
  pr_typeLinkId : option string;
}.

Inductive SectionKind : Type := KEnum | KUnion | KObject.

Definition kindName (k : SectionKind) : string :=
  match k with KEnum => "enum" | KUnion => "union" | KObject => "object" end.

Record EnumSection : Type := {
  es_id : string;
  es_name : string;
  es_title : string;
  es_description : string;
  es_values : list EnumValue;
  es_descriptions : EnumDescriptions;
}.

Record ObjectSection : Type := {
  os_id : string;
  os_name : string;
  os_title : string;
  os_description : string;
  os_rows : list InlineRow;
}.

Record UnionSection : Type := {
  us_id : string;
  us_name : string;
  us_title : string;
  us_description : string;
  us_variants : list UnionVariantLink;
}.

Record SectionRef : Type := { sr_id : string; sr_kind : SectionKind }.

Record ReferenceSections : Type := {
  enums : list EnumSection;
  objects : list ObjectSection;
  unions : list UnionSection;
  byName : list (string * SectionRef);
}.

Record ReferenceIndex : Type := {
  parameterRows : list ParameterRow;
  sections : ReferenceSections;
}.

(** [getRefNameDeep] recurses into the node only. *)
Fixpoint getRefNameDeepNode (schema : Schema) : option string :=
  if Js.truthy (s_ref schema) then getRefName (Some schema)
  else
    let fromAllOf :=
      match s_allOf schema with
      | Some allOf =>
          (fix firstName (l : list Schema) : option string :=
             match l with
             | [] => None
             | item :: rest =>
                 let refName := getRefNameDeepNode item in
                 if Js.truthy refName then refName else firstName rest
             end) allOf
      | None => None
      end in
    match s_items schema with
    | Some items =>
        if Js.strIs (s_type schema) "array" then getRefNameDeepNode items
        else fromAllOf
    | None => fromAllOf
    end.

Definition getRefNameDeep (schema : option Schema) : option string :=
  match schema with
  | Some s => getRefNameDeepNode s
  | None => None
  end.

Fixpoint getSchemaKind (fuel : nat) (doc : OpenApiDocument)
  (schema : option Schema) : option (option SectionKind) :=
  match fuel with
  | O => None
  | S fuel =>
      match schema with
      | None => Some None
      | Some s =>
          if Js.truthy (s_ref s)
          then getSchemaKind fuel doc (resolveRef doc schema)
          else if isSome (s_anyOf s) || isSome (s_oneOf s)
          then Some (Some KUnion)
          else
            values <- getEnumValues fuel doc schema ;;
            if nonEmptyList values then Some (Some KEnum)
            else if Js.strIs (s_type s) "object" || isSome (s_properties s)
            then Some (Some KObject)
            else if Js.strIs (s_type s) "array" || isSome (s_items s)
            then getSchemaKind fuel doc (s_items s)
            else
              complex <- isSchemaComplex fuel doc schema ;;
              Some (if complex then Some KObject else None)
      end
  end.

Definition getTypeClass (fuel : nat) (doc : OpenApiDocument)
  (schema : option Schema) : option string :=
  match schema with
  | None => Some "object"
  | Some _ =>
      values <- getEnumValues fuel doc schema ;;
      if nonEmptyList values then Some "enum"
      else
        let label := getTypeLabel doc schema in
        if Js.str_eqb label "string" then Some "string"
        else if Js.str_eqb label "boolean" then Some "boolean"
        else if Js.str_eqb label "number" || Js.str_eqb label "integer"
        then Some label
        else Some "object"
  end.

Record UnionVariantEntry : Type := {
  e_schema : Schema;
  e_array : bool;
  e_labelOverride : option string;
  e_typeClassOverride : option string;
  e_groupVariants : option (list ParameterUnionVariant);
}.

Definition getVariantLabel (fuel : nat) (doc : OpenApiDocument)
  (variant : Schema) : option string :=
  let refName := getRefNameDeep (Some variant) in
  enumValues <- getEnumValues fuel doc (Some variant) ;;
  if Js.truthy refName then Some (orEmpty refName)
  else
    match enumValues with
    | [value] => Some (Js.quote ++ toString value ++ Js.quote)%string
    | _ :: _ :: _ => Some "enum"
    | [] => Some (getTypeLabel doc (Some variant))
    end.

(** [refName ? (byName.get(refName)?.id ?? null) : null] *)
Definition sectionIdOf (byName : list (string * SectionRef))
  (refName : option string) : option string :=
  if Js.truthy refName
  then match Js.assoc (orEmpty refName) byName with
       | Some entry => Some (sr_id entry)
       | None => None
       end
  else None.

Definition expandUnionVariantEntries (fuel : nat) (doc : OpenApiDocument)
  (schema : Schema) (sections : ReferenceSections)
  : option (list UnionVariantEntry) :=
  let resolved :=
    match resolveRef doc (Some schema) with Some r => r | None => schema end in
  match
    (if Js.strIs (s_type resolved) "array" then s_items resolved else None)
  with
  | Some itemSchema =>
      itemVariants <- getUnionVariants fuel doc (Some itemSchema) ;;
      if nonEmptyList itemVariants
      then
        groupVariants <- mapM
          (fun variant =>
             let refName := getRefNameDeep (Some variant) in
             let sectionId := sectionIdOf (byName sections) refName in
             label <- getVariantLabel fuel doc variant ;;
             typeClass <- getTypeClass fuel doc (Some variant) ;;
             Some (mkVariant label false sectionId typeClass None))
          itemVariants ;;
        Some [ {| e_schema := schema; e_array := false;
                  e_labelOverride := Some "array of";
                  e_typeClassOverride := Some "object";
                  e_groupVariants := Some groupVariants |} ]
      else
        Some [ {| e_schema := schema; e_array := true;
                  e_labelOverride := None; e_typeClassOverride := None;
                  e_groupVariants := None |} ]
  | None =>
      array <- isArraySchema fuel doc (Some schema) ;;
      Some [ {| e_schema := schema; e_array := array;
                e_labelOverride := None; e_typeClassOverride := None;
                e_groupVariants := None |} ]
  end.

(** The callback that turns an entry into a variant, shared by
    [buildUnionVariants] and the union sections. *)
Definition variantOfEntry (fuel : nat) (doc : OpenApiDocument)
  (byName : list (string * SectionRef)) (entry : UnionVariantEntry)
  : option ParameterUnionVariant :=
  let variant := e_schema entry in
  let refName := getRefNameDeep (Some variant) in
  let sectionId := sectionIdOf byName refName in
  label <- match e_labelOverride entry with
           | Some l => Some l
           | None => getVariantLabel fuel doc variant
           end ;;
  typeClass <- match e_typeClassOverride entry with
               | Some c => Some c
               | None => getTypeClass fuel doc (Some variant)
               end ;;
  Some (mkVariant label (e_array entry) sectionId typeClass
          (e_groupVariants entry)).

Definition buildUnionVariants (fuel : nat) (doc : OpenApiDocument)
  (schema : Schema) (sections : ReferenceSections)
  : option (list ParameterUnionVariant) :=
  variantSchemas <- getUnionVariants fuel doc (Some schema) ;;
  pieces <- mapM (fun variant =>
                    expandUnionVariantEntries fuel doc variant sections)
              variantSchemas ;;
  mapM (variantOfEntry fuel doc (byName sections)) (concat pieces).

(** [enumValues.length === 1 ? String(enumValues[0]) : null] *)
Definition literalOf (enumValues : list EnumValue) : option string :=
  match enumValues with
  | [value] => Some (toString value)
  | _ => None
  end.

(** [requiredSet.has(name)] *)
Definition inSet (required : list string) (name : string) : bool :=
  existsb (Js.str_eqb name) required.

Definition buildInlineRows (fuel : nat) (doc : OpenApiDocument)
  (schema : option Schema) (sections : ReferenceSections)
  : option (list InlineRow) :=
  properties <- getSchemaProperties fuel doc schema ;;
  match properties with
  | None => Some []
  | Some props =>
      requiredSet <- getSchemaRequired fuel doc schema ;;
      mapM
        (fun entry : string * Schema =>
           let (name, prop) := entry in
           enumValues <- getEnumValues fuel doc (Some prop) ;;
           enumDescriptions <- getEnumDescriptions fuel doc (Some prop) ;;
           let label := getTypeLabel doc (Some prop) in
           let literalValue := literalOf enumValues in
           let type := if nonEmptyList enumValues then "enum" else label in
           unionVariants <- buildUnionVariants fuel doc prop sections ;;
           description <- getDescription fuel doc (Some prop) ;;
           array <- isArraySchema fuel doc (Some prop) ;;
           Some {| ir_name := name;
                   ir_type := type;
                   ir_description := description;
                   ir_array := array;
                   ir_required := inSet requiredSet name;
                   ir_enumValues := enumValues;
                   ir_enumDescriptions := enumDescriptions;
                   ir_literalValue := literalValue;
                   ir_unionVariants := unionVariants |})
        props
  end.

(** The accumulator of the collector: a [Map<string, OpenApiSchemaExt>]
    that every call mutates and returns. *)
Definition RefMap : Type := list (string * Schema).

Fixpoint collectRefSchemas (fuel : nat) (doc : OpenApiDocument)
  (schema : option Schema) (acc : RefMap) : option RefMap :=
  match fuel with
  | O => None
  | S fuel =>
      match schema with
      | None => Some acc
      | Some s =>
          if Js.truthy (s_ref s)
          then
            let refName := getRefName schema in
            let resolved :=
              match resolveRef doc schema with Some r => r | None => s end in
            if Js.truthy refName && negb (Js.has acc (orEmpty refName))
            then collectRefSchemas fuel doc (Some resolved)
                   (Js.set acc (orEmpty refName) resolved)
            else Some acc
          else
            let each (acc : RefMap) (child : Schema) :=
              collectRefSchemas fuel doc (Some child) acc in
            let all (branches : option (list Schema)) (acc : RefMap) :=
              foldM each (match branches with Some l => l | None => [] end) acc in
            acc <- match s_properties s with
                   | Some props => foldM each (map snd props) acc
                   | None => Some acc
                   end ;;
            acc <- match s_items s with
                   | Some items => each acc items
                   | None => Some acc
                   end ;;
            acc <- all (s_anyOf s) acc ;;
            acc <- all (s_oneOf s) acc ;;
            all (s_allOf s) acc
      end
  end.

(** [for (const [name, refSchema] of refs)
      if (!merged.has(name)) merged.set(name, refSchema);] *)
Definition mergeRefs (merged refs : RefMap) : RefMap :=
  fold_left
    (fun merged entry =>
       if Js.has merged (fst entry) then merged
       else Js.set merged (fst entry) (snd entry))
    refs merged.

Definition collectRefsFromSchemas (fuel : nat) (doc : OpenApiDocument)
  (schemas : list (option Schema)) : option RefMap :=
  foldM
    (fun merged schema =>
       match schema with
       | None => Some merged
       | Some _ =>
           refs <- collectRefSchemas fuel doc schema [] ;;
           Some (mergeRefs merged refs)
       end)
    schemas [].

Record SectionEntry : Type := {
  se_name : string;
  se_schema : Schema;
  se_kind : SectionKind;
  se_id : string;
}.

Definition sectionId (kind : SectionKind) (name : string) : string :=
  (kindName kind ++ "-" ++ name)%string.

(** The first loop of [buildSectionsFromRefs]: one step on the pair
    of [byName] and [sectionEntries]. *)
Definition classifyRef (fuel : nat) (doc : OpenApiDocument)
  (state : list (string * SectionRef) * list SectionEntry)
  (entry : string * Schema)
  : option (list (string * SectionRef) * list SectionEntry) :=
  let (byName, sectionEntries) := state in
  let (name, schema) := entry in
  inlineable <- getInlineable fuel doc (Some schema) ;;
  if inlineable then Some state
  else
    kind <- getSchemaKind fuel doc (Some schema) ;;
    match kind with
    | None => Some state
    | Some kind =>
        let id := sectionId kind name in
        if Js.has byName name then Some state
        else Some (Js.set byName name {| sr_id := id; sr_kind := kind |},
                   sectionEntries
                     ++ [ {| se_name := name; se_schema := schema;
                             se_kind := kind; se_id := id |} ])
    end.

Section Sections.
(** [a.localeCompare(b)] depends on the host's collation; it is
    taken as given, by its sign. *)
Variable localeCompare : string -> string -> comparison.

(** The second loop: one step on the three arrays, with [byName]
    complete. *)
Definition emitSection (fuel : nat) (doc : OpenApiDocument)
  (sections : ReferenceSections) (entry : SectionEntry)
  : option ReferenceSections :=
  let name := se_name entry in
  let schema := se_schema entry in
  let id := se_id entry in
  match se_kind entry with
  | KEnum =>
      description <- getDescription fuel doc (Some schema) ;;
      values <- getEnumValues fuel doc (Some schema) ;;
      descriptions <- getEnumDescriptions fuel doc (Some schema) ;;
      Some {| enums := enums sections
                 ++ [ {| es_id := id; es_name := name; es_title := name;
                         es_description := description;
                         es_values := values;
                         es_descriptions := descriptions |} ];
              objects := objects sections;
              unions := unions sections;
              byName := byName sections |}
  | KObject =>
      description <- getDescription fuel doc (Some schema) ;;
      rows <- buildInlineRows fuel doc (Some schema) sections ;;
      Some {| enums := enums sections;
              objects := objects sections
                 ++ [ {| os_id := id; os_name := name; os_title := name;
                         os_description := description;
                         os_rows := rows |} ];
              unions := unions sections;
              byName := byName sections |}
  | KUnion =>
      title <- getUnionTitle fuel doc (Some schema) ;;
      let unionTitle := orString title name in
      variantSchemas <- getUnionVariants fuel doc (Some schema) ;;
      pieces <- mapM (fun variant =>
                        expandUnionVariantEntries fuel doc variant sections)
                  variantSchemas ;;
      variants <- mapM (variantOfEntry fuel doc (byName sections))
                    (concat pieces) ;;
      description <- getDescription fuel doc (Some schema) ;;
      Some {| enums := enums sections;
              objects := objects sections;
              unions := unions sections
                 ++ [ {| us_id := id; us_name := name;
                         us_title := unionTitle;
                         us_description := description;
                         us_variants :=
                           Js.sort
                             (fun a b => localeCompare (v_label a) (v_label b))
                             variants |} ];
              byName := byName sections |}
  end.

Definition buildSectionsFromRefs (fuel : nat) (doc : OpenApiDocument)
  (refs : RefMap) : option ReferenceSections :=
  state <- foldM (classifyRef fuel doc) refs ([], []) ;;
  let (byName, sectionEntries) := state in
  built <- foldM (emitSection fuel doc) sectionEntries
             {| enums := []; objects := []; unions := [];
                byName := byName |} ;;
  Some {| enums :=
            Js.sort (fun a b => localeCompare (es_name a) (es_name b))
              (enums built);
          objects :=
            Js.sort (fun a b => localeCompare (os_name a) (os_name b))
              (objects built);
          unions :=
            Js.sort (fun a b => localeCompare (us_name a) (us_name b))
              (unions built);
          byName := byName |}.

Definition buildParameterRows (fuel : nat) (doc : OpenApiDocument)
  (schema : option Schema) (sections : ReferenceSections)
  : option (list ParameterRow) :=
  match schema with
  | None => Some []
  | Some s =>
      match s_properties s with
      | None => Some []
      | Some properties =>
          let requiredSet :=
            match s_required s with Some req => req | None => [] end in
          mapM
            (fun entry : string * Schema =>
               let (name, prop) := entry in
               enumValues <- getEnumValues fuel doc (Some prop) ;;
               enumDescriptions <- getEnumDescriptions fuel doc (Some prop) ;;
               let typeLabel := getTypeLabel doc (Some prop) in
               let typeClass :=
                 if nonEmptyList enumValues then "enum" else typeLabel in
               let literalValue := literalOf enumValues in
               inlineable <- getInlineable fuel doc (Some prop) ;;
               unionVariants <- buildUnionVariants fuel doc prop sections ;;
               let isUnion := nonEmptyList unionVariants in
               let typeRefName := getRefNameDeep (Some prop) in
               let typeLinkId :=
                 if negb inlineable
                 then sectionIdOf (byName sections) typeRefName
                 else None in
               description <- getDescription fuel doc (Some prop) ;;
               array <- isArraySchema fuel doc (Some prop) ;;
               inlineRows <-
                 (if inlineable
                  then buildInlineRows fuel doc (Some prop) sections
                  else Some []) ;;
               Some {| pr_name := name;
                       pr_typeLabel := typeLabel;
                       pr_typeClass := typeClass;
                       pr_description := description;
                       pr_required := inSet requiredSet name;
                       pr_array := array;
                       pr_enumValues := enumValues;
                       pr_enumDescriptions := enumDescriptions;
                       pr_literalValue := literalValue;
                       pr_inlineable := inlineable;
                       pr_inlineRows := inlineRows;
                       pr_isUnion := isUnion;
                       pr_unionVariants := unionVariants;
                       pr_typeLinkId := typeLinkId |})
            properties
      end
  end.

Definition buildReferenceIndex (fuel : nat) (doc : OpenApiDocument)
  (requestSchema : option Schema) : option ReferenceIndex :=
  refs <- collectRefsFromSchemas fuel doc [requestSchema] ;;
  sections <- buildSectionsFromRefs fuel doc refs ;;
  parameterRows <- buildParameterRows fuel doc requestSchema sections ;;
  Some {| parameterRows := parameterRows; sections := sections |}.

Definition buildReferenceSections (fuel : nat) (doc : OpenApiDocument)
  (schemas : list (option Schema)) : option ReferenceSections :=
  refs <- collectRefsFromSchemas fuel doc schemas ;;
  buildSectionsFromRefs fuel doc refs.
End Sections.

End Reference.

(** ** Vocabulary of the statements about the collector *)

Module Collector.
Import SchemaLib Reference.

(** The keys of a map, in insertion order. *)
Definition keys {V : Type} (m : list (string * V)) : list string := map fst m.

Definition optList {A : Type} (o : option (list A)) : list A :=
  match o with Some l => l | None => [] end.

(** The child positions that [collectRefSchemas] visits in a node that
    is not a reference, in visiting order: the property values, the
    items, then the branches of [anyOf], [oneOf] and [allOf]. *)
Definition children (s : Schema) : list Schema :=
  map snd (optList (s_properties s))
  ++ match s_items s with Some items => [items] | None => [] end
  ++ optList (s_anyOf s) ++ optList (s_oneOf s) ++ optList (s_allOf s).

(** [node] is a reference whose name, the last segment of its [$ref],
    is the non-empty string [name]. *)
Definition refersTo (node : Schema) (name : string) : Prop :=
  Js.truthy (s_ref node) = true
  /\ getRefName (Some node) = Some name
  /\ Js.nonEmpty name = true.

(** The names that [schemas] can be read at: its entries and the
    members it inherits. *)
Definition defNames (doc : OpenApiDocument) : list string :=
  match components doc with
  | Some c =>
      match schemas c with
      | Some defs => keys defs ++ objectPrototype
      | None => []
      end
  | None => []
  end.

(** How many defined names are not yet keys of the accumulator: what
    every followed reference makes smaller. *)
Definition unseen (doc : OpenApiDocument) (acc : RefMap) : nat :=
  length (filter (fun name => negb (Js.has acc name)) (defNames doc)).

(** [later] has every key of [earlier]. *)
Definition Grows (earlier later : RefMap) : Prop :=
  forall name, Js.has earlier name = true -> Js.has later name = true.

(** Every name that [later] has and [earlier] has not, and that names
    a definition that is not itself a reference, has had that
    definition traversed: the names its children refer to are keys of
    [later]. *)
Definition Closed (doc : OpenApiDocument) (earlier later : RefMap) : Prop :=
  forall name def,
    Js.has later name = true -> Js.has earlier name = false ->
    namedSchema doc name = Some def -> Js.truthy (s_ref def) = false ->
    forall child target,
      In child (children def) -> refersTo child target ->
      Js.has later target = true.

(** [resolveRef(doc, schema) ?? schema] *)
Definition resolvedOr (doc : OpenApiDocument) (s : Schema) : Schema :=
  match resolveRef doc (Some s) with Some r => r | None => s end.

(** Keys are only added, and never twice. *)
Definition Adds (earlier later : RefMap) : Prop :=
  Grows earlier later /\ (NoDup (keys earlier) -> NoDup (keys later)).

(** Keys are only added, and the definition of every added name has
    been traversed. *)
Definition Visits (doc : OpenApiDocument) (earlier later : RefMap) : Prop :=
  Grows earlier later /\ Closed doc earlier later.

(** The three facts that every call of the collector keeps. *)
Definition Extends (doc : OpenApiDocument) (earlier later : RefMap) : Prop :=
  Grows earlier later
  /\ Closed doc earlier later
  /\ (NoDup (keys earlier) -> NoDup (keys later)).

(** The collector ends on [result]: every large enough fuel gives it. *)
Definition Converges (doc : OpenApiDocument) (schema : option Schema)
  (acc result : RefMap) : Prop :=
  exists enough, forall fuel, enough <= fuel ->
    collectRefSchemas fuel doc schema acc = Some result.

End Collector.

(** ** Vocabulary of the statements about the section set *)

Module Index.
Import SchemaLib Reference.

Definition kind_eqb (a b : SectionKind) : bool :=
  match a, b with
  | KEnum, KEnum | KUnion, KUnion | KObject, KObject => true
  | _, _ => false
  end.

(** A section seen as its kind, its name and its id. *)
Definition Key : Type := (SectionKind * string * string)%type.

Definition keyKind (k : Key) : SectionKind := fst (fst k).
Definition keyName (k : Key) : string := snd (fst k).
Definition keyId (k : Key) : string := snd k.

Definition enumKeys (secs : ReferenceSections) : list Key :=
  map (fun x => (KEnum, es_name x, es_id x)) (enums secs).
Definition objectKeys (secs : ReferenceSections) : list Key :=
  map (fun x => (KObject, os_name x, os_id x)) (objects secs).
Definition unionKeys (secs : ReferenceSections) : list Key :=
  map (fun x => (KUnion, us_name x, us_id x)) (unions secs).

(** All the sections of a section set. *)
Definition sectionKeys (secs : ReferenceSections) : list Key :=
  enumKeys secs ++ objectKeys secs ++ unionKeys secs.

Definition entryKey (e : SectionEntry) : Key :=
  (se_kind e, se_name e, se_id e).

(** The entries of one kind, in order. *)
Definition ofKind (k : SectionKind) (entries : list SectionEntry) : list Key :=
  map entryKey (filter (fun e => kind_eqb (se_kind e) k) entries).

(** What the first loop of [buildSectionsFromRefs] keeps about
    [byName] and [sectionEntries]. *)
Definition Classified (fuel : nat) (doc : OpenApiDocument) (refs : RefMap)
  (state : list (string * SectionRef) * list SectionEntry) : Prop :=
  map fst (fst state) = map se_name (snd state)
  /\ NoDup (map fst (fst state))
  /\ Forall
       (fun e =>
          se_id e = sectionId (se_kind e) (se_name e)
          /\ In (se_name e, se_schema e) refs
          /\ getInlineable fuel doc (Some (se_schema e)) = Some false)
       (snd state).

End Index.

(** ** resolve.ts: references and their names *)

Module Deref.
Import Resolve.

(** A string without [~]: a segment that the decoder leaves as it is. *)
Fixpoint noTilde (s : string) : bool :=
  match s with
  | EmptyString => true
  | String c r => negb (Ascii.eqb c Js.tilde) && noTilde r
  end.

(** [isRef] takes [v: unknown], and the dereferencing functions take
    what the document gives them: like the pointer walk, they are written
    over any type of JavaScript values, given the tests and the reads
    that they make. *)
Section Dereference.
Variable value : Type.
(** [v === null] and [v[p]], as for the pointer walk *)
Variable isNull : value -> bool.
Variable get : value -> string -> option value.
(** [!v] *)
Variable falsy : value -> bool.
(** [typeof v === "object"] *)
Variable isObject : value -> bool.
(** [p in v] *)
Variable hasProperty : value -> string -> bool.
(** [typeof v === "string"], with the string *)
Variable asString : value -> option string.

(** [v.$ref], when it is a string. *)
Definition refString (v : value) : option string :=
  match get v "$ref" with
  | Some r => asString r
  | None => None
  end.

(** [typeof v === "object" && v !== null && "$ref" in v
     && typeof v.$ref === "string"] *)
Definition isRef (v : option value) : bool :=
  match v with
  | None => false
  | Some x =>
      isObject x && negb (isNull x) && hasProperty x "$ref"
      && match refString x with Some _ => true | None => false end
  end.

(** [if (!schema || !isRef(schema)) return schema;
     return resolveRef(doc, schema.$ref) ?? schema;]
    After [isRef], [schema.$ref] is a string: the last branch is not
    reached. *)
Definition derefSchema (doc schema : option value) : option value :=
  match schema with
  | None => schema
  | Some x =>
      if falsy x || negb (isRef schema) then schema
      else
        match refString x with
        | Some ref =>
            let resolved := resolveRef value isNull get doc ref in
            if nullish value isNull resolved then schema else resolved
        | None => schema
        end
  end.

(** [derefRequestBody] and [derefResponse] have the body of
    [derefSchema]; their casts have no run-time content. *)
Definition derefRequestBody (doc rb : option value) : option value :=
  derefSchema doc rb.

Definition derefResponse (doc resp : option value) : option value :=
  derefSchema doc resp.
End Dereference.

(** The literal part of [/#\/components\/schemas\/([^/]+)$/]. *)
Definition schemasPrefix : string := "#/components/schemas/".

(** The pattern tried at the start of [s]: the literal, then one or
    more characters other than [/] up to the end of the input. *)
Definition matchHere (s : string) : option string :=
  if Js.startsWith schemasPrefix s
  then
    let rest := Js.slice (String.length schemasPrefix) s in
    if Js.nonEmpty rest && noSlash rest then Some rest else None
  else None.

(** [ref.match(...)]: the pattern is not anchored at the start, so it is
    tried at every position from the left; the result is the group. *)
Fixpoint matchFrom (s : string) : option string :=
  match matchHere s with
  | Some group => Some group
  | None =>
      match s with
      | EmptyString => None
      | String _ r => matchFrom r
      end
  end.

Definition refName (ref : string) : option string :=
  match matchFrom ref with
  | Some group => Some (decodePointerSegment group)
  | None => None
  end.

(** A reference node [{ "$ref": ref }]. *)
Definition refNode (ref : string) : JSON := JObj [("$ref", JStr ref)].

End Deref.

(** ** schemaFormat.ts: nullable unions *)

Module SchemaFormat.
Import SchemaLib.

(** [{ ...schema, anyOf }] *)
Definition withAnyOf (schema : Schema) (anyOf : list Schema) : Schema :=
  mkSchema (s_ref schema) (s_description schema) (s_type schema)
    (s_enum schema) (s_properties schema) (s_required schema)
    (s_items schema) (s_additionalProperties schema) (s_oneOf schema)
    (Some anyOf) (s_allOf schema) (x_inlineable schema)
    (x_unionTitle schema) (x_enumDescriptions schema).

Record Split : Type := { base : Schema; nullable : bool }.

Definition splitNullableUnion (schema : Schema) : Split :=
  match s_anyOf schema with
  | None => {| base := schema; nullable := false |}
  | Some anyOf =>
      if (length anyOf <? 2)%nat then {| base := schema; nullable := false |}
      else
        let kept := nonNull anyOf in
        let hasNull := negb (length kept =? length anyOf)%nat in
        if negb hasNull then {| base := schema; nullable := false |}
        else
          match kept with
          | [only] => {| base := only; nullable := true |}
          | _ => {| base := withAnyOf schema kept; nullable := true |}
          end
  end.

End SchemaFormat.

(** ** Vocabulary of the further statements *)

Module More.
Import SchemaLib Reference Collector Index.

(** A reference that [resolveRef] gives back as it is: its target is
    missing, or is a definition that is this very reference. *)
Definition selfResolving (doc : OpenApiDocument) (s : Schema) : Prop :=
  Js.truthy (s_ref s) = true /\ resolveRef doc (Some s) = Some s.

(** What the collector stores under a name: what [schemas] reads at
    that name, an entry or an inherited member, when it reads something,
    and otherwise a reference node with that name (the fallback of
    [resolveRef(doc, schema) ?? schema]). *)
Definition Stored (doc : OpenApiDocument) (acc : RefMap) : Prop :=
  forall name v,
    In (name, v) acc ->
    Js.nonEmpty name = true
    /\ match namedSchema doc name with
       | Some def => v = def
       | None => refersTo v name
       end.

(** The entry of [byName] that the first loop of the section builder
    writes for a section entry. *)
Definition entryRef (e : SectionEntry) : string * SectionRef :=
  (se_name e, {| sr_id := se_id e; sr_kind := se_kind e |}).

(** A [byName] entry as kind, name and id. *)
Definition refKey (e : string * SectionRef) : Key :=
  (sr_kind (snd e), fst e, sr_id (snd e)).

(** The section ids that a variant links to: its own and those of its
    group. *)
Fixpoint variantIds (v : ParameterUnionVariant) : list string :=
  match v_sectionId v with Some id => [id] | None => [] end
  ++ match v_groupVariants v with
     | Some group => flat_map variantIds group
     | None => []
     end.

(** The ids that [byName] holds. *)
Definition idsOf (names : list (string * SectionRef)) : list string :=
  map (fun e => sr_id (snd e)) names.

(** The links of the entries that [expandUnionVariantEntries] makes. *)
Definition entryIds (e : UnionVariantEntry) : list string :=
  match e_groupVariants e with
  | Some group => flat_map variantIds group
  | None => []
  end.

(** All the section ids that a section set links to from the variants
    of its union sections and of the rows of its object sections. *)
Definition rowIds (row : InlineRow) : list string :=
  flat_map variantIds (ir_unionVariants row).

Definition sectionLinks (secs : ReferenceSections) : list string :=
  flat_map (fun o => flat_map rowIds (os_rows o)) (objects secs)
  ++ flat_map (fun u => flat_map variantIds (us_variants u)) (unions secs).

(** The section ids that a parameter row links to. *)
Definition parameterIds (row : ParameterRow) : list string :=
  match pr_typeLinkId row with Some id => [id] | None => [] end
  ++ flat_map variantIds (pr_unionVariants row)
  ++ flat_map rowIds (pr_inlineRows row).

(** [a] does not come after [b]. *)
Definition notAfter (cmp : string -> string -> comparison) (a b : string)
  : Prop :=
  cmp a b <> Gt.

End More.

(** ** Sample documents *)

Module Examples.
Import SchemaLib.

Definition emptyDoc : OpenApiDocument := {| components := None |}.

(** [{ paths: { "/responses": { post: 1 } }, "m~n": ["x", null] }] *)
Definition jsonDoc : Resolve.JSON :=
  Resolve.JObj
    [ ("paths",
       Resolve.JObj [ ("/responses", Resolve.JObj [ ("post", Resolve.JNum 1) ]) ]);
      ("m~n", Resolve.JArr [ Resolve.JStr "x"; Resolve.JNull ]) ].

(** A document with one named schema, [Foo]. *)
Definition fooDef : Schema := objectOf [ ("id", ofType "string") ] [ "id" ].
Definition fooDoc : OpenApiDocument := docOf [ ("Foo", fooDef) ].

(** [{ allOf: [{ type: "string" }] }]: an [allOf] with no reference. *)
Definition allOfPlain : Schema := allOfSchema [ ofType "string" ].

(** [{ enum: ["a", "a"] }] *)
Definition repeatedEnum : Schema := enumOf [ EStr "a"; EStr "a" ].

(** [{ type: "array", items: { enum: ["a"] }, enum: ["x"] }] *)
Definition arrayWithEnum : Schema :=
  mkSchema None None (Some "array") (Some [ EStr "x" ]) None None
    (Some (enumOf [ EStr "a" ])) None None None None None None None.

(** Two schemas that refer to each other through a property. *)
Definition toA : Schema := refTo "#/components/schemas/A".
Definition toB : Schema := refTo "#/components/schemas/B".
Definition cycleA : Schema := objectOf [ ("b", toB) ] [].
Definition cycleB : Schema := objectOf [ ("a", toA) ] [ "a" ].
Definition cycleDoc : OpenApiDocument :=
  docOf [ ("A", cycleA); ("B", cycleB) ].

(** Two object schemas [X] and [Y], a union and an enum. *)
Definition toX : Schema := refTo "#/components/schemas/X".
Definition toY : Schema := refTo "#/components/schemas/Y".
Definition defX : Schema := objectOf [ ("x", ofType "string") ] [ "x" ].
Definition defY : Schema := objectOf [ ("y", ofType "integer") ] [].
Definition defEither : Schema := oneOfSchema [ toX; toY ].
Definition defColor : Schema := enumOf [ EStr "red"; EStr "green" ].

(** An object schema flagged [x-inlineable]. *)
Definition defInline : Schema :=
  mkSchema None None (Some "object") None
    (Some [ ("size", ofType "integer") ]) None None None None None None
    (Some true) None None.

Definition xyDoc : OpenApiDocument :=
  docOf [ ("X", defX); ("Y", defY); ("Either", defEither);
          ("Color", defColor); ("Inline", defInline) ].

(** The map that the collector hands to the section builder. *)
Definition xyRefs : Reference.RefMap :=
  [ ("Either", defEither); ("X", defX); ("Y", defY);
    ("Color", defColor); ("Inline", defInline) ].

Definition noSections : Reference.ReferenceSections :=
  {| Reference.enums := []; Reference.objects := [];
     Reference.unions := []; Reference.byName := [] |}.

(** [array<anyOf[X, Y]>], as a property schema and as the branch of a
    union. *)
Definition arrayOfUnion : Schema := arrayOf (anyOfSchema [ toX; toY ]).
Definition unionWithArray : Schema := anyOfSchema [ arrayOfUnion ].
Definition listRoot : Schema := objectOf [ ("items", arrayOfUnion) ] [].

(** The collation of the examples: code-unit order. *)
Definition byCode : string -> string -> comparison := String.compare.

Definition xySections : option Reference.ReferenceSections :=
  Reference.buildSectionsFromRefs byCode 8 xyDoc xyRefs.

Definition fooIndex : option Reference.ReferenceIndex :=
  Reference.buildReferenceIndex byCode 8 fooDoc
    (Some (refTo "#/components/schemas/Foo")).

End Examples.

(** ** Further sample documents *)

Module MoreExamples.
Import SchemaLib Examples.

(** A reference to a schema that [xyDoc] does not define. *)
Definition toMissing : Schema := refTo "#/components/schemas/Missing".

(** A request schema over the schemas of [xyDoc]. *)
Definition xyRoot : Schema :=
  objectOf
    [ ("either", refTo "#/components/schemas/Either");
      ("color", refTo "#/components/schemas/Color");
      ("list", unionWithArray);
      ("inline", refTo "#/components/schemas/Inline");
      ("name", ofType "string") ]
    [ "color"; "name" ].

Definition xyIndex : option Reference.ReferenceIndex :=
  Reference.buildReferenceIndex byCode 8 xyDoc (Some xyRoot).

(** [{ anyOf: [X, null, Y] }] and [{ anyOf: [X, null] }] *)
Definition nullableTwo : Schema := anyOfSchema [ toX; nullSchema; toY ].
Definition nullableOne : Schema := anyOfSchema [ toX; nullSchema ].

(** [A] with a [$ref] of its own, to a schema [C] that the document
    does not define, and with a property that refers to [B]; [B] is
    [cycleB], which refers back to [A]. *)
Definition refCycleA : Schema :=
  mkSchema (Some "#/components/schemas/C") None (Some "object") None
    (Some [ ("b", toB) ]) None None None None None None None None None.

Definition refCycleDoc : OpenApiDocument :=
  docOf [ ("A", refCycleA); ("B", cycleB) ].

(** [{ info: { title: "Hello" } }] *)
Definition titleDoc : Resolve.JSON :=
  Resolve.JObj
    [ ("info", Resolve.JObj [ ("title", Resolve.JStr "Hello") ]) ].

(** [{ components: { schemas: { "a/b": { type: "string" }, gone: null } } }] *)
Definition slashDoc : Resolve.JSON :=
  Resolve.JObj
    [ ("components",
       Resolve.JObj
         [ ("schemas",
            Resolve.JObj
              [ ("a/b", Resolve.JObj [ ("type", Resolve.JStr "string") ]);
                ("gone", Resolve.JNull) ]) ]) ].

End MoreExamples.

(** * Properties *)

(** * Pointer resolution *)

Section PointerFacts.
Import Resolve.

Lemma replace_tilde1_other c s :
  c <> Js.tilde ->
  Js.replace_tilde1 (String c s) = String c (Js.replace_tilde1 s).
Proof.
  intros Hc. destruct s as [|d s']; [reflexivity|].
  cbn [Js.replace_tilde1].
  destruct (Ascii.eqb_spec c Js.tilde) as [E|_]; [contradiction|reflexivity].
Qed.

Lemma replace_tilde0_other c s :
  c <> Js.tilde ->
  Js.replace_tilde0 (String c s) = String c (Js.replace_tilde0 s).
Proof.
  intros Hc. destruct s as [|d s']; [reflexivity|].
  cbn [Js.replace_tilde0].
  destruct (Ascii.eqb_spec c Js.tilde) as [E|_]; [contradiction|reflexivity].
Qed.

Lemma replace_tilde1_tilde0 s :
  Js.replace_tilde1 (String Js.tilde (String "0"%char s))
  = String Js.tilde (String "0"%char (Js.replace_tilde1 s)).
Proof. destruct s; reflexivity. Qed.

Lemma replace_tilde1_escape key :
  Js.replace_tilde1 (escapeKey key) = escapeTilde key.
Proof.
  induction key as [|c r IH]; [reflexivity|].
  cbn [escapeKey escapeTilde].
  destruct (Ascii.eqb_spec c Js.tilde) as [Et|Nt].
  - rewrite replace_tilde1_tilde0. now rewrite IH.
  - destruct (Ascii.eqb_spec c Js.slash) as [Es|Ns].
    + subst c. cbn. now rewrite IH.
    + rewrite replace_tilde1_other by assumption. now rewrite IH.
Qed.

Lemma replace_tilde0_escape key :
  Js.replace_tilde0 (escapeTilde key) = key.
Proof.
  induction key as [|c r IH]; [reflexivity|].
  cbn [escapeTilde].
  destruct (Ascii.eqb_spec c Js.tilde) as [Et|Nt].
  - subst c. cbn. now rewrite IH.
  - rewrite replace_tilde0_other by assumption. now rewrite IH.
Qed.

Lemma decode_escape key : decodePointerSegment (escapeKey key) = key.
Proof.
  unfold decodePointerSegment.
  now rewrite replace_tilde1_escape, replace_tilde0_escape.
Qed.

Lemma escape_noSlash key : noSlash (escapeKey key) = true.
Proof.
  induction key as [|c r IH]; [reflexivity|].
  cbn [escapeKey].
  destruct (Ascii.eqb_spec c Js.tilde) as [Et|Nt]; [exact IH|].
  destruct (Ascii.eqb_spec c Js.slash) as [Es|Ns]; [exact IH|].
  cbn [noSlash]. rewrite IH.
  destruct (Ascii.eqb_spec c Js.slash); [contradiction|reflexivity].
Qed.

Lemma split_cons s : exists h t, Js.split s = h :: t.
Proof.
  destruct s as [|c r]; cbn [Js.split]; [now eexists; eexists|].
  destruct (Ascii.eqb c Js.slash); [now eexists; eexists|].
  destruct (Js.split r); now eexists; eexists.
Qed.

Lemma split_app s t :
  noSlash s = true ->
  Js.split (s ++ String Js.slash t) = s :: Js.split t.
Proof.
  induction s as [|c r IH]; intros H.
  - cbn. reflexivity.
  - cbn [noSlash] in H. apply andb_true_iff in H as [Hc Hr].
    cbn [append Js.split].
    destruct (Ascii.eqb c Js.slash); [discriminate|].
    now rewrite (IH Hr).
Qed.

Lemma split_noSlash s : noSlash s = true -> Js.split s = [s].
Proof.
  induction s as [|c r IH]; intros H; [reflexivity|].
  cbn [noSlash] in H. apply andb_true_iff in H as [Hc Hr].
  cbn [Js.split]. destruct (Ascii.eqb c Js.slash); [discriminate|].
  now rewrite (IH Hr).
Qed.

Lemma split_join segs :
  segs <> [] ->
  Forall (fun s => noSlash s = true) segs ->
  Js.split (Js.join segs) = segs.
Proof.
  induction segs as [|s r IH]; intros Hne Hall; [contradiction|].
  inversion Hall as [|? ? Hs Hr]; subst.
  destruct r as [|s' r'].
  - cbn [Js.join]. now apply split_noSlash.
  - change (Js.join (s :: s' :: r'))
      with (s ++ String Js.slash (Js.join (s' :: r')))%string.
    rewrite split_app by assumption.
    rewrite IH; [reflexivity|discriminate|assumption].
Qed.

Variable value : Type.
Variable isNull : value -> bool.
Variable get : value -> string -> option value.

Lemma lookupPath_absent keys :
  lookupPath value isNull get None keys = None.
Proof. induction keys as [|k r IH]; [reflexivity|exact IH]. Qed.

(** The loop with its early return computes the sequential lookup. *)
Lemma walk_lookupPath parts : forall cur,
  walk value isNull get cur parts = lookupPath value isNull get cur parts.
Proof.
  induction parts as [|p rest IH]; intros cur; [reflexivity|].
  cbn [walk]. unfold lookupPath. cbn [fold_left].
  destruct cur as [v|]; cbn [nullish field index].
  - destruct (isNull v).
    + symmetry. apply lookupPath_absent.
    + apply IH.
  - symmetry. apply lookupPath_absent.
Qed.

Lemma getByJsonPointer_local doc rest :
  getByJsonPointer value isNull get doc ("#/" ++ rest)
  = lookupPath value isNull get doc
      (map decodePointerSegment (Js.split rest)).
Proof.
  unfold getByJsonPointer.
  replace (Js.startsWith "#/" ("#/" ++ rest)) with true.
  - cbn [negb]. change (Js.slice 2 ("#/" ++ rest)) with rest.
    apply walk_lookupPath.
  - cbn. destruct rest; reflexivity.
Qed.

Lemma getByJsonPointer_keys doc keys :
  keys <> [] ->
  getByJsonPointer value isNull get doc (pointerOf keys)
  = lookupPath value isNull get doc keys.
Proof.
  intros Hne. unfold pointerOf. rewrite getByJsonPointer_local.
  rewrite split_join.
  - rewrite map_map. f_equal.
    rewrite <- (map_id keys) at 2. apply map_ext. intros k. apply decode_escape.
  - destruct keys; [contradiction|discriminate].
  - apply Forall_forall. intros s Hs. apply in_map_iff in Hs as [k [<- _]].
    apply escape_noSlash.
Qed.

(** C5.  A pointer that does not start with [#/] resolves to nothing.
    A pointer [#/a/b/c] resolves to the value reached from the document
    by looking each slash-separated segment up in turn, decoded with
    [~1] to [/] and [~0] to [~], and to nothing as soon as a value on
    the way is absent or null; in particular the pointer that escapes a
    list of keys resolves to the lookup of these very keys. *)
Theorem getByJsonPointer_sequential_lookup (doc : option value) :
  (forall pointer, Js.startsWith "#/" pointer = false ->
     getByJsonPointer value isNull get doc pointer = None)
  /\ (forall rest,
        getByJsonPointer value isNull get doc ("#/" ++ rest)
        = lookupPath value isNull get doc
            (map decodePointerSegment (Js.split rest)))
  /\ (forall keys, keys <> [] ->
        getByJsonPointer value isNull get doc (pointerOf keys)
        = lookupPath value isNull get doc keys).
Proof.
  split; [|split].
  - intros pointer H. unfold getByJsonPointer. now rewrite H.
  - apply getByJsonPointer_local.
  - apply getByJsonPointer_keys.
Qed.

End PointerFacts.

(** * Induction on schemas *)

Section SchemaInduction.
Import SchemaLib.

Lemma list_sum_in {A : Type} (f : A -> nat) (x : A) (l : list A) :
  In x l -> f x <= list_sum (map f l).
Proof.
  induction l as [|y r IH]; intros H; [contradiction|].
  simpl. destruct H as [->|H]; [lia|].
  specialize (IH H). lia.
Qed.

Lemma size_property s props k child :
  s_properties s = Some props -> In (k, child) props -> size child < size s.
Proof.
  intros E H. destruct s; cbn in E; subst. cbn [size s_properties].
  pose proof (list_sum_in (fun p => size (snd p)) (k, child) props H) as L.
  cbn [snd] in L. lia.
Qed.

Lemma size_items s items : s_items s = Some items -> size items < size s.
Proof.
  intros E. destruct s; cbn in E; subst. cbn [size s_items]. lia.
Qed.

Lemma size_oneOf s l child :
  s_oneOf s = Some l -> In child l -> size child < size s.
Proof.
  intros E H. destruct s; cbn in E; subst. cbn [size s_oneOf].
  pose proof (list_sum_in size child l H). lia.
Qed.

Lemma size_anyOf s l child :
  s_anyOf s = Some l -> In child l -> size child < size s.
Proof.
  intros E H. destruct s; cbn in E; subst. cbn [size s_anyOf].
  pose proof (list_sum_in size child l H). lia.
Qed.

Lemma size_allOf s l child :
  s_allOf s = Some l -> In child l -> size child < size s.
Proof.
  intros E H. destruct s; cbn in E; subst. cbn [size s_allOf].
  pose proof (list_sum_in size child l H). lia.
Qed.

(** Induction on the size of the node. *)
Lemma schema_size_ind (P : Schema -> Prop) :
  (forall s, (forall c, size c < size s -> P c) -> P s) -> forall s, P s.
Proof.
  intros step s.
  induction s as [s IH] using (well_founded_induction
                                 (Wf_nat.well_founded_ltof Schema size)).
  apply step. exact IH.
Qed.

End SchemaInduction.

(** * Type labels *)

Section TypeLabelFacts.
Import SchemaLib.
Variable doc : OpenApiDocument.

Lemma orString_nonEmpty a b :
  Js.nonEmpty b = true -> Js.nonEmpty (orString a b) = true.
Proof.
  intros Hb. unfold orString. destruct a as [s|]; [|exact Hb].
  destruct (Js.nonEmpty s) eqn:E; [exact E|exact Hb].
Qed.

Lemma orString_id s b : Js.nonEmpty s = true -> orString (Some s) b = s.
Proof. intros H. unfold orString. now rewrite H. Qed.

(** The loop over [anyOf] is [find] followed by the recursive call. *)
Lemma anyOf_loop (l : list Schema) :
  (fix nonNull (l : list Schema) : string :=
     match l with
     | [] => "unknown"
     | item :: rest =>
         if negb (isNullType item) then getTypeLabelNode doc item
         else nonNull rest
     end) l
  = getTypeLabel doc (find (fun item => negb (isNullType item)) l).
Proof.
  induction l as [|item rest IH]; [reflexivity|].
  cbn [find]. destruct (negb (isNullType item)); [reflexivity|exact IH].
Qed.

(** The body of [getTypeLabel], with the branch searches as the source
    writes them. *)
Lemma getTypeLabelNode_unfold s :
  getTypeLabelNode doc s =
    if Js.truthy (s_ref s) then orString (getRefName (Some s)) "unknown"
    else if objectShaped s then "object"
    else
      match s_items s with
      | Some items => getTypeLabel doc (Some items)
      | None =>
          if Js.truthy (s_type s) then orString (s_type s) "unknown"
          else
            match refBranch s with
            | Some refItem => orString (getRefName (Some refItem)) "object"
            | None =>
                match s_anyOf s with
                | Some anyOf =>
                    orString
                      (Some (getTypeLabel doc
                               (find (fun item => negb (isNullType item)) anyOf)))
                      "unknown"
                | None =>
                    match s_oneOf s with
                    | Some oneOf =>
                        orString (Some (getTypeLabel doc (hd_error oneOf)))
                          "unknown"
                    | None => "unknown"
                    end
                end
            end
      end.
Proof.
  destruct s as [ref desc ty en props req items addl oneOf anyOf allOf inl ut ed].
  unfold objectShaped, refBranch.
  cbn [getTypeLabelNode s_ref s_properties s_items s_type s_allOf s_anyOf
       s_oneOf s_additionalProperties].
  destruct (Js.truthy ref); [reflexivity|].
  destruct (isSome props || _); [reflexivity|].
  destruct items as [it|]; [reflexivity|].
  destruct (Js.truthy ty); [reflexivity|].
  destruct (match allOf with Some l => find hasRef l | None => None end);
    [reflexivity|].
  destruct anyOf as [l|].
  - now rewrite anyOf_loop.
  - destruct oneOf as [[|first rest]|]; reflexivity.
Qed.

(** A type label is never the empty string. *)
Lemma getTypeLabelNode_nonEmpty : forall s,
  Js.nonEmpty (getTypeLabelNode doc s) = true.
Proof.
  apply schema_size_ind. intros s IH.
  assert (IHo : forall o, (forall c, o = Some c -> size c < size s) ->
                          Js.nonEmpty (getTypeLabel doc o) = true).
  { intros [c|] Hc; cbn [getTypeLabel]; [|reflexivity]. apply IH. now apply Hc. }
  rewrite getTypeLabelNode_unfold.
  destruct (Js.truthy (s_ref s)); [now apply orString_nonEmpty|].
  destruct (objectShaped s); [reflexivity|].
  destruct (s_items s) as [items|] eqn:Ei.
  { apply IHo. intros c [= <-]. now apply size_items. }
  destruct (Js.truthy (s_type s)); [now apply orString_nonEmpty|].
  destruct (refBranch s); [now apply orString_nonEmpty|].
  destruct (s_anyOf s) as [anyOf|] eqn:Ea; [now apply orString_nonEmpty|].
  destruct (s_oneOf s) as [oneOf|] eqn:Eo; [now apply orString_nonEmpty|].
  reflexivity.
Qed.

Lemma getTypeLabel_nonEmpty o : Js.nonEmpty (getTypeLabel doc o) = true.
Proof.
  destruct o as [s|]; [apply getTypeLabelNode_nonEmpty|reflexivity].
Qed.

(** C3, as the code orders it.  A reference yields the last segment
    of its [$ref] (["unknown"] when that segment is empty); an
    object-shaped node yields ["object"]; a node with [items] yields the
    label of its items; a node with a [type] yields it; after that, an
    [allOf] with a reference branch yields the name of the first such
    branch (["object"] when that name is empty), and a node without
    such a branch goes on to [anyOf] (label of the first non-null
    branch), then [oneOf] (label of the first branch), and is
    ["unknown"] otherwise, [allOf] or not. *)
Theorem getTypeLabel_priority (s : Schema) :
  (Js.truthy (s_ref s) = true ->
     getTypeLabel doc (Some s) = orString (getRefName (Some s)) "unknown")
  /\ (Js.truthy (s_ref s) = false -> objectShaped s = true ->
        getTypeLabel doc (Some s) = "object")
  /\ (forall items,
        Js.truthy (s_ref s) = false -> objectShaped s = false ->
        s_items s = Some items ->
        getTypeLabel doc (Some s) = getTypeLabel doc (Some items))
  /\ (forall t,
        Js.truthy (s_ref s) = false -> objectShaped s = false ->
        s_items s = None -> s_type s = Some t -> Js.nonEmpty t = true ->
        getTypeLabel doc (Some s) = t)
  /\ (forall refItem,
        untyped s -> refBranch s = Some refItem ->
        getTypeLabel doc (Some s)
        = orString (getRefName (Some refItem)) "object")
  /\ (forall anyOf,
        untyped s -> refBranch s = None -> s_anyOf s = Some anyOf ->
        getTypeLabel doc (Some s)
        = getTypeLabel doc (find (fun item => negb (isNullType item)) anyOf))
  /\ (forall oneOf,
        untyped s -> refBranch s = None -> s_anyOf s = None ->
        s_oneOf s = Some oneOf ->
        getTypeLabel doc (Some s) = getTypeLabel doc (hd_error oneOf))
  /\ (untyped s -> refBranch s = None -> s_anyOf s = None ->
      s_oneOf s = None ->
      getTypeLabel doc (Some s) = "unknown").
Proof.
  cbn [getTypeLabel]. rewrite getTypeLabelNode_unfold.
  repeat split.
  - intros ->. reflexivity.
  - intros -> ->. reflexivity.
  - intros items -> -> ->. reflexivity.
  - intros t -> -> -> -> Ht. cbn [Js.truthy]. rewrite Ht.
    now apply orString_id.
  - intros r (-> & -> & -> & ->) ->. reflexivity.
  - intros l (-> & -> & -> & ->) -> ->.
    apply orString_id, getTypeLabel_nonEmpty.
  - intros l (-> & -> & -> & ->) -> -> ->.
    apply orString_id, getTypeLabel_nonEmpty.
  - intros (-> & -> & -> & ->) -> -> ->. reflexivity.
Qed.

End TypeLabelFacts.

(** * Enum values *)

Section EnumFacts.
Import SchemaLib.

Lemma sameValue_eq a b : sameValue a b = true <-> a = b.
Proof.
  destruct a as [s|n|x|], b as [t|m|y|]; cbn [sameValue];
    try (split; [discriminate|discriminate]).
  - rewrite String.eqb_eq. split; [now intros ->|now intros [= ->]].
  - rewrite String.eqb_eq. split; [now intros ->|now intros [= ->]].
  - rewrite Bool.eqb_true_iff. split; [now intros ->|now intros [= ->]].
  - split; reflexivity.
Qed.

Lemma sameValue_sym a b : sameValue a b = sameValue b a.
Proof.
  destruct (sameValue a b) eqn:E1, (sameValue b a) eqn:E2; try reflexivity.
  - apply sameValue_eq in E1. subst.
    rewrite (proj2 (sameValue_eq b b) eq_refl) in E2. discriminate.
  - apply sameValue_eq in E2. subst.
    rewrite (proj2 (sameValue_eq a a) eq_refl) in E1. discriminate.
Qed.

Lemma includes_In values v : includes values v = true <-> In v values.
Proof.
  unfold includes. rewrite existsb_exists. split.
  - intros [w [Hin Hw]]. apply sameValue_eq in Hw. now subst.
  - intros Hin. exists v. split; [assumption|]. now apply sameValue_eq.
Qed.

Lemma includes_app values v w :
  includes (values ++ [v]) w = includes values w || sameValue v w.
Proof.
  unfold includes. rewrite existsb_app. cbn [existsb].
  rewrite orb_false_r. now rewrite (sameValue_sym w v).
Qed.

Lemma filter_filter {A : Type} (p q : A -> bool) (l : list A) :
  filter p (filter q l) = filter (fun x => q x && p x) l.
Proof.
  induction l as [|x r IH]; [reflexivity|].
  cbn [filter]. destruct (q x); cbn [andb filter]; [|exact IH].
  destruct (p x); now rewrite IH.
Qed.

(** What the inner loop appends to [values]: the first occurrences of
    the new values. *)
Lemma pushNew_dedupe itemValues : forall values,
  pushNew values itemValues
  = values ++ filter (fun w => negb (includes values w)) (dedupe itemValues).
Proof.
  induction itemValues as [|v rest IH]; intros values.
  - cbn. now rewrite app_nil_r.
  - unfold pushNew in *. cbn [fold_left dedupe filter].
    destruct (includes values v) eqn:Hv; cbn [negb].
    + rewrite IH. f_equal. rewrite filter_filter.
      apply filter_ext_in. intros w _.
      destruct (sameValue v w) eqn:Hw; cbn [negb andb]; [|reflexivity].
      apply sameValue_eq in Hw. subst w. now rewrite Hv.
    + rewrite IH, <- app_assoc. cbn [app]. do 2 f_equal.
      rewrite filter_filter. apply filter_ext. intros w.
      rewrite includes_app, negb_orb. apply andb_comm.
Qed.

Lemma pushNew_nil itemValues : pushNew [] itemValues = dedupe itemValues.
Proof.
  rewrite pushNew_dedupe. cbn [app].
  rewrite <- (filter_ext (fun _ => true)) by reflexivity.
  induction (dedupe itemValues) as [|x r IH]; [reflexivity|].
  cbn [filter]. now rewrite IH.
Qed.

Lemma pushNew_app values a b :
  pushNew values (a ++ b) = pushNew (pushNew values a) b.
Proof. unfold pushNew. apply fold_left_app. Qed.

(** The two loops gather the branch values in branch order and keep the
    first occurrence of each. *)
Lemma gatherM_dedupe f variants : forall values,
  gatherM f values variants
  = bind (mapM f variants) (fun lists => Some (pushNew values (concat lists))).
Proof.
  induction variants as [|item rest IH]; intros values; [reflexivity|].
  cbn [gatherM mapM]. destruct (f item) as [itemValues|]; [|reflexivity].
  cbn [bind]. rewrite IH. destruct (mapM f rest) as [lists|]; [|reflexivity].
  cbn [bind concat]. now rewrite pushNew_app.
Qed.

Lemma dedupe_In values v : In v (dedupe values) <-> In v values.
Proof.
  induction values as [|w rest IH]; [reflexivity|].
  cbn [dedupe In]. rewrite filter_In, IH. split.
  - intros [H|[H _]]; auto.
  - intros [H|H]; [now left|].
    destruct (sameValue w v) eqn:E.
    + left. now apply sameValue_eq.
    + right. split; [assumption|reflexivity].
Qed.

Lemma dedupe_NoDup values : NoDup (dedupe values).
Proof.
  induction values as [|w rest IH]; [constructor|].
  cbn [dedupe]. constructor.
  - rewrite filter_In. intros [_ H].
    rewrite (proj2 (sameValue_eq w w) eq_refl) in H. discriminate.
  - now apply NoDup_filter.
Qed.

Lemma dedupe_id values : NoDup values -> dedupe values = values.
Proof.
  induction values as [|w rest IH]; intros H; [reflexivity|].
  inversion H as [|? ? Hw Hr]; subst.
  cbn [dedupe]. rewrite (IH Hr). f_equal.
  apply forallb_filter_id. apply forallb_forall. intros x Hx.
  destruct (sameValue w x) eqn:E; [|reflexivity].
  apply sameValue_eq in E. subst. contradiction.
Qed.

(** C8, as the code orders it.  An absent node has no values; a
    reference is resolved first; then a node of type ["array"] with
    [items] yields the values of its items, before its own [enum] is
    looked at; then the node's own [enum]; then the branches of the
    first of [anyOf], [oneOf], [allOf] that is present, gathered in
    branch order and de-duplicated keeping first occurrences; else the
    empty list. *)
Theorem getEnumValues_priority (fuel : nat) (doc : OpenApiDocument) :
  getEnumValues (S fuel) doc None = Some []
  /\ forall s : Schema,
     (Js.truthy (s_ref s) = true ->
        getEnumValues (S fuel) doc (Some s)
        = getEnumValues fuel doc (resolveRef doc (Some s)))
     /\ (Js.truthy (s_ref s) = false -> arrayWithItems s = true ->
           getEnumValues (S fuel) doc (Some s)
           = getEnumValues fuel doc (s_items s))
     /\ (forall values,
           Js.truthy (s_ref s) = false -> arrayWithItems s = false ->
           s_enum s = Some values ->
           getEnumValues (S fuel) doc (Some s) = Some values)
     /\ (forall variants,
           Js.truthy (s_ref s) = false -> arrayWithItems s = false ->
           s_enum s = None -> variants3 s = Some variants ->
           getEnumValues (S fuel) doc (Some s)
           = bind (mapM (fun item => getEnumValues fuel doc (Some item)) variants)
               (fun lists => Some (dedupe (concat lists))))
     /\ (Js.truthy (s_ref s) = false -> arrayWithItems s = false ->
         s_enum s = None -> variants3 s = None ->
         getEnumValues (S fuel) doc (Some s) = Some []).
Proof.
  split; [reflexivity|]. intros s. unfold arrayWithItems.
  cbn [getEnumValues]. repeat split.
  - intros ->. reflexivity.
  - intros -> ->. reflexivity.
  - intros values -> -> ->. reflexivity.
  - intros variants -> -> -> ->. rewrite gatherM_dedupe.
    destruct (mapM _ variants) as [lists|]; [|reflexivity].
    cbn [bind]. now rewrite pushNew_nil.
  - intros -> -> -> ->. reflexivity.
Qed.

End EnumFacts.

(** * Structural comparison *)

Section EqbFacts.
Import SchemaLib.







Lemma option_eqb_eq {A : Type} (eqb : A -> A -> bool) (a b : option A) :
  (forall x y, a = Some x -> eqb x y = true -> x = y) ->
  option_eqb eqb a b = true -> a = b.
Proof.
  intros H E. destruct a as [x|], b as [y|]; try discriminate; [|reflexivity].
  f_equal. now apply H.
Qed.

Lemma list_eqb_eq {A : Type} (eqb : A -> A -> bool) (a : list A) :
  (forall x y, In x a -> eqb x y = true -> x = y) ->
  forall b, list_eqb eqb a b = true -> a = b.
Proof.
  induction a as [|x r IH]; intros H [|y m] E; try discriminate; [reflexivity|].
  cbn [list_eqb] in E. apply andb_prop in E as [E1 E2].
  f_equal; [apply H; [now left|assumption]|].
  apply IH; [|assumption]. intros u v Hu. apply H. now right.
Qed.

Lemma branches_eqb_eq (l : list Schema) :
  (forall x y, In x l -> schema_eqb x y = true -> x = y) ->
  forall m,
    (fix all (l m : list Schema) {struct l} : bool :=
       match l, m with
       | [], [] => true
       | x :: l', y :: m' => schema_eqb x y && all l' m'
       | _, _ => false
       end) l m = true -> l = m.
Proof.
  induction l as [|x r IH]; intros H [|y m] E; try discriminate; [reflexivity|].
  apply andb_prop in E as [E1 E2].
  f_equal; [apply H; [now left|assumption]|].
  apply IH; [|assumption]. intros u v Hu. apply H. now right.
Qed.

Lemma props_eqb_eq (l : list (string * Schema)) :
  (forall k x y, In (k, x) l -> schema_eqb x y = true -> x = y) ->
  forall m,
    (fix props (l m : list (string * Schema)) {struct l} : bool :=
       match l, m with
       | [], [] => true
       | (k, x) :: l', (k', y) :: m' =>
           String.eqb k k' && schema_eqb x y && props l' m'
       | _, _ => false
       end) l m = true -> l = m.
Proof.
  induction l as [|[k x] r IH]; intros H [|[k' y] m] E; try discriminate;
    [reflexivity|].
  apply andb_prop in E as [E E3]. apply andb_prop in E as [E1 E2].
  apply String.eqb_eq in E1. subst k'.
  rewrite (H k x y (or_introl eq_refl) E2).
  f_equal. apply IH; [|assumption]. intros k' u v Hu. apply (H k'). now right.
Qed.

(** Two nodes that compare equal are the same node, field by field. *)
Lemma schema_eqb_eq : forall a b, schema_eqb a b = true -> a = b.
Proof.
  apply (schema_size_ind (fun a => forall b, schema_eqb a b = true -> a = b)).
  intros a IH b E.
  pose proof (fun k c props E H => IH c (size_property a props k c E H)) as Hp.
  pose proof (fun c E => IH c (size_items a c E)) as Hi.
  pose proof (fun l c E H => IH c (size_oneOf a l c E H)) as Ho.
  pose proof (fun l c E H => IH c (size_anyOf a l c E H)) as Ha.
  pose proof (fun l c E H => IH c (size_allOf a l c E H)) as Hl.
  assert (Hx : forall c, s_additionalProperties a = Some (inr c) ->
                         forall d, schema_eqb c d = true -> c = d).
  { intros c Ec. apply IH. destruct a; cbn in Ec; subst.
    cbn [size s_additionalProperties]. lia. }
  clear IH.
  destruct a as [ref desc ty en props req items addl oneOf anyOf allOf inl ut ed].
  destruct b as [ref' desc' ty' en' props' req' items' addl' oneOf' anyOf'
                   allOf' inl' ut' ed'].
  cbn [s_properties s_items s_oneOf s_anyOf s_allOf s_additionalProperties] in *.
  cbn [schema_eqb s_ref s_description s_type s_enum s_properties s_required
       s_items s_additionalProperties s_oneOf s_anyOf s_allOf x_inlineable
       x_unionTitle x_enumDescriptions] in E.
  repeat match type of E with
         | (_ && _) = true => let E' := fresh "F" in apply andb_prop in E as [E E']
         end.
  assert (Estr : forall x y : string, (x =? y)%string = true -> x = y)
    by (intros x y; apply String.eqb_eq).
  apply (option_eqb_eq _ _ _ (fun x y _ => Estr x y)) in E.
  apply (option_eqb_eq _ _ _ (fun x y _ => Estr x y)) in F11.
  apply (option_eqb_eq _ _ _ (fun x y _ => Estr x y)) in F10.
  apply (option_eqb_eq _ _ _
           (fun x y _ => list_eqb_eq sameValue x
                           (fun u v _ Huv => proj1 (sameValue_eq u v) Huv) y))
    in F9.
  assert (Eprops : props = props').
  { destruct props as [l|], props' as [m|]; try discriminate; [|reflexivity].
    f_equal. apply (props_eqb_eq l); [|exact F8].
    intros k x y H. exact (Hp k x l eq_refl H y). }
  apply (option_eqb_eq _ _ _
           (fun x y _ => list_eqb_eq String.eqb x (fun u v _ => Estr u v) y))
    in F7.
  assert (Eitems : items = items').
  { destruct items as [c|], items' as [d|]; try discriminate; [|reflexivity].
    f_equal. now apply Hi. }
  assert (Eaddl : addl = addl').
  { destruct addl as [[x|c]|], addl' as [[y|d]|]; try discriminate;
      [| |reflexivity].
    - apply Bool.eqb_prop in F5. now subst.
    - do 2 f_equal. now apply Hx. }
  assert (Eone : oneOf = oneOf').
  { destruct oneOf as [l|], oneOf' as [m|]; try discriminate; [|reflexivity].
    f_equal. apply (branches_eqb_eq l); [|exact F4].
    intros x y H. exact (Ho l x eq_refl H y). }
  assert (Eany : anyOf = anyOf').
  { destruct anyOf as [l|], anyOf' as [m|]; try discriminate; [|reflexivity].
    f_equal. apply (branches_eqb_eq l); [|exact F3].
    intros x y H. exact (Ha l x eq_refl H y). }
  assert (Eall : allOf = allOf').
  { destruct allOf as [l|], allOf' as [m|]; try discriminate; [|reflexivity].
    f_equal. apply (branches_eqb_eq l); [|exact F2].
    intros x y H. exact (Hl l x eq_refl H y). }
  apply (option_eqb_eq _ _ _ (fun x y _ => Bool.eqb_prop x y)) in F1.
  apply (option_eqb_eq _ _ _ (fun x y _ => Estr x y)) in F0.
  apply (option_eqb_eq _ _ _
           (fun x y _ =>
              list_eqb_eq pair_eqb x
                (fun u v _ Huv =>
                   match andb_prop _ _ Huv with
                   | conj H1 H2 =>
                       match u, v return fst u = fst v -> snd u = snd v -> u = v with
                       | (a1, a2), (b1, b2) =>
                           fun G1 G2 => f_equal2 pair G1 G2
                       end (Estr _ _ H1) (Estr _ _ H2)
                   end) y))
    in F.
  congruence.
Qed.


End EqbFacts.

(** * Nullable unions *)

Section NullableFacts.
Import SchemaLib.

(** C7, as the code has it.  For a schema [T] whose type is not
    ["null"], the union [anyOf [T, null]] has the type label of [T];
    for every [T] it has the properties of [T], and its enum values are
    those of [T] with repeated values removed, hence those of [T] when
    [T] lists no value twice.  The union costs one more call. *)
Theorem nullable_union_unwraps (fuel : nat) (doc : OpenApiDocument)
  (T : Schema) :
  (isNullType T = false ->
     getTypeLabel doc (Some (anyOfSchema [T; nullSchema]))
     = getTypeLabel doc (Some T))
  /\ getEnumValues (S fuel) doc (Some (anyOfSchema [T; nullSchema]))
     = bind (getEnumValues fuel doc (Some T))
         (fun values => Some (dedupe values))
  /\ (forall values,
        getEnumValues fuel doc (Some T) = Some values -> NoDup values ->
        getEnumValues (S fuel) doc (Some (anyOfSchema [T; nullSchema]))
        = Some values)
  /\ getSchemaProperties (S fuel) doc (Some (anyOfSchema [T; nullSchema]))
     = getSchemaProperties fuel doc (Some T).
Proof.
  assert (E : getEnumValues (S fuel) doc (Some (anyOfSchema [T; nullSchema]))
              = bind (getEnumValues fuel doc (Some T))
                  (fun values => Some (dedupe values))).
  { cbn [getEnumValues anyOfSchema s_ref s_type s_items s_enum variants3
         s_anyOf s_oneOf s_allOf Js.truthy Js.strIs Js.orElse andb gatherM].
    destruct fuel as [|fuel']; [reflexivity|].
    destruct (getEnumValues (S fuel') doc (Some T)) as [values|]; [|reflexivity].
    cbn. now rewrite pushNew_nil. }
  split; [|split; [exact E|split]].
  - intros HT. cbn [getTypeLabel]. rewrite getTypeLabelNode_unfold.
    cbn. rewrite HT. cbn.
    apply orString_id, getTypeLabelNode_nonEmpty.
  - intros values Hv Hnd. rewrite E, Hv. cbn [bind].
    now rewrite dedupe_id.
  - cbn [getSchemaProperties anyOfSchema s_ref s_type s_items s_properties
         s_anyOf s_oneOf s_allOf Js.truthy Js.strIs andb firstM].
    destruct fuel as [|fuel']; [reflexivity|].
    destruct (getSchemaProperties (S fuel') doc (Some T)) as [[props|]|];
      reflexivity.
Qed.

End NullableFacts.

(** * Reference resolution *)

Section RefFacts.
Import SchemaLib.

(** [(a + "/" + b).split("/")] is [a.split("/")] followed by
    [b.split("/")]. *)
Lemma split_slash a b :
  Js.split (a ++ String Js.slash b) = Js.split a ++ Js.split b.
Proof.
  induction a as [|c r IH]; [reflexivity|].
  cbn [append Js.split]. rewrite IH.
  destruct (Ascii.eqb c Js.slash); [reflexivity|].
  destruct (split_cons r) as [h [t ->]]. reflexivity.
Qed.

Lemma pop_last {A : Type} (l : list A) (x : A) : Js.pop (l ++ [x]) = Some x.
Proof. unfold Js.pop. now rewrite rev_app_distr. Qed.

(** The last segment of [prefix/name] is [name], whatever the prefix. *)
Lemma pop_split_name prefix name :
  Resolve.noSlash name = true ->
  Js.pop (Js.split (prefix ++ String Js.slash name)) = Some name.
Proof.
  intros H. rewrite split_slash, (split_noSlash name H). apply pop_last.
Qed.

(** C6, as the code has it.  The resolver of [resolve.ts] yields
    nothing for a [$ref] that does not start with [#/].  The classifier
    does not look at the start of the [$ref]: it looks the last
    slash-separated segment up among the named schemas, so a reference
    [name] or [prefix/name] resolves to the schema called [name],
    whatever the prefix. *)
Theorem resolveRef_local_only
  (value : Type) (isNull : value -> bool)
  (get : value -> string -> option value) (jdoc : option value)
  (doc : OpenApiDocument) :
  (forall ref, Js.startsWith "#/" ref = false ->
     Resolve.resolveRef value isNull get jdoc ref = None)
  /\ (forall prefix name def,
        Resolve.noSlash name = true -> Js.nonEmpty name = true ->
        namedSchema doc name = Some def ->
        resolveRef doc (Some (refTo name)) = Some def
        /\ resolveRef doc (Some (refTo (prefix ++ String Js.slash name)))
           = Some def).
Proof.
  split.
  - intros ref H. unfold Resolve.resolveRef. now rewrite H.
  - intros prefix name def Hs Hn Hdef.
    assert (R : forall ref, Js.pop (Js.split ref) = Some name ->
                            Js.nonEmpty ref = true ->
                            resolveRef doc (Some (refTo ref)) = Some def).
    { intros ref Hp Hr. unfold resolveRef, getSchemaFromRef.
      cbn [refTo s_ref]. rewrite Hr, Hp, Hn. cbn [negb]. now rewrite Hdef. }
    split; apply R.
    + rewrite (split_noSlash name Hs). reflexivity.
    + exact Hn.
    + now apply pop_split_name.
    + destruct prefix; reflexivity.
Qed.

End RefFacts.

(** * The reference collector *)

Section CollectorFacts.
Import SchemaLib Reference Collector.

(** ** Maps *)

Lemma str_eqb_eq a b : Js.str_eqb a b = true <-> a = b.
Proof. apply String.eqb_eq. Qed.

Lemma has_In {V : Type} (m : list (string * V)) k :
  Js.has m k = true <-> In k (keys m).
Proof.
  unfold Js.has, keys. rewrite existsb_exists, in_map_iff. split.
  - intros [e [Hin He]]. apply str_eqb_eq in He. now exists e.
  - intros [e [He Hin]]. exists e. split; [assumption|]. now apply str_eqb_eq.
Qed.

Lemma keys_set_new {V : Type} (m : list (string * V)) k v :
  Js.has m k = false -> keys (Js.set m k v) = keys m ++ [k].
Proof.
  induction m as [|[k' v'] r IH]; intros H; [reflexivity|].
  cbn [Js.has existsb fst] in H. apply orb_false_iff in H as [Hk Hr].
  cbn [Js.set]. rewrite Hk. cbn [keys map fst app]. f_equal.
  now apply IH.
Qed.

Lemma has_set_new {V : Type} (m : list (string * V)) k v k' :
  Js.has m k = false ->
  Js.has (Js.set m k v) k' = Js.has m k' || Js.str_eqb k k'.
Proof.
  intros H. unfold Js.has at 1.
  assert (E : forall l : list (string * V),
             existsb (fun e => Js.str_eqb (fst e) k') l
             = existsb (fun n => Js.str_eqb n k') (keys l)).
  { intros l. unfold keys. induction l as [|e l IHl]; [reflexivity|].
    cbn [map existsb]. now rewrite IHl. }
  rewrite E, keys_set_new by assumption.
  rewrite existsb_app. cbn [existsb]. rewrite orb_false_r.
  unfold Js.has. now rewrite E.
Qed.

Lemma NoDup_set_new {V : Type} (m : list (string * V)) k v :
  Js.has m k = false -> NoDup (keys m) -> NoDup (keys (Js.set m k v)).
Proof.
  intros H Hnd. rewrite keys_set_new by assumption.
  apply NoDup_app; [assumption|repeat constructor; intros []|].
  intros x Hx [<-|[]]. apply has_In in Hx. congruence.
Qed.

(** ** Loops *)

Lemma foldM_app {A S : Type} (f : S -> A -> option S) l1 l2 s :
  foldM f (l1 ++ l2) s = bind (foldM f l1 s) (foldM f l2).
Proof.
  revert s. induction l1 as [|x r IH]; intros s; [reflexivity|].
  cbn [app foldM]. destruct (f s x) as [s'|]; [apply IH|reflexivity].
Qed.

Lemma bind_ext {A B : Type} (m : option A) (k k' : A -> option B) :
  (forall a, k a = k' a) -> bind m k = bind m k'.
Proof. intros H. destruct m as [a|]; [apply H|reflexivity]. Qed.

(** A relation that every step keeps is kept by the loop. *)
Lemma foldM_invariant {A S : Type} (R : S -> S -> Prop)
  (f : S -> A -> option S) (l : list A) :
  (forall s, R s s) ->
  (forall a b c, R a b -> R b c -> R a c) ->
  (forall x s s', In x l -> f s x = Some s' -> R s s') ->
  forall s r, foldM f l s = Some r -> R s r.
Proof.
  intros Hrefl Htrans. induction l as [|x rest IH]; intros Hstep s r H.
  - injection H as <-. apply Hrefl.
  - cbn [foldM] in H. destruct (f s x) as [s'|] eqn:E; [|discriminate].
    cbn [bind] in H. apply Htrans with s'.
    + apply (Hstep x); [now left|assumption].
    + apply IH; [|assumption]. intros y a b Hy. apply Hstep. now right.
Qed.

(** The state before and after the step of a given element. *)
Lemma foldM_at {A S : Type} (R : S -> S -> Prop)
  (f : S -> A -> option S) (l : list A) :
  (forall s, R s s) ->
  (forall a b c, R a b -> R b c -> R a c) ->
  (forall x s s', In x l -> f s x = Some s' -> R s s') ->
  forall x s r, In x l -> foldM f l s = Some r ->
  exists a a', R s a /\ f a x = Some a' /\ R a' r.
Proof.
  intros Hrefl Htrans. induction l as [|y rest IH]; intros Hstep x s r Hin H.
  - contradiction.
  - cbn [foldM] in H. destruct (f s y) as [s'|] eqn:E; [|discriminate].
    cbn [bind] in H. destruct Hin as [->|Hin].
    + exists s, s'. repeat split; [apply Hrefl|assumption|].
      apply (foldM_invariant R f rest); auto.
      intros z a b Hz. apply Hstep. now right.
    + destruct (IH (fun z a b Hz => Hstep z a b (or_intror Hz)) x s' r Hin H)
        as (a & a' & Ha & Hf & Hr).
      exists a, a'. repeat split; [|assumption|assumption].
      apply Htrans with s'; [|assumption].
      apply (Hstep y); [now left|assumption].
Qed.

End CollectorFacts.

Section CollectorInvariants.
Import SchemaLib Reference Collector.
Variable doc : OpenApiDocument.

(** ** The equations of [collectRefSchemas] *)

Lemma collect_ref fuel s acc :
  Js.truthy (s_ref s) = true ->
  collectRefSchemas (S fuel) doc (Some s) acc
  = if Js.truthy (getRefName (Some s))
       && negb (Js.has acc (orEmpty (getRefName (Some s))))
    then collectRefSchemas fuel doc (Some (resolvedOr doc s))
           (Js.set acc (orEmpty (getRefName (Some s))) (resolvedOr doc s))
    else Some acc.
Proof. intros H. cbn [collectRefSchemas]. now rewrite H. Qed.

Lemma collect_node fuel s acc :
  Js.truthy (s_ref s) = false ->
  collectRefSchemas (S fuel) doc (Some s) acc
  = foldM (fun a child => collectRefSchemas fuel doc (Some child) a)
      (children s) acc.
Proof.
  intros H. cbn [collectRefSchemas]. rewrite H. unfold children.
  rewrite foldM_app.
  replace (match s_properties s with
           | Some props =>
               foldM (fun a child => collectRefSchemas fuel doc (Some child) a)
                 (map snd props) acc
           | None => Some acc
           end)
    with (foldM (fun a child => collectRefSchemas fuel doc (Some child) a)
            (map snd (optList (s_properties s))) acc)
    by (destruct (s_properties s); reflexivity).
  apply bind_ext. intros a1. rewrite foldM_app.
  replace (match s_items s with
           | Some items => collectRefSchemas fuel doc (Some items) a1
           | None => Some a1
           end)
    with (foldM (fun a child => collectRefSchemas fuel doc (Some child) a)
            (match s_items s with Some items => [items] | None => [] end) a1).
  - apply bind_ext. intros a2. rewrite foldM_app.
    apply bind_ext. intros a3. rewrite foldM_app. reflexivity.
  - destruct (s_items s) as [items|]; [|reflexivity].
    cbn [foldM]. now destruct (collectRefSchemas fuel doc (Some items) a1).
Qed.

(** ** What every call keeps *)

Lemma Grows_refl acc : Grows acc acc.
Proof. intros k H. exact H. Qed.

Lemma Grows_trans a b c : Grows a b -> Grows b c -> Grows a c.
Proof. intros H1 H2 k H. apply H2, H1, H. Qed.

Lemma Grows_set acc k v : Js.has acc k = false -> Grows acc (Js.set acc k v).
Proof.
  intros H k' Hk'. rewrite has_set_new by assumption. now rewrite Hk'.
Qed.

Lemma Adds_refl acc : Adds acc acc.
Proof. split; [apply Grows_refl|auto]. Qed.

Lemma Adds_trans a b c : Adds a b -> Adds b c -> Adds a c.
Proof.
  intros [G1 N1] [G2 N2]. split; [now apply Grows_trans with b|auto].
Qed.

Lemma collect_adds : forall fuel schema acc r,
  collectRefSchemas fuel doc schema acc = Some r -> Adds acc r.
Proof.
  induction fuel as [|fuel IH]; intros schema acc r H; [discriminate|].
  destruct schema as [s|]; [|injection H as <-; apply Adds_refl].
  destruct (Js.truthy (s_ref s)) eqn:Href.
  - rewrite collect_ref in H by assumption.
    destruct (Js.truthy (getRefName (Some s))
              && negb (Js.has acc (orEmpty (getRefName (Some s))))) eqn:E.
    + apply andb_true_iff in E as [_ Hn]. apply negb_true_iff in Hn.
      apply Adds_trans with (Js.set acc (orEmpty (getRefName (Some s)))
                               (resolvedOr doc s)).
      * split; [now apply Grows_set|now apply NoDup_set_new].
      * now apply IH in H.
    + injection H as <-. apply Adds_refl.
  - rewrite collect_node in H by assumption.
    apply (foldM_invariant Adds _ _ Adds_refl Adds_trans) in H; [assumption|].
    intros child a a' _ Hc. now apply IH in Hc.
Qed.

Lemma collect_grows fuel schema acc r :
  collectRefSchemas fuel doc schema acc = Some r -> Grows acc r.
Proof. intros H. now apply collect_adds in H as [G _]. Qed.

(** After a call on a reference, its name is a key. *)
Lemma visit_ref fuel child name acc r :
  refersTo child name ->
  collectRefSchemas fuel doc (Some child) acc = Some r ->
  Js.has r name = true.
Proof.
  intros (Href & Hname & Hne) H.
  destruct fuel as [|fuel]; [discriminate|].
  rewrite collect_ref in H by assumption. rewrite Hname in H.
  cbn [Js.truthy orEmpty] in H. rewrite Hne in H. cbn [andb] in H.
  destruct (Js.has acc name) eqn:Hhas; cbn [negb] in H.
  - now injection H as <-.
  - apply collect_grows in H. apply H.
    rewrite has_set_new by assumption.
    unfold Js.str_eqb. rewrite String.eqb_refl. apply orb_true_r.
Qed.

(** After a call on a node that is not a reference, the names its
    children refer to are keys. *)
Lemma visit_children fuel s child name acc r :
  Js.truthy (s_ref s) = false ->
  In child (children s) -> refersTo child name ->
  collectRefSchemas fuel doc (Some s) acc = Some r ->
  Js.has r name = true.
Proof.
  intros Href Hin Hto H.
  destruct fuel as [|fuel]; [discriminate|].
  rewrite collect_node in H by assumption.
  destruct (foldM_at Grows _ (children s) Grows_refl Grows_trans
              (fun x a a' _ Hx => collect_grows fuel (Some x) a a' Hx)
              child acc r Hin H) as (a & a' & _ & Hc & Hr).
  apply Hr. exact (visit_ref fuel child name a a' Hto Hc).
Qed.

Lemma Closed_refl acc : Closed doc acc acc.
Proof. intros n d H1 H2. congruence. Qed.

Lemma Closed_trans a b c :
  Grows b c -> Closed doc a b -> Closed doc b c -> Closed doc a c.
Proof.
  intros G Hab Hbc n d Hc Ha Hd Hr child target Hin Hto.
  destruct (Js.has b n) eqn:Hb.
  - apply G. exact (Hab n d Hb Ha Hd Hr child target Hin Hto).
  - exact (Hbc n d Hc Hb Hd Hr child target Hin Hto).
Qed.

Lemma Visits_refl acc : Visits doc acc acc.
Proof. split; [apply Grows_refl|apply Closed_refl]. Qed.

Lemma Visits_trans a b c : Visits doc a b -> Visits doc b c -> Visits doc a c.
Proof.
  intros [G1 C1] [G2 C2]. split; [now apply Grows_trans with b|].
  now apply Closed_trans with b.
Qed.

Lemma getSchemaFromRef_named ref name :
  Js.pop (Js.split ref) = Some name -> Js.nonEmpty name = true ->
  getSchemaFromRef doc ref = namedSchema doc name.
Proof. intros Hp Hn. unfold getSchemaFromRef. now rewrite Hp, Hn. Qed.

Lemma collect_closed : forall fuel schema acc r,
  collectRefSchemas fuel doc schema acc = Some r -> Closed doc acc r.
Proof.
  induction fuel as [|fuel IH]; intros schema acc r H; [discriminate|].
  destruct schema as [s|]; [|injection H as <-; apply Closed_refl].
  destruct (Js.truthy (s_ref s)) eqn:Href.
  - rewrite collect_ref in H by assumption.
    destruct (getRefName (Some s)) as [k|] eqn:Hk;
      [|injection H as <-; apply Closed_refl].
    cbn [Js.truthy orEmpty] in H.
    destruct (Js.nonEmpty k) eqn:Hne;
      [|injection H as <-; apply Closed_refl].
    destruct (Js.has acc k) eqn:Hhas;
      [injection H as <-; apply Closed_refl|].
    cbn [andb negb] in H.
    intros n d Hr Ha Hd Hdref child target Hin Hto.
    destruct (Js.str_eqb k n) eqn:Ekn.
    + apply str_eqb_eq in Ekn. subst n.
      assert (Eres : resolvedOr doc s = d).
      { unfold resolvedOr, resolveRef. unfold getRefName in Hk.
        destruct (s_ref s) as [ref|]; [|discriminate].
        cbn [Js.truthy] in Href. rewrite Href. cbn [negb].
        now rewrite (getSchemaFromRef_named ref k Hk Hne), Hd. }
      rewrite Eres in H.
      exact (visit_children fuel d child target _ r Hdref Hin Hto H).
    + assert (Ha' : Js.has (Js.set acc k (resolvedOr doc s)) n = false).
      { rewrite has_set_new by assumption. now rewrite Ha, Ekn. }
      exact (IH _ _ _ H n d Hr Ha' Hd Hdref child target Hin Hto).
  - rewrite collect_node in H by assumption.
    apply (foldM_invariant (Visits doc) _ _ Visits_refl Visits_trans) in H;
      [apply H|].
    intros child a a' _ Hc. split; [now apply collect_grows in Hc|].
    now apply IH in Hc.
Qed.

Lemma collect_extends fuel schema acc r :
  collectRefSchemas fuel doc schema acc = Some r -> Extends doc acc r.
Proof.
  intros H. destruct (collect_adds _ _ _ _ H) as [G N].
  repeat split; [assumption|now apply collect_closed in H|assumption].
Qed.

End CollectorInvariants.

Section CollectorTermination.
Import SchemaLib Reference Collector.
Variable doc : OpenApiDocument.

Lemma filter_length_le {A : Type} (p q : A -> bool) (l : list A) :
  (forall x, p x = true -> q x = true) ->
  length (filter p l) <= length (filter q l).
Proof.
  intros H. induction l as [|x r IH]; [reflexivity|].
  cbn [filter]. destruct (p x) eqn:Hp.
  - rewrite (H x Hp). cbn [length]. lia.
  - destruct (q x); cbn [length]; lia.
Qed.

Lemma filter_length_lt {A : Type} (p q : A -> bool) (l : list A) k :
  (forall x, p x = true -> q x = true) ->
  In k l -> p k = false -> q k = true ->
  length (filter p l) < length (filter q l).
Proof.
  intros H Hin Hp Hq. induction l as [|x r IH]; [contradiction|].
  cbn [filter]. destruct Hin as [->|Hin].
  - rewrite Hp, Hq. cbn [length].
    pose proof (filter_length_le p q r H). lia.
  - specialize (IH Hin). destruct (p x) eqn:Hpx.
    + rewrite (H x Hpx). cbn [length]. lia.
    + destruct (q x); cbn [length]; lia.
Qed.

Lemma unseen_grows a b : Grows a b -> unseen doc b <= unseen doc a.
Proof.
  intros G. apply filter_length_le. intros k Hk.
  apply negb_true_iff in Hk. apply negb_true_iff.
  destruct (Js.has a k) eqn:Ha; [|reflexivity].
  apply G in Ha. congruence.
Qed.

Lemma unseen_set acc k v :
  In k (defNames doc) -> Js.has acc k = false ->
  unseen doc (Js.set acc k v) < unseen doc acc.
Proof.
  intros Hin Hk. apply filter_length_lt with k.
  - intros x Hx. apply negb_true_iff in Hx. apply negb_true_iff.
    rewrite has_set_new in Hx by assumption.
    now apply orb_false_iff in Hx as [Hx _].
  - assumption.
  - apply negb_false_iff. rewrite has_set_new by assumption.
    unfold Js.str_eqb. rewrite String.eqb_refl. apply orb_true_r.
  - now rewrite Hk.
Qed.

Lemma assoc_In {A : Type} k (l : list (string * A)) v :
  Js.assoc k l = Some v -> In k (keys l).
Proof.
  induction l as [|[k' v'] r IH]; [discriminate|].
  cbn [Js.assoc keys map fst In]. destruct (Js.str_eqb k' k) eqn:E.
  - intros _. left. now apply str_eqb_eq.
  - intros H. right. now apply IH.
Qed.

Lemma namedSchema_defined name def :
  namedSchema doc name = Some def -> In name (defNames doc).
Proof.
  unfold namedSchema, defNames, readSchema.
  destruct (components doc) as [c|]; [|discriminate].
  destruct (schemas c) as [defs|]; [|discriminate].
  intros H. apply in_or_app.
  destruct (Js.assoc name defs) as [d|] eqn:E; [left; now apply assoc_In in E|].
  right.
  destruct (existsb (Js.str_eqb name) objectPrototype) eqn:Ex; [|discriminate].
  apply existsb_exists in Ex as [x [Hin Hx]].
  unfold Js.str_eqb in Hx. apply String.eqb_eq in Hx. now subst x.
Qed.

Lemma size_children s child : In child (children s) -> size child < size s.
Proof.
  unfold children. rewrite !in_app_iff.
  intros [H|[H|[H|[H|H]]]].
  - destruct (s_properties s) as [props|] eqn:E; [|contradiction].
    cbn [optList] in H. apply in_map_iff in H as [[k c] [<- Hin]].
    exact (size_property s props k c E Hin).
  - destruct (s_items s) as [items|] eqn:E; [|contradiction].
    destruct H as [<-|[]]. now apply size_items.
  - destruct (s_anyOf s) as [l|] eqn:E; [|contradiction].
    exact (size_anyOf s l child E H).
  - destruct (s_oneOf s) as [l|] eqn:E; [|contradiction].
    exact (size_oneOf s l child E H).
  - destruct (s_allOf s) as [l|] eqn:E; [|contradiction].
    exact (size_allOf s l child E H).
Qed.

(** A loop over children that all converge converges. *)
Lemma foldM_converges n (l : list Schema) :
  (forall child, In child l -> forall acc, unseen doc acc <= n ->
     exists r, Converges doc (Some child) acc r) ->
  forall acc, unseen doc acc <= n ->
  exists enough r, forall fuel, enough <= fuel ->
    foldM (fun a child => collectRefSchemas fuel doc (Some child) a) l acc
    = Some r.
Proof.
  induction l as [|child rest IH]; intros Hall acc Hn.
  - exists 0, acc. reflexivity.
  - destruct (Hall child (or_introl eq_refl) acc Hn) as [r1 [F1 H1]].
    assert (Hn1 : unseen doc r1 <= n).
    { pose proof (collect_grows doc F1 (Some child) acc r1 (H1 F1 (le_n _))).
      pose proof (unseen_grows acc r1 H). lia. }
    destruct (IH (fun c Hc => Hall c (or_intror Hc)) r1 Hn1) as [F2 [r H2]].
    exists (Nat.max F1 F2), r. intros fuel Hf. cbn [foldM].
    rewrite H1 by lia. cbn [bind]. apply H2. lia.
Qed.

(** The collector ends on every node and every accumulator: a followed
    reference either adds a defined name, of which there are finitely
    many, or comes back to itself at once. *)
Lemma collect_converges : forall n s acc,
  unseen doc acc <= n -> exists r, Converges doc (Some s) acc r.
Proof.
  induction n as [n IHn] using lt_wf_ind.
  apply (schema_size_ind
           (fun s => forall acc, unseen doc acc <= n ->
                     exists r, Converges doc (Some s) acc r)).
  intros s IHs acc Hn.
  destruct (Js.truthy (s_ref s)) eqn:Href.
  - destruct (Js.truthy (getRefName (Some s))
              && negb (Js.has acc (orEmpty (getRefName (Some s))))) eqn:E.
    + pose proof E as E'. apply andb_true_iff in E' as [Hname Hhas].
      apply negb_true_iff in Hhas.
      destruct (s_ref s) as [ref|] eqn:Eref; [|discriminate].
      cbn [Js.truthy] in Href.
      destruct (getSchemaFromRef doc ref) as [target|] eqn:Etarget.
      * assert (Hres : resolvedOr doc s = target).
        { unfold resolvedOr, resolveRef. now rewrite Eref, Href, Etarget. }
        assert (Hdef : In (orEmpty (getRefName (Some s))) (defNames doc)).
        { unfold getRefName in *. rewrite Eref in *.
          unfold getSchemaFromRef in Etarget.
          destruct (Js.pop (Js.split ref)) as [k|]; [|discriminate].
          cbn [orEmpty]. destruct (Js.nonEmpty k); [|discriminate].
          now apply namedSchema_defined in Etarget. }
        pose proof (unseen_set acc _ target Hdef Hhas) as Hlt.
        destruct (IHn (unseen doc (Js.set acc (orEmpty (getRefName (Some s)))
                                     target))
                    ltac:(lia) target _ (le_n _)) as [r [F HF]].
        exists r, (S F). intros fuel Hf.
        destruct fuel as [|fuel]; [lia|].
        rewrite collect_ref by (now rewrite Eref). rewrite E, Hres.
        apply HF. lia.
      * assert (Hres : resolvedOr doc s = s).
        { unfold resolvedOr, resolveRef. now rewrite Eref, Href, Etarget. }
        exists (Js.set acc (orEmpty (getRefName (Some s))) s), 2.
        intros fuel Hf. destruct fuel as [|[|fuel]]; [lia|lia|].
        rewrite collect_ref by (now rewrite Eref). rewrite E, Hres.
        rewrite collect_ref by (now rewrite Eref).
        rewrite has_set_new by assumption.
        unfold Js.str_eqb. rewrite String.eqb_refl, orb_true_r.
        cbn [negb]. now rewrite andb_false_r.
    + exists acc, 1. intros fuel Hf. destruct fuel as [|fuel]; [lia|].
      rewrite collect_ref by assumption. now rewrite E.
  - destruct (foldM_converges n (children s)
                (fun c Hc => IHs c (size_children s c Hc)) acc Hn)
      as [F [r HF]].
    exists r, (S F). intros fuel Hf. destruct fuel as [|fuel]; [lia|].
    rewrite collect_node by assumption. apply HF. lia.
Qed.

(** The collector is total: it ends from every schema and every
    accumulator, on one result. *)
Lemma collect_total schema acc : exists r, Converges doc schema acc r.
Proof.
  destruct schema as [s|].
  - exact (collect_converges (unseen doc acc) s acc (le_n _)).
  - exists acc, 1. intros fuel Hf. destruct fuel; [lia|reflexivity].
Qed.

Lemma has_count (m : RefMap) name :
  NoDup (keys m) -> Js.has m name = true ->
  count_occ string_dec (keys m) name = 1.
Proof.
  intros Hnd Hin. apply has_In in Hin.
  now apply NoDup_count_occ'.
Qed.

(** C4.  Let [A] and [B] be named schemas of the document, neither of
    them a reference node, with a property of [A] that refers to [B] and
    a property of [B] that refers to [A].  Collecting from the
    definition of [A], or from a reference to [A], into the empty
    accumulator ends (every large enough fuel gives the same map), and
    [A] and [B] are each a key of the result exactly once. *)
Theorem collectRefSchemas_cycle
  (A B : string) (defA defB : Schema)
  (propsA propsB : list (string * Schema))
  (pa pb : string) (toA toB : Schema) (start : Schema) :
  namedSchema doc A = Some defA ->
  namedSchema doc B = Some defB ->
  Js.truthy (s_ref defA) = false ->
  Js.truthy (s_ref defB) = false ->
  s_properties defA = Some propsA -> In (pa, toB) propsA -> refersTo toB B ->
  s_properties defB = Some propsB -> In (pb, toA) propsB -> refersTo toA A ->
  start = defA \/ refersTo start A ->
  exists enough result,
    (forall fuel, enough <= fuel ->
       collectRefSchemas fuel doc (Some start) [] = Some result)
    /\ count_occ string_dec (keys result) A = 1
    /\ count_occ string_dec (keys result) B = 1.
Proof.
  intros HA HB HrA HrB HpA HinA HtoB HpB HinB HtoA Hstart.
  destruct (collect_total (Some start) []) as [result [enough Hconv]].
  exists enough, result. split; [exact Hconv|].
  pose proof (Hconv enough (le_n _)) as Hrun.
  destruct (collect_extends doc _ _ _ _ Hrun) as (_ & Hclosed & Hnodup).
  specialize (Hnodup (NoDup_nil _)).
  assert (HcA : In toB (children defA)).
  { unfold children. rewrite HpA. apply in_or_app. left.
    apply in_map_iff. now exists (pa, toB). }
  assert (HcB : In toA (children defB)).
  { unfold children. rewrite HpB. apply in_or_app. left.
    apply in_map_iff. now exists (pb, toA). }
  assert (Hboth : Js.has result A = true /\ Js.has result B = true).
  { destruct Hstart as [->|Hstart].
    - assert (Hb : Js.has result B = true)
        by exact (visit_children doc enough defA toB B [] result
                    HrA HcA HtoB Hrun).
      split; [|exact Hb].
      exact (Hclosed B defB Hb eq_refl HB HrB toA A HcB HtoA).
    - assert (Ha : Js.has result A = true)
        by exact (visit_ref doc enough start A [] result Hstart Hrun).
      split; [exact Ha|].
      exact (Hclosed A defA Ha eq_refl HA HrA toB B HcA HtoB). }
  destruct Hboth as [Ha Hb]. split; now apply has_count.
Qed.

End CollectorTermination.

(** * The section builder *)

Section ClassifierFuel.
Import SchemaLib.
Variable doc : OpenApiDocument.

Lemma someM_mono {A : Type} (f g : A -> option bool) (l : list A) :
  (forall x b, In x l -> f x = Some b -> g x = Some b) ->
  forall b, someM f l = Some b -> someM g l = Some b.
Proof.
  induction l as [|x r IH]; intros H b Hb; [exact Hb|].
  cbn [someM] in *. destruct (f x) as [bx|] eqn:E; [|discriminate].
  rewrite (H x bx (or_introl eq_refl) E). cbn [bind] in *.
  destruct bx; [exact Hb|].
  apply IH; [|exact Hb]. intros y c Hy. apply H. now right.
Qed.

(** More fuel does not change an answer of [getInlineable]. *)
Lemma getInlineable_mono : forall fuel schema b,
  getInlineable fuel doc schema = Some b ->
  forall fuel', fuel <= fuel' -> getInlineable fuel' doc schema = Some b.
Proof.
  induction fuel as [|fuel IH]; intros schema b H fuel' Hle; [discriminate|].
  destruct fuel' as [|fuel']; [lia|]. apply le_S_n in Hle.
  cbn [getInlineable] in *.
  destruct schema as [s|]; [|exact H].
  destruct (x_inlineable s) as [[|]|].
  - exact H.
  - destruct (Js.truthy (s_ref s)); [now apply IH with (fuel' := fuel') in H|].
    destruct (variants3 s) as [variants|]; [|exact H].
    apply someM_mono with (g := fun item => getInlineable fuel' doc (Some item))
      in H; [exact H|].
    intros x c _ Hx. now apply IH with (fuel' := fuel') in Hx.
  - destruct (Js.truthy (s_ref s)); [now apply IH with (fuel' := fuel') in H|].
    destruct (variants3 s) as [variants|]; [|exact H].
    apply someM_mono with (g := fun item => getInlineable fuel' doc (Some item))
      in H; [exact H|].
    intros x c _ Hx. now apply IH with (fuel' := fuel') in Hx.
Qed.

(** [getInlineable] has one answer, whatever the fuel that gives it. *)
Lemma getInlineable_det fuel fuel' schema b b' :
  getInlineable fuel doc schema = Some b ->
  getInlineable fuel' doc schema = Some b' -> b = b'.
Proof.
  intros H H'.
  apply getInlineable_mono with (fuel' := Nat.max fuel fuel') in H; [|lia].
  apply getInlineable_mono with (fuel' := Nat.max fuel fuel') in H'; [|lia].
  congruence.
Qed.

End ClassifierFuel.

Section SectionFacts.
Import SchemaLib Reference Collector Index.
Variable localeCompare : string -> string -> comparison.

Lemma insert_perm {A : Type} (cmp : A -> A -> comparison) x l :
  Permutation (Js.insert cmp x l) (x :: l).
Proof.
  induction l as [|y r IH]; [apply Permutation_refl|].
  cbn [Js.insert]. destruct (cmp x y); try apply Permutation_refl.
  apply Permutation_trans with (y :: x :: r).
  - now apply perm_skip.
  - apply perm_swap.
Qed.

(** Sorting only reorders. *)
Lemma sort_perm {A : Type} (cmp : A -> A -> comparison) l :
  Permutation (Js.sort cmp l) l.
Proof.
  induction l as [|x r IH]; [apply Permutation_refl|].
  unfold Js.sort in *. cbn [fold_right].
  apply Permutation_trans with (x :: fold_right (Js.insert cmp) [] r).
  - apply insert_perm.
  - now apply perm_skip.
Qed.

(** A property of the state that every step keeps holds at the end. *)
Lemma foldM_preserves {A S : Type} (P : S -> Prop)
  (f : S -> A -> option S) (l : list A) :
  (forall x s s', In x l -> P s -> f s x = Some s' -> P s') ->
  forall s r, P s -> foldM f l s = Some r -> P r.
Proof.
  induction l as [|x rest IH]; intros Hstep s r Hs H.
  - now injection H as <-.
  - cbn [foldM] in H. destruct (f s x) as [s'|] eqn:E; [|discriminate].
    cbn [bind] in H. apply (IH (fun y a b Hy => Hstep y a b (or_intror Hy)) s' r);
      [|assumption].
    apply (Hstep x s s'); [now left|assumption|assumption].
Qed.

(** An id tells the kind and the name. *)
Lemma sectionId_inj k1 n1 k2 n2 :
  sectionId k1 n1 = sectionId k2 n2 -> k1 = k2 /\ n1 = n2.
Proof.
  unfold sectionId. destruct k1, k2; cbn; intros H;
    try discriminate; injection H as ->; split; reflexivity.
Qed.

(** ** The first loop *)

Lemma classify_keeps fuel doc refs state entry state' :
  In entry refs ->
  Classified fuel doc refs state ->
  classifyRef fuel doc state entry = Some state' ->
  Classified fuel doc refs state'.
Proof.
  intros Hin Hst H. destruct state as [names entries], entry as [name schema].
  cbn [classifyRef] in H.
  destruct (getInlineable fuel doc (Some schema)) as [[|]|] eqn:Einl;
    cbn [bind] in H; [now injection H as <-| |discriminate].
  destruct (getSchemaKind fuel doc (Some schema)) as [[kind|]|];
    cbn [bind] in H; [|now injection H as <-|discriminate].
  destruct (Js.has names name) eqn:Ehas; [now injection H as <-|].
  injection H as <-. destruct Hst as (Hkeys & Hnd & Hall).
  cbn [fst snd] in *.
  pose proof (keys_set_new names name
                {| sr_id := sectionId kind name; sr_kind := kind |} Ehas) as Hk.
  pose proof (NoDup_set_new names name
                {| sr_id := sectionId kind name; sr_kind := kind |} Ehas Hnd)
    as Hnd'.
  unfold keys in Hk, Hnd'.
  unfold Classified. cbn [fst snd]. repeat split.
  - now rewrite Hk, map_app, Hkeys.
  - exact Hnd'.
  - apply Forall_app. split; [assumption|].
    constructor; [|constructor]. cbn. repeat split; assumption.
Qed.

Lemma classify_all fuel doc refs state :
  foldM (classifyRef fuel doc) refs ([], []) = Some state ->
  Classified fuel doc refs state.
Proof.
  apply (foldM_preserves (Classified fuel doc refs)).
  - intros entry s s' Hin. now apply classify_keeps.
  - repeat split; [constructor|constructor].
Qed.

(** ** The second loop *)

Lemma emit_step fuel doc secs entry secs' :
  emitSection localeCompare fuel doc secs entry = Some secs' ->
  byName secs' = byName secs
  /\ enumKeys secs' = enumKeys secs ++ ofKind KEnum [entry]
  /\ objectKeys secs' = objectKeys secs ++ ofKind KObject [entry]
  /\ unionKeys secs' = unionKeys secs ++ ofKind KUnion [entry].
Proof.
  unfold emitSection, enumKeys, objectKeys, unionKeys, ofKind, entryKey.
  intros H.
  assert (Done : forall built,
            Some built = Some secs' ->
            forall P : ReferenceSections -> Prop, P built -> P secs').
  { intros built [= <-] P HP. exact HP. }
  destruct (se_kind entry) eqn:Ek.
  - destruct (getDescription fuel doc _) as [d|]; [|discriminate].
    destruct (getEnumValues fuel doc _) as [v|]; [|discriminate].
    destruct (getEnumDescriptions fuel doc _) as [ds|]; [|discriminate].
    cbn [bind] in H. pattern secs'. apply (Done _ H).
    cbn [byName enums objects unions filter]. rewrite Ek.
    cbn [kind_eqb map]. rewrite map_app, !app_nil_r. cbn [map].
    now rewrite Ek.
  - destruct (getUnionTitle fuel doc _) as [t|]; [|discriminate].
    destruct (getUnionVariants fuel doc _) as [vs|]; [|discriminate].
    cbn [bind] in H.
    destruct (mapM _ vs) as [pieces|]; [|discriminate]. cbn [bind] in H.
    destruct (mapM _ (concat pieces)) as [variants|]; [|discriminate].
    cbn [bind] in H.
    destruct (getDescription fuel doc _) as [d|]; [|discriminate].
    cbn [bind] in H. pattern secs'. apply (Done _ H).
    cbn [byName enums objects unions filter]. rewrite Ek.
    cbn [kind_eqb map]. rewrite map_app, !app_nil_r. cbn [map].
    now rewrite Ek.
  - destruct (getDescription fuel doc _) as [d|]; [|discriminate].
    destruct (buildInlineRows fuel doc _ _) as [rows|]; [|discriminate].
    cbn [bind] in H. pattern secs'. apply (Done _ H).
    cbn [byName enums objects unions filter]. rewrite Ek.
    cbn [kind_eqb map]. rewrite map_app, !app_nil_r. cbn [map].
    now rewrite Ek.
Qed.

Lemma ofKind_cons k entry entries :
  ofKind k (entry :: entries) = ofKind k [entry] ++ ofKind k entries.
Proof.
  unfold ofKind. cbn [filter].
  destruct (kind_eqb (se_kind entry) k); reflexivity.
Qed.

Lemma emit_all fuel doc : forall entries secs built,
  foldM (emitSection localeCompare fuel doc) entries secs = Some built ->
  byName built = byName secs
  /\ enumKeys built = enumKeys secs ++ ofKind KEnum entries
  /\ objectKeys built = objectKeys secs ++ ofKind KObject entries
  /\ unionKeys built = unionKeys secs ++ ofKind KUnion entries.
Proof.
  induction entries as [|entry rest IH]; intros secs built H.
  - injection H as <-. unfold ofKind. cbn. now rewrite !app_nil_r.
  - cbn [foldM] in H.
    destruct (emitSection localeCompare fuel doc secs entry) as [secs'|] eqn:E;
      [|discriminate].
    cbn [bind] in H. apply emit_step in E as (Eb & Ee & Eo & Eu).
    apply IH in H as (Hb & He & Ho & Hu).
    rewrite Hb, He, Ho, Hu, Eb, Ee, Eo, Eu.
    rewrite !(ofKind_cons _ entry rest), <- !app_assoc. repeat split.
Qed.

(** The three kinds partition the entries. *)
Lemma ofKind_partition entries :
  Permutation
    (ofKind KEnum entries ++ ofKind KObject entries ++ ofKind KUnion entries)
    (map entryKey entries).
Proof.
  induction entries as [|entry rest IH]; [apply Permutation_refl|].
  rewrite !(ofKind_cons _ entry rest). cbn [map].
  unfold ofKind at 1 3 5. cbn [filter].
  destruct (se_kind entry); cbn [kind_eqb map app].
  - now apply perm_skip.
  - apply Permutation_sym.
    apply Permutation_trans
      with (entryKey entry
            :: ofKind KEnum rest ++ ofKind KObject rest ++ ofKind KUnion rest).
    + apply perm_skip. now apply Permutation_sym.
    + rewrite !app_assoc. apply Permutation_middle.
  - apply Permutation_sym.
    apply Permutation_trans
      with (entryKey entry
            :: ofKind KEnum rest ++ ofKind KObject rest ++ ofKind KUnion rest).
    + apply perm_skip. now apply Permutation_sym.
    + apply Permutation_middle.
Qed.

(** The sections that are built are, up to order, the entries that
    the first loop kept, and [byName] has their names. *)
Lemma build_keys fuel doc refs secs :
  buildSectionsFromRefs localeCompare fuel doc refs = Some secs ->
  exists entries,
    Classified fuel doc refs (byName secs, entries)
    /\ Permutation (sectionKeys secs) (map entryKey entries).
Proof.
  unfold buildSectionsFromRefs. intros H.
  destruct (foldM (classifyRef fuel doc) refs ([], [])) as [[names entries]|]
    eqn:E1; [|discriminate].
  cbn [bind] in H.
  destruct (foldM (emitSection localeCompare fuel doc) entries _) as [built|]
    eqn:E2; [|discriminate].
  cbn [bind] in H. injection H as <-.
  exists entries. split; [now apply classify_all in E1|].
  apply emit_all in E2 as (_ & He & Ho & Hu). cbn in He, Ho, Hu.
  unfold sectionKeys, enumKeys, objectKeys, unionKeys in *.
  cbn [enums objects unions].
  apply Permutation_trans
    with (ofKind KEnum entries ++ ofKind KObject entries
          ++ ofKind KUnion entries); [|apply ofKind_partition].
  rewrite <- He, <- Ho, <- Hu.
  repeat apply Permutation_app; apply Permutation_map; apply sort_perm.
Qed.

End SectionFacts.

Section SectionTheorems.
Import SchemaLib Reference Collector Index.
Variable localeCompare : string -> string -> comparison.

Lemma entry_ids_distinct (entries : list SectionEntry) :
  Forall (fun e => se_id e = sectionId (se_kind e) (se_name e)) entries ->
  NoDup (map se_name entries) -> NoDup (map se_id entries).
Proof.
  induction entries as [|e rest IH]; intros Hid Hnd; [constructor|].
  inversion Hid as [|? ? He Hrest]; subst.
  cbn [map] in *. inversion Hnd as [|? ? Hnotin Hnd']; subst.
  constructor; [|now apply IH].
  intros Hin. apply in_map_iff in Hin as [e' [Heq Hin']].
  rewrite Forall_forall in Hrest. rewrite He, (Hrest e' Hin') in Heq.
  apply sectionId_inj in Heq as [_ Hname].
  apply Hnotin. rewrite <- Hname. now apply in_map.
Qed.

Lemma Classified_ids fuel doc refs state :
  Classified fuel doc refs state ->
  Forall (fun e => se_id e = sectionId (se_kind e) (se_name e)) (snd state).
Proof.
  intros (_ & _ & Hall). eapply Forall_impl; [|exact Hall].
  now intros e [H _].
Qed.

(** C9.  In the section set of one call, the ids of the enum, object
    and union sections are pairwise distinct, and so are their names (no
    name has two sections, of one kind or of two); every id is
    [<kind>-<name>]. *)
Theorem section_ids_distinct fuel doc refs secs :
  buildSectionsFromRefs localeCompare fuel doc refs = Some secs ->
  NoDup (map keyId (sectionKeys secs))
  /\ NoDup (map keyName (sectionKeys secs))
  /\ Forall (fun k => keyId k = sectionId (keyKind k) (keyName k))
       (sectionKeys secs).
Proof.
  intros H. apply build_keys in H as [entries [Hcl Hperm]].
  pose proof (Classified_ids _ _ _ _ Hcl) as Hids.
  destruct Hcl as (Hkeys & Hnd & _). cbn [fst snd] in *.
  rewrite Hkeys in Hnd.
  repeat split.
  - apply Permutation_NoDup
      with (l := map keyId (map entryKey entries)).
    + apply Permutation_map. now apply Permutation_sym.
    + rewrite map_map. cbn. now apply entry_ids_distinct.
  - apply Permutation_NoDup
      with (l := map keyName (map entryKey entries)).
    + apply Permutation_map. now apply Permutation_sym.
    + rewrite map_map. exact Hnd.
  - apply Forall_forall. intros k Hk.
    apply (Permutation_in _ Hperm) in Hk.
    apply in_map_iff in Hk as [e [<- He]].
    rewrite Forall_forall in Hids. exact (Hids e He).
Qed.

Lemma NoDup_keys_unique {V : Type} (m : list (string * V)) k v v' :
  NoDup (keys m) -> In (k, v) m -> In (k, v') m -> v = v'.
Proof.
  induction m as [|[k0 v0] r IH]; intros Hnd H H'; [contradiction|].
  cbn [keys map fst] in Hnd. inversion Hnd as [|? ? Hnotin Hnd']; subst.
  destruct H as [E|H], H' as [E'|H'].
  - congruence.
  - exfalso. injection E as -> ->. apply Hnotin.
    change k with (fst (k, v')). now apply in_map.
  - exfalso. injection E' as -> ->. apply Hnotin.
    change k with (fst (k, v)). now apply in_map.
  - now apply IH.
Qed.

(** C1.  A name whose schema in the map given to the section builder
    is inlineable is no key of the result: it is not in [byName], and no
    enum, object or union section has that name.  (A [Map] has each of
    its keys once.) *)
Theorem inlineable_never_a_section fuel fuel' doc refs secs name schema :
  NoDup (keys refs) ->
  In (name, schema) refs ->
  getInlineable fuel' doc (Some schema) = Some true ->
  buildSectionsFromRefs localeCompare fuel doc refs = Some secs ->
  Js.has (byName secs) name = false
  /\ ~ In name (map keyName (sectionKeys secs)).
Proof.
  intros Hnd Hin Hinl H. apply build_keys in H as [entries [Hcl Hperm]].
  destruct Hcl as (Hkeys & _ & Hall). cbn [fst snd] in *.
  assert (Hnot : ~ In name (map se_name entries)).
  { intros Hn. apply in_map_iff in Hn as [e [He Hine]].
    rewrite Forall_forall in Hall.
    destruct (Hall e Hine) as (_ & Href & Hfalse).
    rewrite He in Href.
    rewrite (NoDup_keys_unique refs name _ _ Hnd Href Hin) in Hfalse.
    pose proof (getInlineable_det doc _ _ _ _ _ Hfalse Hinl). discriminate. }
  split.
  - destruct (Js.has (byName secs) name) eqn:E; [|reflexivity].
    apply has_In in E. unfold keys in E. rewrite Hkeys in E. contradiction.
  - intros Hn. apply Hnot.
    apply (Permutation_in _ (Permutation_map keyName Hperm)) in Hn.
    now rewrite map_map in Hn.
Qed.

End SectionTheorems.

(** * Union variants *)

Section VariantFuel.
Import SchemaLib.
Variable doc : OpenApiDocument.

Lemma mapM_mono {A B : Type} (f g : A -> option B) (l : list A) :
  (forall x y, In x l -> f x = Some y -> g x = Some y) ->
  forall ys, mapM f l = Some ys -> mapM g l = Some ys.
Proof.
  induction l as [|x r IH]; intros H ys Hys; [exact Hys|].
  cbn [mapM] in *. destruct (f x) as [y|] eqn:E; [|discriminate].
  rewrite (H x y (or_introl eq_refl) E). cbn [bind] in *.
  destruct (mapM f r) as [ys'|] eqn:E'; [|discriminate].
  now rewrite (IH (fun z w Hz => H z w (or_intror Hz)) ys' eq_refl).
Qed.

Lemma gatherM_mono (f g : Schema -> option (list EnumValue)) l :
  (forall x y, In x l -> f x = Some y -> g x = Some y) ->
  forall values r, gatherM f values l = Some r -> gatherM g values l = Some r.
Proof.
  induction l as [|x rest IH]; intros H values r Hr; [exact Hr|].
  cbn [gatherM] in *. destruct (f x) as [y|] eqn:E; [|discriminate].
  rewrite (H x y (or_introl eq_refl) E). cbn [bind] in *.
  apply IH; [|exact Hr]. intros z w Hz. apply H. now right.
Qed.

(** More fuel does not change an answer of [getUnionVariants]. *)
Lemma getUnionVariants_mono : forall fuel schema r,
  getUnionVariants fuel doc schema = Some r ->
  forall fuel', fuel <= fuel' -> getUnionVariants fuel' doc schema = Some r.
Proof.
  induction fuel as [|fuel IH]; intros schema r H fuel' Hle; [discriminate|].
  destruct fuel' as [|fuel']; [lia|]. apply le_S_n in Hle.
  cbn [getUnionVariants] in *.
  destruct schema as [s|]; [|exact H].
  destruct (if Js.truthy (s_ref s) then resolvedOther doc s else None);
    [now apply IH with (fuel' := fuel') in H|].
  destruct (variants2 s) as [variants|]; [|exact H].
  destruct (mapM _ (nonNull variants)) as [pieces|] eqn:E; [|discriminate].
  apply mapM_mono
    with (g := fun item =>
                 nested <- getUnionVariants fuel' doc (Some item) ;;
                 Some (match nested with [] => [item] | _ :: _ => nested end))
    in E; [now rewrite E|].
  intros x y _ Hx.
  destruct (getUnionVariants fuel doc (Some x)) as [nested|] eqn:En;
    [|discriminate].
  now rewrite (IH _ _ En fuel' Hle).
Qed.

(** More fuel does not change an answer of [getEnumValues]. *)
Lemma getEnumValues_mono : forall fuel schema r,
  getEnumValues fuel doc schema = Some r ->
  forall fuel', fuel <= fuel' -> getEnumValues fuel' doc schema = Some r.
Proof.
  induction fuel as [|fuel IH]; intros schema r H fuel' Hle; [discriminate|].
  destruct fuel' as [|fuel']; [lia|]. apply le_S_n in Hle.
  cbn [getEnumValues] in *.
  destruct schema as [s|]; [|exact H].
  destruct (Js.truthy (s_ref s)); [now apply IH with (fuel' := fuel') in H|].
  destruct (Js.strIs (s_type s) "array" && isSome (s_items s));
    [now apply IH with (fuel' := fuel') in H|].
  destruct (s_enum s); [exact H|].
  destruct (variants3 s) as [variants|]; [|exact H].
  apply gatherM_mono with (f := fun item => getEnumValues fuel doc (Some item));
    [|exact H].
  intros x y _ Hx. now apply IH with (fuel' := fuel') in Hx.
Qed.

End VariantFuel.

Section VariantFacts.
Import SchemaLib Reference Collector.
Variable doc : OpenApiDocument.

(** One step of [getUnionVariants] on a union that is not a reference. *)
Lemma getUnionVariants_union fuel s variants :
  Js.truthy (s_ref s) = false -> variants2 s = Some variants ->
  getUnionVariants (S fuel) doc (Some s)
  = bind (mapM (fun item =>
                  nested <- getUnionVariants fuel doc (Some item) ;;
                  Some (match nested with [] => [item] | _ :: _ => nested end))
            (nonNull variants))
      (fun pieces => Some (concat pieces)).
Proof. intros Href Hv. cbn [getUnionVariants]. now rewrite Href, Hv. Qed.

(** A node without [anyOf] and [oneOf] that is not a reference has no
    variants. *)
Lemma getUnionVariants_plain fuel s :
  Js.truthy (s_ref s) = false -> variants2 s = None ->
  getUnionVariants (S fuel) doc (Some s) = Some [].
Proof. intros Href Hv. cbn [getUnionVariants]. now rewrite Href, Hv. Qed.

(** A property whose schema is itself the array has no variants: the
    grouping is for an array that is a branch of a union. *)
Lemma buildUnionVariants_array fuel item sections :
  buildUnionVariants (S fuel) doc (arrayOf item) sections = Some [].
Proof. reflexivity. Qed.

Lemma getTypeClass_some fuel schema values :
  getEnumValues fuel doc schema = Some values ->
  exists typeClass, getTypeClass fuel doc schema = Some typeClass.
Proof.
  intros H. unfold getTypeClass. destruct schema as [s|]; [|now eexists].
  rewrite H. cbn [bind]. destruct (nonEmptyList values); [now eexists|].
  destruct (Js.str_eqb _ "string"); [now eexists|].
  destruct (Js.str_eqb _ "boolean"); [now eexists|].
  destruct (_ || _); now eexists.
Qed.

Lemma getRefNameDeepNode_ref s :
  Js.truthy (s_ref s) = true -> getRefNameDeepNode s = getRefName (Some s).
Proof.
  intros H. destruct s. cbn [getRefNameDeepNode s_ref] in *. now rewrite H.
Qed.

(** The variant of a reference is labelled by its name. *)
Lemma getVariantLabel_ref fuel ref name values :
  refersTo (refTo ref) name ->
  getEnumValues fuel doc (Some (refTo ref)) = Some values ->
  getVariantLabel fuel doc (refTo ref) = Some name.
Proof.
  intros (Href & Hname & Hne) Hv. unfold getVariantLabel. rewrite Hv.
  cbn [bind getRefNameDeep].
  assert (Hdeep : getRefNameDeepNode (refTo ref) = Some name).
  { now rewrite getRefNameDeepNode_ref. }
  rewrite Hdeep. cbn [Js.truthy orEmpty]. now rewrite Hne.
Qed.

(** C2, as the code has it.  Let [X] and [Y] be names of schemas that
    are not unions and on which the enum derivation ends.  A property
    whose schema is a union with the branch [array<anyOf[X, Y]>] has a
    variant list of exactly one entry, with array flag false, type class
    ["object"], label ["array of"], and a group of two variants labelled
    [X] and [Y]. *)
Theorem array_of_union_grouped
  (sections : ReferenceSections) (X Y refX refY : string)
  (fx fy gx gy : nat) (valuesX valuesY : list EnumValue) :
  refersTo (refTo refX) X ->
  refersTo (refTo refY) Y ->
  getUnionVariants fx doc (Some (refTo refX)) = Some [] ->
  getUnionVariants fy doc (Some (refTo refY)) = Some [] ->
  getEnumValues gx doc (Some (refTo refX)) = Some valuesX ->
  getEnumValues gy doc (Some (refTo refY)) = Some valuesY ->
  exists enough, forall fuel, enough <= fuel ->
    exists entry first second,
      buildUnionVariants fuel doc
        (anyOfSchema [arrayOf (anyOfSchema [refTo refX; refTo refY])])
        sections
      = Some [entry]
      /\ v_array entry = false
      /\ v_typeClass entry = "object"
      /\ v_label entry = "array of"
      /\ v_groupVariants entry = Some [first; second]
      /\ v_label first = X
      /\ v_label second = Y.
Proof.
  intros HX HY Hux Huy Hex Hey.
  exists (S (S (Nat.max (Nat.max fx fy) (Nat.max gx gy)))).
  intros fuel Hf. destruct fuel as [|[|f]]; [lia|lia|].
  apply getUnionVariants_mono with (fuel' := S f) in Hux; [|lia].
  apply getUnionVariants_mono with (fuel' := S f) in Huy; [|lia].
  apply getEnumValues_mono with (fuel' := S (S f)) in Hex; [|lia].
  apply getEnumValues_mono with (fuel' := S (S f)) in Hey; [|lia].
  destruct (getTypeClass_some _ _ _ Hex) as [classX HcX].
  destruct (getTypeClass_some _ _ _ Hey) as [classY HcY].
  pose proof (getVariantLabel_ref _ _ _ _ HX Hex) as HlX.
  pose proof (getVariantLabel_ref _ _ _ _ HY Hey) as HlY.
  set (union := anyOfSchema [refTo refX; refTo refY]).
  assert (Hitems : getUnionVariants (S (S f)) doc (Some union)
                   = Some [refTo refX; refTo refY]).
  { rewrite (getUnionVariants_union _ union [refTo refX; refTo refY]);
      [|reflexivity|reflexivity].
    cbn [nonNull filter isNullType refTo s_type Js.strIs negb mapM].
    rewrite Hux, Huy. reflexivity. }
  unfold buildUnionVariants.
  replace (getUnionVariants (S (S f)) doc
             (Some (anyOfSchema [arrayOf union])))
    with (Some [arrayOf union]) by reflexivity.
  cbn [bind mapM].
  unfold expandUnionVariantEntries at 1.
  cbn [resolveRef arrayOf s_ref s_type s_items Js.strIs Js.str_eqb].
  change (Js.str_eqb "array" "array") with true. lazy beta iota.
  rewrite Hitems. cbn [bind nonEmptyList mapM].
  rewrite HlX, HlY, HcX, HcY. cbn [bind concat app mapM].
  unfold variantOfEntry. cbn [e_labelOverride e_typeClassOverride bind
                              e_array e_groupVariants].
  eexists. eexists. eexists. split; [reflexivity|].
  cbn [v_array v_typeClass v_label v_groupVariants]. repeat split.
Qed.

End VariantFacts.

(** * Parameter rows *)

Section RowFacts.
Import SchemaLib Reference.
Variable localeCompare : string -> string -> comparison.

Lemma mapM_map {A B C : Type} (f : A -> option B) (g : B -> C) (h : A -> C)
  (l : list A) :
  (forall x y, In x l -> f x = Some y -> g y = h x) ->
  forall ys, mapM f l = Some ys -> map g ys = map h l.
Proof.
  induction l as [|x r IH]; intros H ys Hys.
  - now injection Hys as <-.
  - cbn [mapM] in Hys. destruct (f x) as [y|] eqn:E; [|discriminate].
    cbn [bind] in Hys. destruct (mapM f r) as [ys'|] eqn:E'; [|discriminate].
    injection Hys as <-. cbn [map].
    rewrite (H x y (or_introl eq_refl) E).
    now rewrite (IH (fun z w Hz => H z w (or_intror Hz)) ys' eq_refl).
Qed.

(** The rows of [buildInlineRows] are the properties that
    [getSchemaProperties] finds, in order. *)
Lemma buildInlineRows_names fuel doc schema sections props rows :
  getSchemaProperties fuel doc schema = Some (Some props) ->
  buildInlineRows fuel doc schema sections = Some rows ->
  map ir_name rows = map fst props.
Proof.
  intros Hp H. unfold buildInlineRows in H. rewrite Hp in H.
  cbn [bind] in H.
  destruct (getSchemaRequired fuel doc schema) as [req|]; [|discriminate].
  cbn [bind] in H. revert H. apply mapM_map.
  intros [name prop] row _ Hrow.
  destruct (getEnumValues fuel doc (Some prop)); [|discriminate].
  destruct (getEnumDescriptions fuel doc (Some prop)); [|discriminate].
  cbn [bind] in Hrow.
  destruct (buildUnionVariants fuel doc prop sections); [|discriminate].
  destruct (getDescription fuel doc (Some prop)); [|discriminate].
  destruct (isArraySchema fuel doc (Some prop)); [|discriminate].
  now injection Hrow as <-.
Qed.

(** An object schema that is not a reference gives its own properties. *)
Lemma getSchemaProperties_object fuel doc s props :
  Js.truthy (s_ref s) = false -> Js.strIs (s_type s) "object" = true ->
  s_properties s = Some props ->
  getSchemaProperties (S fuel) doc (Some s) = Some (Some props).
Proof.
  intros Href Hty Hp. cbn [getSchemaProperties].
  now rewrite Href, Hty, Hp.
Qed.

(** C10.  When the root request schema is a reference node, or has no
    [properties] field of its own (an [allOf] wrapper, say),
    [buildParameterRows] returns the empty list, whatever the fuel, and
    [parameterRows] is empty in every index that [buildReferenceIndex]
    returns: the properties are read on the root as it is given.  [buildInlineRows] instead reads them
    through [getSchemaProperties]: on a reference to an object schema,
    and on an [allOf] wrapper around one, its rows are the properties of
    that object. *)
Theorem root_properties_read_directly (fuel : nat) (doc : OpenApiDocument) :
  (forall root sections,
     (exists ref, root = refTo ref) \/ s_properties root = None ->
     buildParameterRows fuel doc (Some root) sections = Some [])
  /\ (forall root index,
        (exists ref, root = refTo ref) \/ s_properties root = None ->
        buildReferenceIndex localeCompare fuel doc (Some root) = Some index ->
        parameterRows index = [])
  /\ (forall ref target props sections rows,
        Js.nonEmpty ref = true ->
        getSchemaFromRef doc ref = Some target ->
        Js.truthy (s_ref target) = false ->
        Js.strIs (s_type target) "object" = true ->
        s_properties target = Some props ->
        buildInlineRows fuel doc (Some (refTo ref)) sections = Some rows ->
        map ir_name rows = map fst props)
  /\ (forall branch props sections rows,
        Js.truthy (s_ref branch) = false ->
        Js.strIs (s_type branch) "object" = true ->
        s_properties branch = Some props ->
        buildInlineRows fuel doc (Some (allOfSchema [branch])) sections
        = Some rows ->
        map ir_name rows = map fst props).
Proof.
  split; [|split; [|split]].
  - intros root sections Hroot.
    assert (Hp : s_properties root = None).
    { destruct Hroot as [[ref ->]|Hp]; [reflexivity|exact Hp]. }
    cbn [buildParameterRows]. now rewrite Hp.
  - intros root index Hroot H.
    assert (Hp : s_properties root = None).
    { destruct Hroot as [[ref ->]|Hp]; [reflexivity|exact Hp]. }
    unfold buildReferenceIndex in H.
    destruct (collectRefsFromSchemas fuel doc [Some root]); [|discriminate].
    cbn [bind] in H.
    destruct (buildSectionsFromRefs localeCompare fuel doc r);
      [|discriminate].
    cbn [bind buildParameterRows] in H. rewrite Hp in H.
    cbn [bind] in H. now injection H as <-.
  - intros ref target props sections rows Hne Htarget Href Hty Hp H.
    apply (buildInlineRows_names fuel doc (Some (refTo ref)) sections);
      [|exact H].
    destruct fuel as [|[|f]].
    + discriminate.
    + unfold buildInlineRows in H. cbn [getSchemaProperties refTo s_ref Js.truthy]
        in H. rewrite Hne in H. discriminate.
    + cbn [getSchemaProperties refTo s_ref Js.truthy resolveRef].
      rewrite Hne. cbn [negb]. rewrite Htarget.
      now apply getSchemaProperties_object.
  - intros branch props sections rows Href Hty Hp H.
    apply (buildInlineRows_names fuel doc (Some (allOfSchema [branch]))
             sections); [|exact H].
    destruct fuel as [|[|f]].
    + discriminate.
    + unfold buildInlineRows in H.
      cbn [getSchemaProperties allOfSchema s_ref s_type s_properties s_items
           s_allOf Js.truthy Js.strIs andb isSome firstM bind] in H.
      discriminate.
    + cbn [getSchemaProperties allOfSchema s_ref s_type s_properties s_items
           s_allOf s_anyOf s_oneOf Js.truthy Js.strIs andb isSome firstM].
      pose proof (getSchemaProperties_object f doc branch props Href Hty Hp)
        as E.
      cbn [getSchemaProperties] in E. rewrite E. reflexivity.
Qed.

End RowFacts.

(** * The statements at sample documents *)

Section Samples.
Import SchemaLib Reference Collector Index Examples.

Example xySections_run :
  option_map (fun secs => (map keyId (sectionKeys secs), keys (byName secs)))
    xySections
  = Some (["enum-Color"; "object-X"; "object-Y"; "union-Either"],
          ["Either"; "X"; "Y"; "Color"]).
Proof. vm_compute. reflexivity. Qed.

Example xyCollect_run :
  option_map keys (collectRefSchemas 8 xyDoc (Some listRoot) [])
  = Some ["X"; "Y"].
Proof. vm_compute. reflexivity. Qed.

Example cycle_run :
  option_map keys (collectRefSchemas 8 cycleDoc (Some cycleA) [])
  = Some ["B"; "A"].
Proof. vm_compute. reflexivity. Qed.

Example unionWithArray_run :
  option_map (map (fun v => (v_label v, v_array v, v_typeClass v,
                             option_map (map v_label) (v_groupVariants v))))
    (buildUnionVariants 8 xyDoc unionWithArray noSections)
  = Some [("array of", false, "object", Some ["X"; "Y"])].
Proof. vm_compute. reflexivity. Qed.

End Samples.

Section Witnesses.
Import SchemaLib Reference Collector Index Examples.

Example pointerOf_run :
  Resolve.pointerOf ["paths"; "/responses"; "post"] = "#/paths/~1responses/post"
  /\ Resolve.pointerOf ["m~n"; "1"] = "#/m~0n/1".
Proof. split; reflexivity. Qed.

Lemma getByJsonPointer_sequential_lookup_witness :
  Resolve.getJson (Some jsonDoc) "paths/~1responses" = None
  /\ Resolve.getJson (Some jsonDoc)
       (Resolve.pointerOf ["paths"; "/responses"; "post"])
     = Some (Resolve.JNum 1)
  /\ Resolve.getJson (Some jsonDoc) (Resolve.pointerOf ["m~n"; "1"; "x"])
     = None.
Proof.
  destruct (getByJsonPointer_sequential_lookup
              Resolve.JSON Resolve.isNull Resolve.get (Some jsonDoc))
    as (Hother & _ & Hkeys).
  split; [|split].
  - apply Hother. reflexivity.
  - unfold Resolve.getJson. rewrite Hkeys by discriminate. reflexivity.
  - unfold Resolve.getJson. rewrite Hkeys by discriminate. reflexivity.
Defined.

Lemma resolveRef_local_only_witness :
  Resolve.resolveRef Resolve.JSON Resolve.isNull Resolve.get (Some jsonDoc)
    "paths"
  = None
  /\ resolveRef fooDoc (Some (refTo "Foo")) = Some fooDef
  /\ resolveRef fooDoc (Some (refTo "#/components/schemas/Foo")) = Some fooDef.
Proof.
  destruct (resolveRef_local_only
              Resolve.JSON Resolve.isNull Resolve.get (Some jsonDoc) fooDoc)
    as (Hptr & Hcls).
  split.
  - apply Hptr. reflexivity.
  - apply (Hcls "#/components/schemas" "Foo" fooDef); reflexivity.
Defined.

(** The classifier resolves a reference that does not start with
    [#/] to the named schema [Foo]. *)
Lemma classifier_resolves_nonlocal_ref :
  Js.startsWith "#/" "other.json/Foo" = false
  /\ namedSchema fooDoc "Foo" = Some fooDef
  /\ resolveRef fooDoc (Some (refTo "other.json/Foo")) = Some fooDef.
Proof. repeat split. Qed.

Lemma getTypeLabel_priority_witness :
  getTypeLabel emptyDoc (Some (allOfSchema [emptySchema; toX])) = "X"
  /\ getTypeLabel emptyDoc (Some (anyOfSchema [nullSchema; ofType "string"]))
     = "string".
Proof.
  split.
  - destruct (getTypeLabel_priority emptyDoc (allOfSchema [emptySchema; toX]))
      as (_ & _ & _ & _ & Hall & _).
    rewrite (Hall toX); [reflexivity|repeat split|reflexivity].
  - destruct (getTypeLabel_priority emptyDoc
                (anyOfSchema [nullSchema; ofType "string"]))
      as (_ & _ & _ & _ & _ & Hany & _).
    rewrite (Hany [nullSchema; ofType "string"]);
      [reflexivity|repeat split|reflexivity|reflexivity].
Defined.

(** An [allOf] without a reference branch is labelled ["unknown"], not
    ["object"]. *)
Lemma allOf_without_reference_unknown :
  refBranch allOfPlain = None
  /\ getTypeLabel emptyDoc (Some allOfPlain) = "unknown"
  /\ getTypeLabel emptyDoc (Some allOfPlain) <> "object".
Proof. repeat split. discriminate. Qed.

Lemma nullable_union_unwraps_witness :
  getTypeLabel emptyDoc (Some (anyOfSchema [ofType "string"; nullSchema]))
  = getTypeLabel emptyDoc (Some (ofType "string"))
  /\ getEnumValues 3 xyDoc (Some (anyOfSchema [defColor; nullSchema]))
     = Some [EStr "red"; EStr "green"].
Proof.
  destruct (nullable_union_unwraps 2 emptyDoc (ofType "string"))
    as (Hlabel & _).
  destruct (nullable_union_unwraps 2 xyDoc defColor) as (_ & _ & Henum & _).
  split.
  - apply Hlabel. reflexivity.
  - apply Henum; [reflexivity|].
    repeat constructor; cbn; intuition discriminate.
Defined.

(** The union of the null type with itself and the null type alone
    have different labels; a repeated enum value is listed once by the
    union and twice by the schema alone. *)
Lemma nullable_union_differs :
  getTypeLabel emptyDoc (Some (anyOfSchema [nullSchema; nullSchema]))
  = "unknown"
  /\ getTypeLabel emptyDoc (Some nullSchema) = "null"
  /\ getEnumValues 4 emptyDoc (Some (anyOfSchema [repeatedEnum; nullSchema]))
     = Some [EStr "a"]
  /\ getEnumValues 4 emptyDoc (Some repeatedEnum)
     = Some [EStr "a"; EStr "a"].
Proof. repeat split. Qed.

Lemma getEnumValues_priority_witness :
  getEnumValues 4 emptyDoc (Some arrayWithEnum) = Some [EStr "a"]
  /\ getEnumValues 4 emptyDoc
       (Some (anyOfSchema [enumOf [EStr "a"; EStr "b"];
                           enumOf [EStr "b"; EStr "c"]]))
     = Some [EStr "a"; EStr "b"; EStr "c"].
Proof.
  destruct (getEnumValues_priority 3 emptyDoc) as (_ & Hnode).
  split.
  - destruct (Hnode arrayWithEnum) as (_ & Harray & _).
    rewrite Harray; reflexivity.
  - destruct (Hnode (anyOfSchema [enumOf [EStr "a"; EStr "b"];
                                  enumOf [EStr "b"; EStr "c"]]))
      as (_ & _ & _ & Hunion & _).
    rewrite (Hunion [enumOf [EStr "a"; EStr "b"]; enumOf [EStr "b"; EStr "c"]]);
      reflexivity.
Defined.

(** An array node with an [enum] of its own yields the values of its
    items, not its own. *)
Lemma array_items_before_own_enum :
  s_enum arrayWithEnum = Some [EStr "x"]
  /\ getEnumValues 4 emptyDoc (Some arrayWithEnum) = Some [EStr "a"].
Proof. repeat split. Qed.

End Witnesses.

Section IndexWitnesses.
Import SchemaLib Reference Collector Index Examples.

Lemma collectRefSchemas_cycle_witness :
  (exists enough result,
     (forall fuel, enough <= fuel ->
        collectRefSchemas fuel cycleDoc (Some cycleA) [] = Some result)
     /\ count_occ string_dec (keys result) "A" = 1
     /\ count_occ string_dec (keys result) "B" = 1)
  /\ (exists enough result,
        (forall fuel, enough <= fuel ->
           collectRefSchemas fuel cycleDoc (Some toA) [] = Some result)
        /\ count_occ string_dec (keys result) "A" = 1
        /\ count_occ string_dec (keys result) "B" = 1).
Proof.
  split.
  - apply (collectRefSchemas_cycle cycleDoc "A" "B" cycleA cycleB
             [("b", toB)] [("a", toA)] "b" "a" toA toB cycleA);
      try reflexivity; try (repeat split; reflexivity);
      try (left; reflexivity).
  - apply (collectRefSchemas_cycle cycleDoc "A" "B" cycleA cycleB
             [("b", toB)] [("a", toA)] "b" "a" toA toB toA);
      try reflexivity; try (repeat split; reflexivity);
      try (left; reflexivity).
    right. repeat split; reflexivity.
Defined.

Lemma section_ids_distinct_witness :
  exists secs,
    xySections = Some secs
    /\ NoDup (map keyId (sectionKeys secs))
    /\ NoDup (map keyName (sectionKeys secs))
    /\ Forall (fun k => keyId k = sectionId (keyKind k) (keyName k))
         (sectionKeys secs).
Proof.
  unfold xySections.
  destruct (buildSectionsFromRefs byCode 8 xyDoc xyRefs) as [secs|] eqn:E;
    [|vm_compute in E; discriminate].
  exists secs. split; [reflexivity|].
  exact (section_ids_distinct byCode 8 xyDoc xyRefs secs E).
Defined.

Lemma inlineable_never_a_section_witness :
  exists secs,
    xySections = Some secs
    /\ Js.has (byName secs) "Inline" = false
    /\ ~ In "Inline" (map keyName (sectionKeys secs)).
Proof.
  unfold xySections.
  destruct (buildSectionsFromRefs byCode 8 xyDoc xyRefs) as [secs|] eqn:E;
    [|vm_compute in E; discriminate].
  exists secs. split; [reflexivity|].
  apply (inlineable_never_a_section byCode 8 2 xyDoc xyRefs secs
           "Inline" defInline).
  - repeat (constructor; [cbn; intuition discriminate|]). constructor.
  - cbn. intuition.
  - reflexivity.
  - exact E.
Defined.

Lemma array_of_union_grouped_witness :
  exists enough, forall fuel, enough <= fuel ->
    exists entry first second,
      buildUnionVariants fuel xyDoc unionWithArray noSections = Some [entry]
      /\ v_array entry = false
      /\ v_typeClass entry = "object"
      /\ v_label entry = "array of"
      /\ v_groupVariants entry = Some [first; second]
      /\ v_label first = "X"
      /\ v_label second = "Y".
Proof.
  apply (array_of_union_grouped xyDoc noSections "X" "Y"
           "#/components/schemas/X" "#/components/schemas/Y" 2 2 3 3 [] []);
    try reflexivity; repeat split; reflexivity.
Defined.

(** A property whose schema is the array itself has no union variants
    at all, in [buildUnionVariants] and in its parameter row. *)
Lemma array_property_not_grouped :
  buildUnionVariants 8 xyDoc arrayOfUnion noSections = Some []
  /\ option_map
       (map (fun row => (pr_name row, pr_array row, pr_isUnion row,
                         pr_unionVariants row)))
       (buildParameterRows 8 xyDoc (Some listRoot) noSections)
     = Some [("items", true, false, [])].
Proof. split; vm_compute; reflexivity. Qed.

Lemma root_properties_read_directly_witness :
  (exists index, fooIndex = Some index /\ parameterRows index = [])
  /\ (exists rows,
        buildInlineRows 8 fooDoc (Some (refTo "#/components/schemas/Foo"))
          noSections = Some rows
        /\ map ir_name rows = ["id"])
  /\ (exists rows,
        buildInlineRows 8 fooDoc (Some (allOfSchema [fooDef])) noSections
        = Some rows
        /\ map ir_name rows = ["id"]).
Proof.
  destruct (root_properties_read_directly byCode 8 fooDoc)
    as (_ & Hroot & Href & Hall).
  split; [|split].
  - unfold fooIndex.
    destruct (buildReferenceIndex byCode 8 fooDoc
                (Some (refTo "#/components/schemas/Foo")))
      as [index|] eqn:E; [|vm_compute in E; discriminate].
    exists index. split; [reflexivity|].
    apply (Hroot (refTo "#/components/schemas/Foo") index); [|exact E].
    left. now exists "#/components/schemas/Foo".
  - destruct (buildInlineRows 8 fooDoc
                (Some (refTo "#/components/schemas/Foo")) noSections)
      as [rows|] eqn:E; [|vm_compute in E; discriminate].
    exists rows. split; [reflexivity|].
    apply (Href "#/components/schemas/Foo" fooDef
             [("id", ofType "string")] noSections rows); try reflexivity.
    exact E.
  - destruct (buildInlineRows 8 fooDoc (Some (allOfSchema [fooDef]))
                noSections)
      as [rows|] eqn:E; [|vm_compute in E; discriminate].
    exists rows. split; [reflexivity|].
    apply (Hall fooDef [("id", ofType "string")] noSections rows);
      try reflexivity.
    exact E.
Defined.

End IndexWitnesses.

(** * More on pointers and reference names *)

Section PointerMore.
Import Resolve Deref.

Lemma replace_tilde1_noTilde s :
  noTilde s = true -> Js.replace_tilde1 s = s.
Proof.
  induction s as [|c r IH]; intros H; [reflexivity|].
  cbn [noTilde] in H. apply andb_true_iff in H as [Hc Hr].
  rewrite replace_tilde1_other.
  - now rewrite IH.
  - intros ->. rewrite Ascii.eqb_refl in Hc. discriminate.
Qed.

Lemma replace_tilde0_noTilde s :
  noTilde s = true -> Js.replace_tilde0 s = s.
Proof.
  induction s as [|c r IH]; intros H; [reflexivity|].
  cbn [noTilde] in H. apply andb_true_iff in H as [Hc Hr].
  rewrite replace_tilde0_other.
  - now rewrite IH.
  - intros ->. rewrite Ascii.eqb_refl in Hc. discriminate.
Qed.

Lemma escapeKey_nonEmpty key :
  Js.nonEmpty key = true -> Js.nonEmpty (escapeKey key) = true.
Proof.
  destruct key as [|c r]; [discriminate|]. intros _. cbn [escapeKey].
  destruct (Ascii.eqb c Js.tilde); [reflexivity|].
  destruct (Ascii.eqb c Js.slash); reflexivity.
Qed.

(** X1.  Decoding undoes the RFC 6901 escaping of every key, also of
    keys that contain [~] and [/]; the escaped key has no [/], so it is
    one segment of a pointer; and a segment without [~] decodes to
    itself. *)
Theorem decodePointerSegment_round_trip :
  (forall key, decodePointerSegment (escapeKey key) = key)
  /\ (forall key, noSlash (escapeKey key) = true)
  /\ (forall seg, noTilde seg = true -> decodePointerSegment seg = seg).
Proof.
  split; [exact decode_escape|split; [exact escape_noSlash|]].
  intros seg H. unfold decodePointerSegment.
  now rewrite (replace_tilde1_noTilde seg H), (replace_tilde0_noTilde seg H).
Qed.

Variable value : Type.
Variable isNull : value -> bool.
Variable get : value -> string -> option value.

Lemma lookupPath_app doc keys1 keys2 :
  lookupPath value isNull get doc (keys1 ++ keys2)
  = lookupPath value isNull get (lookupPath value isNull get doc keys1) keys2.
Proof. unfold lookupPath. apply fold_left_app. Qed.

(** X2.  Pointers compose: resolving [#/a/b], for any paths [a] and
    [b], is resolving [#/b] in the value that [#/a] resolves to.  So
    nothing is found below an absent or null value. *)
Theorem getByJsonPointer_compose (doc : option value) (a b : string) :
  getByJsonPointer value isNull get doc ("#/" ++ a ++ String Js.slash b)
  = getByJsonPointer value isNull get
      (getByJsonPointer value isNull get doc ("#/" ++ a)) ("#/" ++ b).
Proof.
  rewrite !getByJsonPointer_local, split_slash, map_app.
  apply lookupPath_app.
Qed.

Lemma walk_read parts : forall cur v,
  parts <> [] ->
  walk value isNull get cur parts = Some v ->
  exists root keys key parent,
    cur = Some root /\ isNull root = false
    /\ parts = keys ++ [key]
    /\ lookupPath value isNull get cur keys = Some parent
    /\ isNull parent = false
    /\ get parent key = Some v.
Proof.
  induction parts as [|p rest IH]; intros cur v Hne H; [contradiction|].
  cbn [walk] in H. destruct cur as [c|]; cbn [nullish index] in H;
    [|discriminate].
  destruct (isNull c) eqn:Hc; [discriminate|].
  destruct rest as [|q rest'].
  - cbn [walk] in H. exists c, [], p, c. now repeat split.
  - destruct (IH (get c p) v) as (root & keys & key & parent & _ & _ & E & L & N & G);
      [discriminate|exact H|].
    exists c, (p :: keys), key, parent.
    repeat split; try assumption.
    + cbn [app]. now rewrite E.
    + unfold lookupPath in *. cbn [fold_left field]. now rewrite Hc.
Qed.

(** X3.  Whatever a pointer resolves to was read as a property.  When
    [getByJsonPointer] gives a value, the document is neither absent nor
    null, and the decoded segments of the pointer are a list of keys
    followed by one last key such that sequential lookup of the keys
    from the document gives a value that is not null, and the result is
    what reading the last key of that value gives. *)
Theorem getByJsonPointer_reads_a_property (doc : option value)
  (pointer : string) (v : value) :
  getByJsonPointer value isNull get doc pointer = Some v ->
  exists root keys key parent,
    doc = Some root /\ isNull root = false
    /\ map decodePointerSegment (Js.split (Js.slice 2 pointer)) = keys ++ [key]
    /\ lookupPath value isNull get doc keys = Some parent
    /\ isNull parent = false
    /\ get parent key = Some v.
Proof.
  unfold getByJsonPointer.
  destruct (negb (Js.startsWith "#/" pointer)); [discriminate|].
  intros H. apply (walk_read _ doc v) in H; [exact H|].
  destruct (split_cons (Js.slice 2 pointer)) as [h [t E]].
  rewrite E. discriminate.
Qed.

End PointerMore.

Section RefNameFacts.
Import Resolve Deref.

Lemma string_app_assoc (a b c : string) :
  ((a ++ b) ++ c = a ++ (b ++ c))%string.
Proof. induction a as [|x r IH]; [reflexivity|]. cbn. now rewrite IH. Qed.

Lemma prefix_slice p : forall s,
  String.prefix p s = true -> s = (p ++ Js.slice (String.length p) s)%string.
Proof.
  induction p as [|c r IH]; intros s H; [reflexivity|].
  destruct s as [|d s']; [discriminate|]. cbn in H.
  destruct (ascii_dec c d) as [->|]; [|discriminate].
  cbn. f_equal. now apply IH.
Qed.

Lemma matchHere_some s group :
  matchHere s = Some group ->
  s = (schemasPrefix ++ group)%string
  /\ Js.nonEmpty group = true /\ noSlash group = true.
Proof.
  unfold matchHere, Js.startsWith.
  destruct (String.prefix schemasPrefix s) eqn:Hp; [|discriminate].
  destruct (Js.nonEmpty _ && noSlash _) eqn:Hc; [|discriminate].
  intros [= <-]. apply andb_true_iff in Hc as [Hn Hs].
  repeat split; [now apply prefix_slice|assumption|assumption].
Qed.

Lemma matchHere_literal group :
  Js.nonEmpty group = true -> noSlash group = true ->
  matchHere (schemasPrefix ++ group) = Some group.
Proof.
  intros Hn Hs. unfold matchHere.
  replace (Js.startsWith schemasPrefix (schemasPrefix ++ group)) with true
    by (cbn; now destruct group).
  change (Js.slice (String.length schemasPrefix) (schemasPrefix ++ group))
    with group.
  now rewrite Hn, Hs.
Qed.

Lemma matchFrom_some : forall s group,
  matchFrom s = Some group ->
  exists before,
    s = (before ++ schemasPrefix ++ group)%string
    /\ Js.nonEmpty group = true /\ noSlash group = true.
Proof.
  induction s as [|c r IH]; intros group H; cbn [matchFrom] in H.
  - destruct (matchHere EmptyString) eqn:E; [|discriminate].
    injection H as ->. exists EmptyString. now apply matchHere_some.
  - destruct (matchHere (String c r)) eqn:E.
    + injection H as ->. exists EmptyString. now apply matchHere_some.
    + destruct (IH group H) as [before (-> & Hn & Hs)].
      exists (String c before). now repeat split.
Qed.

Lemma matchFrom_found before group :
  Js.nonEmpty group = true -> noSlash group = true ->
  exists found, matchFrom (before ++ schemasPrefix ++ group) = Some found.
Proof.
  intros Hn Hs. induction before as [|c r IH].
  - exists group. cbn [append].
    destruct (schemasPrefix ++ group)%string eqn:E; cbn [matchFrom];
      rewrite <- E, matchHere_literal; auto.
  - cbn [append matchFrom]. destruct (matchHere _); [now eexists|exact IH].
Qed.

(** The group of a match is the last segment of the reference. *)
Lemma last_segment before group :
  noSlash group = true ->
  Js.pop (Js.split (before ++ schemasPrefix ++ group)) = Some group.
Proof.
  intros Hs.
  change schemasPrefix with ("#/components/schemas" ++ "/")%string.
  rewrite <- !string_app_assoc,
    (string_app_assoc (before ++ "#/components/schemas") "/" group).
  now apply pop_split_name.
Qed.

Lemma refName_matches before seg :
  Js.nonEmpty seg = true -> noSlash seg = true ->
  refName (before ++ schemasPrefix ++ seg) = Some (decodePointerSegment seg).
Proof.
  intros Hn Hs. unfold refName.
  destruct (matchFrom_found before seg Hn Hs) as [found Hf]. rewrite Hf.
  destruct (matchFrom_some _ _ Hf) as [before' (E & _ & Hs')].
  pose proof (last_segment before seg Hs) as L.
  rewrite E, (last_segment before' found Hs') in L. now injection L as ->.
Qed.

(** X4.  [refName] yields a name exactly for the references that end
    in [#/components/schemas/] followed by a non-empty last segment
    without [/], wherever in the string that starts, and the name is the
    decoded segment; so the reference built for a schema name, escaped,
    gives the name back. *)
Theorem refName_characterized :
  (forall before seg,
     Js.nonEmpty seg = true -> noSlash seg = true ->
     refName (before ++ schemasPrefix ++ seg)
     = Some (decodePointerSegment seg))
  /\ (forall ref name,
        refName ref = Some name ->
        exists before seg,
          ref = (before ++ schemasPrefix ++ seg)%string
          /\ Js.nonEmpty seg = true /\ noSlash seg = true
          /\ name = decodePointerSegment seg)
  /\ (forall name,
        Js.nonEmpty name = true ->
        refName (schemasPrefix ++ escapeKey name) = Some name).
Proof.
  split; [exact refName_matches|split].
  - intros ref name H. unfold refName in H.
    destruct (matchFrom ref) as [group|] eqn:E; [|discriminate].
    injection H as <-. destruct (matchFrom_some _ _ E) as [before (-> & Hn & Hs)].
    now exists before, group.
  - intros name Hn.
    pose proof (refName_matches EmptyString (escapeKey name)
                  (escapeKey_nonEmpty name Hn) (escape_noSlash name)) as H.
    cbn [append] in H. fold schemasPrefix in H.
    now rewrite decode_escape in H.
Qed.

(** X5.  For a reference [#/components/schemas/<segment>], the resolver
    of [resolve.ts] looks up the decoded segment under [components] and
    [schemas], the very name that [refName] reports.  The classifier
    takes the segment as it is written, without decoding: it reports it
    as the name and looks it up among the named schemas. *)
Theorem schema_reference_names
  (value : Type) (isNull : value -> bool)
  (get : value -> string -> option value) (jdoc : option value)
  (doc : SchemaLib.OpenApiDocument) (seg : string) :
  Js.nonEmpty seg = true -> noSlash seg = true ->
  refName (schemasPrefix ++ seg) = Some (decodePointerSegment seg)
  /\ Resolve.resolveRef value isNull get jdoc (schemasPrefix ++ seg)
     = lookupPath value isNull get jdoc
         ["components"; "schemas"; decodePointerSegment seg]
  /\ SchemaLib.getRefName (Some (SchemaLib.refTo (schemasPrefix ++ seg)))
     = Some seg
  /\ SchemaLib.getSchemaFromRef doc (schemasPrefix ++ seg)
     = SchemaLib.namedSchema doc seg.
Proof.
  intros Hn Hs.
  assert (L : Js.pop (Js.split (schemasPrefix ++ seg)) = Some seg)
    by exact (last_segment EmptyString seg Hs).
  repeat split.
  - exact (refName_matches EmptyString seg Hn Hs).
  - unfold Resolve.resolveRef.
    replace (Js.startsWith "#/" (schemasPrefix ++ seg)) with true
      by reflexivity.
    cbn [negb].
    change (schemasPrefix ++ seg)%string
      with ("#/" ++ ("components" ++ String Js.slash
                       ("schemas" ++ String Js.slash seg)))%string.
    rewrite getByJsonPointer_local, !split_slash, (split_noSlash seg Hs).
    reflexivity.
  - unfold SchemaLib.getRefName. cbn [SchemaLib.refTo SchemaLib.s_ref].
    exact L.
  - unfold SchemaLib.getSchemaFromRef. now rewrite L, Hn.
Qed.

End RefNameFacts.

Section DerefFacts.
Import Resolve Deref.
Variable value : Type.
Variable isNull : value -> bool.
Variable get : value -> string -> option value.
Variable falsy : value -> bool.
Variable isObject : value -> bool.
Variable hasProperty : value -> string -> bool.
Variable asString : value -> option string.

(** X6.  Dereferencing never loses the node.  A value that [isRef]
    rejects comes back unchanged, and so does a reference whose string
    does not start with [#/].  A reference whose string escapes a list of
    keys gives the value that sequential lookup of these keys finds in
    the document, and the reference itself when nothing, or null, is
    found.  In every case the result is the given value or a value,
    not null, that its reference resolves to. *)
Theorem derefSchema_falls_back (doc : option value) :
  (forall schema,
     isRef value isNull get isObject hasProperty asString schema = false ->
     derefSchema value isNull get falsy isObject hasProperty asString
       doc schema = schema)
  /\ (forall schema ref,
        isRef value isNull get isObject hasProperty asString (Some schema)
        = true ->
        refString value get asString schema = Some ref ->
        Js.startsWith "#/" ref = false ->
        derefSchema value isNull get falsy isObject hasProperty asString
          doc (Some schema) = Some schema)
  /\ (forall schema keys,
        isRef value isNull get isObject hasProperty asString (Some schema)
        = true ->
        falsy schema = false ->
        refString value get asString schema = Some (pointerOf keys) ->
        keys <> [] ->
        derefSchema value isNull get falsy isObject hasProperty asString
          doc (Some schema)
        = match lookupPath value isNull get doc keys with
          | Some found => if isNull found then Some schema else Some found
          | None => Some schema
          end)
  /\ (forall schema,
        derefSchema value isNull get falsy isObject hasProperty asString
          doc schema = schema
        \/ exists node ref found,
             schema = Some node
             /\ refString value get asString node = Some ref
             /\ Resolve.resolveRef value isNull get doc ref = Some found
             /\ isNull found = false
             /\ derefSchema value isNull get falsy isObject hasProperty
                  asString doc schema = Some found).
Proof.
  split; [|split; [|split]].
  - intros [x|] H; [|reflexivity]. unfold derefSchema.
    rewrite H. cbn [negb]. now rewrite orb_true_r.
  - intros schema ref Hr E Hs. unfold derefSchema.
    rewrite Hr, E. cbn [negb]. rewrite orb_false_r.
    destruct (falsy schema); [reflexivity|].
    unfold Resolve.resolveRef. now rewrite Hs.
  - intros schema keys Hr Hf E Hne. unfold derefSchema.
    rewrite Hr, Hf, E. cbn [negb orb]. unfold Resolve.resolveRef.
    replace (Js.startsWith "#/" (pointerOf keys)) with true
      by (unfold pointerOf; cbn; now destruct (Js.join _)).
    cbn [negb]. rewrite getByJsonPointer_keys by assumption.
    destruct (lookupPath value isNull get doc keys) as [found|];
      [|reflexivity].
    cbn [nullish]. now destruct (isNull found).
  - intros [x|]; [|now left]. unfold derefSchema.
    destruct (falsy x
              || negb (isRef value isNull get isObject hasProperty asString
                         (Some x))); [now left|].
    destruct (refString value get asString x) as [ref|] eqn:E; [|now left].
    destruct (Resolve.resolveRef value isNull get doc ref) as [found|] eqn:R;
      [|now left].
    cbn [nullish]. destruct (isNull found) eqn:N; [now left|].
    right. now exists x, ref, found.
Qed.

End DerefFacts.

(** * More on the reference collector *)

Section CollectorMore.
Import SchemaLib Reference Collector More.
Variable doc : OpenApiDocument.

(** X7.  The collector ends on every document, schema and accumulator,
    cyclic references or not: every large enough fuel gives one and the
    same map.  That map keeps every key it was given, and has no key
    twice when the given map had none twice. *)
Theorem collectRefSchemas_terminates (schema : option Schema) (acc : RefMap) :
  exists result,
    Converges doc schema acc result
    /\ Grows acc result
    /\ (NoDup (keys acc) -> NoDup (keys result)).
Proof.
  destruct (collect_total doc schema acc) as [result [enough H]].
  exists result. split; [now exists enough|].
  exact (collect_adds doc enough schema acc result (H enough (le_n _))).
Qed.

(** X8.  What is collected from the empty map is closed under
    references: the name of a reference root is a key; so are the names
    that the children of a root that is not a reference refer to; and for
    every key that names a definition that is not a reference, so are the
    names that the children of that definition refer to. *)
Theorem collectRefSchemas_closed (fuel : nat) (root : Schema)
  (result : RefMap) :
  collectRefSchemas fuel doc (Some root) [] = Some result ->
  (forall name, refersTo root name -> Js.has result name = true)
  /\ (forall child target,
        Js.truthy (s_ref root) = false ->
        In child (children root) -> refersTo child target ->
        Js.has result target = true)
  /\ (forall name def child target,
        Js.has result name = true ->
        namedSchema doc name = Some def -> Js.truthy (s_ref def) = false ->
        In child (children def) -> refersTo child target ->
        Js.has result target = true).
Proof.
  intros H. split; [|split].
  - intros name Hto. exact (visit_ref doc fuel root name [] result Hto H).
  - intros child target Href Hin Hto.
    exact (visit_children doc fuel root child target [] result Href Hin Hto H).
  - intros name def child target Hhas Hdef Href Hin Hto.
    exact (collect_closed doc fuel (Some root) [] result H name def Hhas
             eq_refl Hdef Href child target Hin Hto).
Qed.

Lemma set_new_app {V : Type} (m : list (string * V)) k v :
  Js.has m k = false -> Js.set m k v = m ++ [(k, v)].
Proof.
  induction m as [|[k' v'] r IH]; intros H; [reflexivity|].
  cbn [Js.has existsb fst] in H. apply orb_false_iff in H as [Hk Hr].
  cbn [Js.set]. rewrite Hk. cbn [app]. f_equal. now apply IH.
Qed.

Lemma resolvedOr_stored s name :
  refersTo s name ->
  match namedSchema doc name with
  | Some def => resolvedOr doc s = def
  | None => refersTo (resolvedOr doc s) name
  end.
Proof.
  intros (Href & Hname & Hne). unfold resolvedOr, resolveRef.
  unfold getRefName in Hname.
  destruct (s_ref s) as [ref|] eqn:Eref; [|discriminate].
  cbn [Js.truthy] in Href. rewrite Href. cbn [negb].
  rewrite (getSchemaFromRef_named doc ref name Hname Hne).
  destruct (namedSchema doc name); [reflexivity|].
  repeat split; [now rewrite Eref|unfold getRefName; now rewrite Eref|exact Hne].
Qed.

Lemma collect_stored : forall fuel schema acc r,
  Stored doc acc ->
  collectRefSchemas fuel doc schema acc = Some r -> Stored doc r.
Proof.
  induction fuel as [|fuel IH]; intros schema acc r Hacc H; [discriminate|].
  destruct schema as [s|]; [|now injection H as <-].
  destruct (Js.truthy (s_ref s)) eqn:Href.
  - rewrite collect_ref in H by assumption.
    destruct (getRefName (Some s)) as [k|] eqn:Hk; [|now injection H as <-].
    cbn [Js.truthy orEmpty] in H.
    destruct (Js.nonEmpty k) eqn:Hne; [|now injection H as <-].
    destruct (Js.has acc k) eqn:Hhas; [now injection H as <-|].
    cbn [andb negb] in H. apply (IH _ _ _) in H; [exact H|].
    rewrite set_new_app by assumption. intros name v Hin.
    apply in_app_or in Hin as [Hin|[[= <- <-]|[]]]; [now apply Hacc|].
    split; [exact Hne|]. apply resolvedOr_stored. now repeat split.
  - rewrite collect_node in H by assumption.
    revert H. apply (foldM_preserves (Stored doc)); [|exact Hacc].
    intros child a a' _ Ha Hc. exact (IH _ _ _ Ha Hc).
Qed.

(** X9.  Every entry collected from the empty map has a non-empty
    name, and holds what [schemas] reads at that name (an entry of
    [schemas], or a member that it inherits); when nothing is read there,
    it holds a reference node with that name. *)
Theorem collectRefSchemas_stores_definitions (fuel : nat)
  (schema : option Schema) (result : RefMap) :
  collectRefSchemas fuel doc schema [] = Some result ->
  forall name v,
    In (name, v) result ->
    Js.nonEmpty name = true
    /\ (forall def, namedSchema doc name = Some def -> v = def)
    /\ (namedSchema doc name = None -> refersTo v name).
Proof.
  intros H name v Hin.
  assert (Hst : Stored doc result).
  { apply (collect_stored fuel schema [] result); [|exact H].
    intros n w []. }
  destruct (Hst name v Hin) as [Hne Hv]. split; [exact Hne|].
  destruct (namedSchema doc name) as [d|]; split.
  - now intros def [= <-].
  - discriminate.
  - discriminate.
  - now intros _.
Qed.

Lemma Js_str_eqb_sym a b : Js.str_eqb a b = Js.str_eqb b a.
Proof. apply String.eqb_sym. Qed.

Lemma assoc_set {V : Type} (m : list (string * V)) k' v k :
  Js.assoc k (Js.set m k' v)
  = if Js.str_eqb k' k then Some v else Js.assoc k m.
Proof.
  induction m as [|[k0 v0] r IH]; cbn [Js.set Js.assoc]; [reflexivity|].
  destruct (Js.str_eqb k0 k') eqn:E0.
  - apply str_eqb_eq in E0. subst k0. cbn [Js.assoc].
    now destruct (Js.str_eqb k' k).
  - cbn [Js.assoc]. destruct (Js.str_eqb k0 k) eqn:E1; [|exact IH].
    apply str_eqb_eq in E1. subst k0. now rewrite Js_str_eqb_sym, E0.
Qed.

End CollectorMore.

Section MergeFacts.
Import SchemaLib Reference Collector More.

Lemma has_assoc {V : Type} (m : list (string * V)) k :
  Js.has m k = match Js.assoc k m with Some _ => true | None => false end.
Proof.
  induction m as [|[k' v'] r IH]; [reflexivity|].
  cbn [Js.has existsb fst Js.assoc].
  destruct (Js.str_eqb k' k); [reflexivity|exact IH].
Qed.

Lemma mergeRefs_lookup refs : forall merged k,
  Js.assoc k (mergeRefs merged refs)
  = match Js.assoc k merged with
    | Some v => Some v
    | None => Js.assoc k refs
    end.
Proof.
  induction refs as [|[k0 v0] rest IH]; intros merged k.
  - cbn. now destruct (Js.assoc k merged).
  - unfold mergeRefs in *. cbn [fold_left fst snd]. rewrite IH.
    cbn [Js.assoc]. destruct (Js.has merged k0) eqn:Hhas.
    + destruct (Js.assoc k merged) eqn:Ek; [reflexivity|].
      destruct (Js.str_eqb k0 k) eqn:E; [|reflexivity].
      apply str_eqb_eq in E. subst k0.
      rewrite has_assoc, Ek in Hhas. discriminate.
    + rewrite assoc_set. destruct (Js.str_eqb k0 k) eqn:E.
      * apply str_eqb_eq in E. subst k0.
        rewrite has_assoc in Hhas.
        now destruct (Js.assoc k merged).
      * reflexivity.
Qed.

Lemma mergeRefs_NoDup refs : forall merged,
  NoDup (keys merged) -> NoDup (keys (mergeRefs merged refs)).
Proof.
  induction refs as [|[k0 v0] rest IH]; intros merged H; [exact H|].
  unfold mergeRefs in *. cbn [fold_left fst snd].
  destruct (Js.has merged k0) eqn:Hhas; apply IH; [exact H|].
  now apply NoDup_set_new.
Qed.

(** X10.  Merging is first writer wins: a name looked up in the merged
    map gives what the map merged into had for it, and what the merged-in
    map had only when the first had nothing; keys stay distinct. *)
Theorem mergeRefs_first_wins (merged refs : RefMap) :
  (forall k,
     Js.assoc k (mergeRefs merged refs)
     = match Js.assoc k merged with
       | Some v => Some v
       | None => Js.assoc k refs
       end)
  /\ (NoDup (keys merged) -> NoDup (keys (mergeRefs merged refs))).
Proof.
  split; [intros k; apply mergeRefs_lookup|apply mergeRefs_NoDup].
Qed.

Lemma mergeRefs_append refs : forall merged,
  NoDup (keys (merged ++ refs)) -> mergeRefs merged refs = merged ++ refs.
Proof.
  induction refs as [|[k0 v0] rest IH]; intros merged H.
  - cbn. now rewrite app_nil_r.
  - unfold mergeRefs in *. cbn [fold_left fst snd].
    assert (Hhas : Js.has merged k0 = false).
    { destruct (Js.has merged k0) eqn:E; [|reflexivity].
      apply has_In in E. unfold keys in *. rewrite map_app in H.
      cbn [map fst] in H. apply NoDup_remove_2 in H.
      exfalso. apply H. apply in_or_app. now left. }
    rewrite Hhas, set_new_app by assumption.
    rewrite IH; rewrite <- app_assoc; [reflexivity|exact H].
Qed.

(** X11.  For one root, [collectRefsFromSchemas] is the collector run
    from the empty map, and it ends: this is the map that
    [buildReferenceIndex] builds its sections from.  Absent roots in the
    list contribute nothing. *)
Theorem collectRefsFromSchemas_single (doc : OpenApiDocument) (root : Schema) :
  (forall fuel,
     collectRefsFromSchemas fuel doc [Some root]
     = collectRefSchemas fuel doc (Some root) [])
  /\ (forall fuel roots,
        collectRefsFromSchemas fuel doc (None :: roots)
        = collectRefsFromSchemas fuel doc roots
        /\ collectRefsFromSchemas fuel doc (roots ++ [None])
           = collectRefsFromSchemas fuel doc roots)
  /\ (exists enough result,
        forall fuel, enough <= fuel ->
          collectRefsFromSchemas fuel doc [Some root] = Some result).
Proof.
  assert (E : forall fuel,
            collectRefsFromSchemas fuel doc [Some root]
            = collectRefSchemas fuel doc (Some root) []).
  { intros fuel. unfold collectRefsFromSchemas. cbn [foldM].
    destruct (collectRefSchemas fuel doc (Some root) []) as [refs|] eqn:H;
      [|reflexivity].
    cbn [bind]. f_equal. apply (mergeRefs_append refs []).
    cbn [app]. apply (collect_adds doc fuel (Some root) [] refs H).
    constructor. }
  split; [exact E|split].
  - intros fuel roots. unfold collectRefsFromSchemas. split; [reflexivity|].
    rewrite foldM_app.
    match goal with |- bind ?m _ = _ => destruct m; reflexivity end.
  - destruct (collect_total doc (Some root) []) as [result [enough H]].
    exists enough, result. intros fuel Hf. rewrite E. now apply H.
Qed.

End MergeFacts.

(** * More on the classifier *)

Section ClassifierMore.
Import SchemaLib Reference Collector More.
Variable doc : OpenApiDocument.

Lemma mapM_in {A B : Type} (f : A -> option B) (l : list A) : forall ys,
  mapM f l = Some ys ->
  forall y, In y ys -> exists x, In x l /\ f x = Some y.
Proof.
  induction l as [|x r IH]; intros ys H y Hy.
  - injection H as <-. contradiction.
  - cbn [mapM] in H. destruct (f x) as [y0|] eqn:E; [|discriminate].
    cbn [bind] in H. destruct (mapM f r) as [ys'|]; [|discriminate].
    injection H as <-. destruct Hy as [<-|Hy].
    + exists x. split; [now left|exact E].
    + destruct (IH ys' eq_refl y Hy) as [x' [Hin Hx']].
      exists x'. split; [now right|exact Hx'].
Qed.

Lemma mapM_covers {A B : Type} (f : A -> option B) (l : list A) : forall ys,
  mapM f l = Some ys ->
  forall x, In x l -> exists y, In y ys /\ f x = Some y.
Proof.
  induction l as [|x0 r IH]; intros ys H x Hx; [contradiction|].
  cbn [mapM] in H. destruct (f x0) as [y0|] eqn:E; [|discriminate].
  cbn [bind] in H. destruct (mapM f r) as [ys'|]; [|discriminate].
  injection H as <-. destruct Hx as [<-|Hx].
  - exists y0. split; [now left|exact E].
  - destruct (IH ys' eq_refl x Hx) as [y [Hin Hy]].
    exists y. split; [now right|exact Hy].
Qed.

Lemma mapM_fails {A B : Type} (f : A -> option B) (l : list A) x :
  In x l -> f x = None -> mapM f l = None.
Proof.
  induction l as [|x0 r IH]; intros Hin Hx; [contradiction|].
  cbn [mapM]. destruct Hin as [->|Hin]; [now rewrite Hx|].
  destruct (f x0); [|reflexivity]. cbn [bind]. now rewrite IH.
Qed.

Lemma foldM_fails {A S : Type} (f : S -> A -> option S) (l : list A) x :
  In x l -> (forall s, f s x = None) -> forall s, foldM f l s = None.
Proof.
  induction l as [|x0 r IH]; intros Hin Hx s; [contradiction|].
  cbn [foldM]. destruct Hin as [->|Hin]; [now rewrite Hx|].
  destruct (f s x0); [|reflexivity]. cbn [bind]. now apply IH.
Qed.

(** X12.  The variants of a union come out flat and without the null
    type: no variant has type ["null"], and none is itself a union (its
    own variant list is empty), however the unions were nested or reached
    through references. *)
Theorem getUnionVariants_flat : forall fuel schema variants,
  getUnionVariants fuel doc schema = Some variants ->
  Forall (fun v => isNullType v = false
                   /\ getUnionVariants fuel doc (Some v) = Some [])
    variants.
Proof.
  induction fuel as [|fuel IH]; intros schema variants H; [discriminate|].
  assert (Up : forall l,
            Forall (fun v => isNullType v = false
                             /\ getUnionVariants fuel doc (Some v) = Some []) l ->
            Forall (fun v => isNullType v = false
                             /\ getUnionVariants (S fuel) doc (Some v) = Some [])
              l).
  { intros l. apply Forall_impl. intros v [Hn Hv]. split; [exact Hn|].
    apply (getUnionVariants_mono doc fuel); [exact Hv|lia]. }
  cbn [getUnionVariants] in H.
  destruct schema as [s|]; [|injection H as <-; constructor].
  destruct (if Js.truthy (s_ref s) then resolvedOther doc s else None).
  { apply Up. exact (IH _ _ H). }
  destruct (variants2 s) as [branches|]; [|injection H as <-; constructor].
  destruct (mapM _ (nonNull branches)) as [pieces|] eqn:E; [|discriminate].
  cbn [bind] in H. injection H as <-. apply Up.
  apply Forall_forall. intros v Hv.
  apply in_concat in Hv as [piece [Hpiece Hv]].
  destruct (mapM_in _ _ _ E piece Hpiece) as [item [Hitem Hf]].
  destruct (getUnionVariants fuel doc (Some item)) as [nested|] eqn:En;
    [|discriminate].
  cbn [bind] in Hf. injection Hf as <-.
  destruct nested as [|n1 rest].
  - destruct Hv as [<-|[]]. split; [|exact En].
    unfold nonNull in Hitem. apply filter_In in Hitem as [_ Hnn].
    now apply negb_true_iff in Hnn.
  - pose proof (IH _ _ En) as Hall. rewrite Forall_forall in Hall.
    now apply Hall.
Qed.

Lemma self_getEnumValues s : selfResolving doc s ->
  forall fuel, getEnumValues fuel doc (Some s) = None.
Proof.
  intros [Href Hres] fuel. induction fuel as [|fuel IH]; [reflexivity|].
  cbn [getEnumValues]. now rewrite Href, Hres.
Qed.







Lemma self_getInlineable s : selfResolving doc s ->
  x_inlineable s <> Some true ->
  forall fuel, getInlineable fuel doc (Some s) = None.
Proof.
  intros [Href Hres] Hx fuel. induction fuel as [|fuel IH]; [reflexivity|].
  cbn [getInlineable]. rewrite Href, Hres.
  destruct (x_inlineable s) as [[|]|]; [contradiction|exact IH|exact IH].
Qed.


(** X14.  So one reference to a missing schema is enough for the
    builders not to return: the rows of a root that has it as a
    property, and the sections of a map that holds it, are never built,
    whatever the fuel. *)
Theorem dangling_reference_stops_the_builders
  (localeCompare : string -> string -> comparison) (s : Schema) :
  selfResolving doc s ->
  (forall fuel root properties key sections,
     s_properties root = Some properties -> In (key, s) properties ->
     buildParameterRows fuel doc (Some root) sections = None)
  /\ (forall fuel refs name,
        In (name, s) refs -> x_inlineable s <> Some true ->
        buildSectionsFromRefs localeCompare fuel doc refs = None).
Proof.
  intros Hself. split.
  - intros fuel root properties key sections Hp Hin.
    cbn [buildParameterRows]. rewrite Hp.
    apply (mapM_fails _ _ (key, s) Hin).
    now rewrite (self_getEnumValues s Hself).
  - intros fuel refs name Hin Hx. unfold buildSectionsFromRefs.
    rewrite (foldM_fails (classifyRef fuel doc) refs (name, s) Hin);
      [reflexivity|].
    intros [names entries]. cbn [classifyRef].
    now rewrite (self_getInlineable s Hself Hx).
Qed.

(** X15.  When a node without [enum] of its own takes its values from
    its union or [allOf] branches, the list has no value twice, and holds
    exactly the values of the branches. *)
Theorem getEnumValues_of_branches (fuel : nat) (s : Schema)
  (variants : list Schema) (values : list EnumValue) :
  Js.truthy (s_ref s) = false -> arrayWithItems s = false ->
  s_enum s = None -> variants3 s = Some variants ->
  getEnumValues (S fuel) doc (Some s) = Some values ->
  NoDup values
  /\ forall v,
       In v values <->
       exists item itemValues,
         In item variants
         /\ getEnumValues fuel doc (Some item) = Some itemValues
         /\ In v itemValues.
Proof.
  intros Href Harr Henum Hv H. unfold arrayWithItems in Harr.
  cbn [getEnumValues] in H. rewrite Href, Harr, Henum, Hv in H.
  rewrite gatherM_dedupe in H.
  destruct (mapM _ variants) as [lists|] eqn:E; [|discriminate].
  cbn [bind] in H. rewrite pushNew_nil in H. injection H as <-.
  split; [apply dedupe_NoDup|].
  intros v. rewrite dedupe_In, in_concat. split.
  - intros [itemValues [Hl Hin]].
    destruct (mapM_in _ _ _ E itemValues Hl) as [item [Hitem Hf]].
    now exists item, itemValues.
  - intros [item [itemValues (Hitem & Hf & Hin)]].
    destruct (mapM_covers _ _ _ E item Hitem) as [y [Hy Hfy]].
    exists y. split; [exact Hy|]. rewrite Hf in Hfy. now injection Hfy as <-.
Qed.

End ClassifierMore.

Section LabelMore.
Import SchemaLib.

Lemma getTypeLabelNode_any_doc (doc doc' : OpenApiDocument) : forall s,
  getTypeLabelNode doc s = getTypeLabelNode doc' s.
Proof.
  apply schema_size_ind. intros s IH.
  assert (IHo : forall o, (forall c, o = Some c -> size c < size s) ->
                          getTypeLabel doc o = getTypeLabel doc' o).
  { intros [c|] Hc; cbn [getTypeLabel]; [|reflexivity]. apply IH. now apply Hc. }
  rewrite !getTypeLabelNode_unfold.
  destruct (Js.truthy (s_ref s)); [reflexivity|].
  destruct (objectShaped s); [reflexivity|].
  destruct (s_items s) as [items|] eqn:Ei.
  { apply IHo. intros c [= <-]. now apply size_items. }
  destruct (Js.truthy (s_type s)); [reflexivity|].
  destruct (refBranch s); [reflexivity|].
  destruct (s_anyOf s) as [anyOf|] eqn:Ea.
  { rewrite (IHo (find (fun item => negb (isNullType item)) anyOf));
      [reflexivity|].
    intros c Hc. apply find_some in Hc as [Hin _].
    exact (size_anyOf s anyOf c Ea Hin). }
  destruct (s_oneOf s) as [oneOf|] eqn:Eo; [|reflexivity].
  rewrite (IHo (hd_error oneOf)); [reflexivity|].
  intros c Hc. destruct oneOf as [|first rest]; [discriminate|].
  injection Hc as <-. apply (size_oneOf s (first :: rest) first Eo). now left.
Qed.

(** X16.  A type label is never the empty string, and it does not
    depend on the document: [getTypeLabel] follows no reference. *)
Theorem getTypeLabel_is_local (doc doc' : OpenApiDocument)
  (schema : option Schema) :
  Js.nonEmpty (getTypeLabel doc schema) = true
  /\ getTypeLabel doc schema = getTypeLabel doc' schema.
Proof.
  split; [apply getTypeLabel_nonEmpty|].
  destruct schema as [s|]; [apply getTypeLabelNode_any_doc|reflexivity].
Qed.

End LabelMore.

(** * More on the section builder *)

Section SectionMore.
Import SchemaLib Reference Collector Index More.
Variable localeCompare : string -> string -> comparison.

Lemma classify_indexed fuel doc refs state :
  foldM (classifyRef fuel doc) refs ([], []) = Some state ->
  fst state = map entryRef (snd state).
Proof.
  apply (foldM_preserves (fun st => fst st = map entryRef (snd st)));
    [|reflexivity].
  intros [name schema] [names entries] state' _ Hst H.
  cbn [classifyRef] in H. cbn [fst snd] in Hst.
  destruct (getInlineable fuel doc (Some schema)) as [[|]|];
    cbn [bind] in H; [now injection H as <-| |discriminate].
  destruct (getSchemaKind fuel doc (Some schema)) as [[kind|]|];
    cbn [bind] in H; [|now injection H as <-|discriminate].
  destruct (Js.has names name) eqn:Ehas; [now injection H as <-|].
  injection H as <-. cbn [fst snd].
  rewrite set_new_app by assumption. now rewrite map_app, Hst.
Qed.

(** The entries behind a section set: [byName] lists them in order,
    and the sections are these entries up to order. *)
Lemma build_indexed fuel doc refs secs :
  buildSectionsFromRefs localeCompare fuel doc refs = Some secs ->
  exists entries,
    byName secs = map entryRef entries
    /\ NoDup (map se_name entries)
    /\ Permutation (sectionKeys secs) (map entryKey entries).
Proof.
  unfold buildSectionsFromRefs. intros H.
  destruct (foldM (classifyRef fuel doc) refs ([], [])) as [[names entries]|]
    eqn:E1; [|discriminate].
  cbn [bind] in H.
  destruct (foldM (emitSection localeCompare fuel doc) entries _) as [built|]
    eqn:E2; [|discriminate].
  cbn [bind] in H. injection H as <-. cbn [byName].
  pose proof (classify_indexed _ _ _ _ E1) as Hidx. cbn [fst snd] in Hidx.
  pose proof (classify_all _ _ _ _ E1) as (Hkeys & Hnd & _).
  cbn [fst snd] in Hkeys, Hnd. rewrite Hkeys in Hnd.
  exists entries. repeat split; [exact Hidx|exact Hnd|].
  apply emit_all in E2 as (_ & He & Ho & Hu). cbn in He, Ho, Hu.
  unfold sectionKeys, enumKeys, objectKeys, unionKeys in *.
  cbn [enums objects unions].
  apply Permutation_trans
    with (ofKind KEnum entries ++ ofKind KObject entries
          ++ ofKind KUnion entries); [|apply ofKind_partition].
  rewrite <- He, <- Ho, <- Hu.
  repeat apply Permutation_app; apply Permutation_map; apply sort_perm.
Qed.

Lemma NoDup_assoc {V : Type} (m : list (string * V)) k v :
  NoDup (keys m) -> In (k, v) m -> Js.assoc k m = Some v.
Proof.
  induction m as [|[k0 v0] r IH]; intros Hnd Hin; [contradiction|].
  cbn [keys map fst] in Hnd. inversion Hnd as [|? ? Hnot Hnd']; subst.
  cbn [Js.assoc]. destruct Hin as [[= -> ->]|Hin].
  - unfold Js.str_eqb. now rewrite String.eqb_refl.
  - destruct (Js.str_eqb k0 k) eqn:E; [|now apply IH].
    apply str_eqb_eq in E. subst k0. exfalso. apply Hnot.
    change k with (fst (k, v)). now apply in_map.
Qed.

Lemma assoc_some_In {V : Type} (m : list (string * V)) k v :
  Js.assoc k m = Some v -> In (k, v) m.
Proof.
  induction m as [|[k0 v0] r IH]; [discriminate|].
  cbn [Js.assoc]. destruct (Js.str_eqb k0 k) eqn:E.
  - apply str_eqb_eq in E. subst k0. intros [= ->]. now left.
  - intros H. right. now apply IH.
Qed.

(** X17.  [byName] is the index of the sections: its entries are, up
    to order, the sections of the set, each with its kind and its id; so
    a name looks up to an entry exactly when a section of that kind has
    that name and that id. *)
Theorem byName_indexes_sections fuel doc refs secs :
  buildSectionsFromRefs localeCompare fuel doc refs = Some secs ->
  Permutation (map refKey (byName secs)) (sectionKeys secs)
  /\ forall name entry,
       Js.assoc name (byName secs) = Some entry
       <-> In (sr_kind entry, name, sr_id entry) (sectionKeys secs).
Proof.
  intros H. destruct (build_indexed fuel doc refs secs H)
    as [entries (Hidx & Hnd & Hperm)].
  assert (Hmap : map refKey (byName secs) = map entryKey entries).
  { rewrite Hidx, map_map. reflexivity. }
  assert (Hkeys : NoDup (keys (byName secs))).
  { unfold keys. rewrite Hidx, map_map. exact Hnd. }
  split; [rewrite Hmap; now apply Permutation_sym|].
  intros name entry. split.
  - intros Ha. apply assoc_some_In in Ha.
    apply (Permutation_in _ (Permutation_sym Hperm)). rewrite <- Hmap.
    change (sr_kind entry, name, sr_id entry) with (refKey (name, entry)).
    now apply in_map.
  - intros Hin. apply (Permutation_in _ Hperm) in Hin. rewrite <- Hmap in Hin.
    apply in_map_iff in Hin as [[name' entry'] [Hk Hin]].
    unfold refKey in Hk. cbn [fst snd] in Hk. injection Hk as Hkind -> Hid.
    apply NoDup_assoc; [exact Hkeys|].
    destruct entry, entry'. cbn in Hkind, Hid. now subst.
Qed.

Lemma HdRel_insert {A : Type} (cmp : A -> A -> comparison) (x y : A) l :
  cmp y x <> Gt ->
  HdRel (fun a b => cmp a b <> Gt) y l ->
  HdRel (fun a b => cmp a b <> Gt) y (Js.insert cmp x l).
Proof.
  intros Hyx Hl. destruct l as [|z r]; cbn [Js.insert].
  - now constructor.
  - destruct (cmp x z); constructor; try assumption;
      now inversion Hl.
Qed.

Lemma insert_sorted {A : Type} (cmp : A -> A -> comparison) (x : A) l :
  (forall a b, cmp a b = Gt -> cmp b a <> Gt) ->
  Sorted (fun a b => cmp a b <> Gt) l ->
  Sorted (fun a b => cmp a b <> Gt) (Js.insert cmp x l).
Proof.
  intros Hanti. induction l as [|y r IH]; intros Hs; cbn [Js.insert].
  - repeat constructor.
  - inversion Hs as [|? ? Hr Hhd]; subst.
    destruct (cmp x y) eqn:E.
    + constructor; [exact Hs|]. constructor. now rewrite E.
    + constructor; [exact Hs|]. constructor. now rewrite E.
    + constructor; [now apply IH|].
      apply HdRel_insert; [now apply Hanti|exact Hhd].
Qed.

(** The sort puts every two neighbours in order, for a comparator that
    never puts two elements each after the other. *)
Lemma sort_sorted {A : Type} (cmp : A -> A -> comparison) l :
  (forall a b, cmp a b = Gt -> cmp b a <> Gt) ->
  Sorted (fun a b => cmp a b <> Gt) (Js.sort cmp l).
Proof.
  intros Hanti. induction l as [|x r IH]; [constructor|].
  unfold Js.sort in *. cbn [fold_right]. now apply insert_sorted.
Qed.

Lemma emit_sorted fuel doc secs entry secs' :
  (forall a b, localeCompare a b = Gt -> localeCompare b a <> Gt) ->
  emitSection localeCompare fuel doc secs entry = Some secs' ->
  Forall (fun u => Sorted (fun a b => notAfter localeCompare (v_label a) (v_label b))
                     (us_variants u)) (unions secs) ->
  Forall (fun u => Sorted (fun a b => notAfter localeCompare (v_label a) (v_label b))
                     (us_variants u)) (unions secs').
Proof.
  intros Hanti H Hall. unfold emitSection in H.
  destruct (se_kind entry).
  - destruct (getDescription fuel doc _); [|discriminate].
    destruct (getEnumValues fuel doc _); [|discriminate].
    destruct (getEnumDescriptions fuel doc _); [|discriminate].
    cbn [bind] in H. now injection H as <-.
  - destruct (getUnionTitle fuel doc _); [|discriminate].
    destruct (getUnionVariants fuel doc _) as [vs|]; [|discriminate].
    cbn [bind] in H.
    destruct (mapM _ vs) as [pieces|]; [|discriminate]. cbn [bind] in H.
    destruct (mapM _ (concat pieces)) as [variants|]; [|discriminate].
    cbn [bind] in H.
    destruct (getDescription fuel doc _); [|discriminate].
    cbn [bind] in H. injection H as <-. cbn [unions].
    apply Forall_app. split; [exact Hall|].
    constructor; [|constructor]. cbn [us_variants].
    apply (sort_sorted (fun a b => localeCompare (v_label a) (v_label b))).
    intros a b. apply Hanti.
  - destruct (getDescription fuel doc _); [|discriminate].
    destruct (buildInlineRows fuel doc _ _); [|discriminate].
    cbn [bind] in H. now injection H as <-.
Qed.

(** X18.  For a comparator that never puts two names each after the
    other, the three section lists come out in name order, every section
    not after the next, and the variants of every union section in label
    order. *)
Theorem sections_sorted fuel doc refs secs :
  (forall a b, localeCompare a b = Gt -> localeCompare b a <> Gt) ->
  buildSectionsFromRefs localeCompare fuel doc refs = Some secs ->
  Sorted (fun a b => notAfter localeCompare (es_name a) (es_name b))
    (enums secs)
  /\ Sorted (fun a b => notAfter localeCompare (os_name a) (os_name b))
       (objects secs)
  /\ Sorted (fun a b => notAfter localeCompare (us_name a) (us_name b))
       (unions secs)
  /\ Forall (fun u =>
               Sorted (fun a b => notAfter localeCompare (v_label a) (v_label b))
                 (us_variants u))
       (unions secs).
Proof.
  intros Hanti H. unfold buildSectionsFromRefs in H.
  destruct (foldM (classifyRef fuel doc) refs ([], [])) as [[names entries]|];
    [|discriminate].
  cbn [bind] in H.
  destruct (foldM (emitSection localeCompare fuel doc) entries _) as [built|]
    eqn:E2; [|discriminate].
  cbn [bind] in H. injection H as <-. cbn [enums objects unions].
  repeat split.
  - apply (sort_sorted (fun a b => localeCompare (es_name a) (es_name b))).
    intros a b. apply Hanti.
  - apply (sort_sorted (fun a b => localeCompare (os_name a) (os_name b))).
    intros a b. apply Hanti.
  - apply (sort_sorted (fun a b => localeCompare (us_name a) (us_name b))).
    intros a b. apply Hanti.
  - assert (Hb : Forall (fun u =>
                 Sorted (fun a b => notAfter localeCompare (v_label a) (v_label b))
                   (us_variants u)) (unions built)).
    { revert E2.
      apply (foldM_preserves
               (fun secs => Forall (fun u =>
                  Sorted (fun a b => notAfter localeCompare (v_label a) (v_label b))
                    (us_variants u)) (unions secs))); [|constructor].
      intros e s s' _ Hs He. exact (emit_sorted fuel doc s e s' Hanti He Hs). }
    rewrite Forall_forall in *. intros u Hu. apply Hb.
    exact (Permutation_in _ (sort_perm _ _) Hu).
Qed.

End SectionMore.

(** * Links to sections *)

Section LinkFacts.
Import SchemaLib Reference Collector Index More.
Variable localeCompare : string -> string -> comparison.

Lemma sectionIdOf_in names refName id :
  sectionIdOf names refName = Some id -> In id (idsOf names).
Proof.
  unfold sectionIdOf. destruct (Js.truthy refName); [|discriminate].
  destruct (Js.assoc (orEmpty refName) names) as [entry|] eqn:E;
    [|discriminate].
  intros [= <-]. apply assoc_some_In in E.
  unfold idsOf. apply in_map_iff. now exists (orEmpty refName, entry).
Qed.

Lemma option_id_in names refName :
  incl (match sectionIdOf names refName with Some id => [id] | None => [] end)
    (idsOf names).
Proof.
  destruct (sectionIdOf names refName) as [id|] eqn:E; intros x Hx;
    [|contradiction].
  destruct Hx as [<-|[]]. now apply sectionIdOf_in in E.
Qed.

Lemma flat_map_incl {A B : Type} (f : A -> list B) (l : list A) (m : list B) :
  (forall x, In x l -> incl (f x) m) -> incl (flat_map f l) m.
Proof.
  intros H y Hy. apply in_flat_map in Hy as [x [Hx Hy]]. exact (H x Hx y Hy).
Qed.

Lemma expand_links fuel doc schema sections entries :
  expandUnionVariantEntries fuel doc schema sections = Some entries ->
  incl (flat_map entryIds entries) (idsOf (byName sections)).
Proof.
  unfold expandUnionVariantEntries.
  destruct (if Js.strIs _ "array" then _ else None) as [itemSchema|].
  - destruct (getUnionVariants fuel doc (Some itemSchema)) as [vs|];
      [|discriminate].
    cbn [bind]. destruct (nonEmptyList vs).
    + destruct (mapM _ vs) as [group|] eqn:E; [|discriminate].
      cbn [bind]. intros [= <-]. cbn [flat_map entryIds e_groupVariants].
      rewrite app_nil_r. apply flat_map_incl. intros g Hg.
      destruct (mapM_in _ _ _ E g Hg) as [variant [_ Hv]].
      destruct (getVariantLabel fuel doc variant); [|discriminate].
      destruct (getTypeClass fuel doc (Some variant)); [|discriminate].
      cbn [bind] in Hv. injection Hv as <-.
      cbn [variantIds v_sectionId v_groupVariants]. rewrite app_nil_r.
      apply option_id_in.
    + intros [= <-]. intros x [].
  - destruct (isArraySchema fuel doc (Some schema)); [|discriminate].
    cbn [bind]. intros [= <-]. intros x [].
Qed.

Lemma variantOfEntry_links fuel doc names entry v :
  variantOfEntry fuel doc names entry = Some v ->
  incl (entryIds entry) (idsOf names) ->
  incl (variantIds v) (idsOf names).
Proof.
  unfold variantOfEntry. intros H Hg.
  destruct (match e_labelOverride entry with
            | Some l => Some l
            | None => getVariantLabel fuel doc (e_schema entry)
            end); [|discriminate].
  cbn [bind] in H.
  destruct (match e_typeClassOverride entry with
            | Some c => Some c
            | None => getTypeClass fuel doc (Some (e_schema entry))
            end); [|discriminate].
  cbn [bind] in H. injection H as <-.
  cbn [variantIds v_sectionId v_groupVariants].
  apply incl_app; [apply option_id_in|exact Hg].
Qed.

(** The variants made from a list of variant schemas link into
    [byName]. *)
Lemma variants_links fuel doc sections schemas pieces variants :
  mapM (fun variant => expandUnionVariantEntries fuel doc variant sections)
    schemas = Some pieces ->
  mapM (variantOfEntry fuel doc (byName sections)) (concat pieces)
  = Some variants ->
  incl (flat_map variantIds variants) (idsOf (byName sections)).
Proof.
  intros Hp Hv. apply flat_map_incl. intros v Hin.
  destruct (mapM_in _ _ _ Hv v Hin) as [entry [He Hf]].
  apply (variantOfEntry_links _ _ _ _ _ Hf).
  apply in_concat in He as [piece [Hpiece He]].
  destruct (mapM_in _ _ _ Hp piece Hpiece) as [schema [_ Hx]].
  intros id Hid. apply (expand_links _ _ _ _ _ Hx).
  apply in_flat_map. now exists entry.
Qed.

Lemma buildUnionVariants_links fuel doc schema sections variants :
  buildUnionVariants fuel doc schema sections = Some variants ->
  incl (flat_map variantIds variants) (idsOf (byName sections)).
Proof.
  unfold buildUnionVariants.
  destruct (getUnionVariants fuel doc (Some schema)) as [vs|]; [|discriminate].
  cbn [bind]. destruct (mapM _ vs) as [pieces|] eqn:Hp; [|discriminate].
  cbn [bind]. intros Hv. exact (variants_links _ _ _ _ _ _ Hp Hv).
Qed.

Lemma buildInlineRows_links fuel doc schema sections rows :
  buildInlineRows fuel doc schema sections = Some rows ->
  incl (flat_map rowIds rows) (idsOf (byName sections)).
Proof.
  unfold buildInlineRows.
  destruct (getSchemaProperties fuel doc schema) as [[props|]|];
    cbn [bind]; [| |discriminate].
  - destruct (getSchemaRequired fuel doc schema); [|discriminate].
    cbn [bind]. intros H. apply flat_map_incl. intros row Hin.
    destruct (mapM_in _ _ _ H row Hin) as [[name prop] [_ Hrow]].
    destruct (getEnumValues fuel doc (Some prop)); [|discriminate].
    destruct (getEnumDescriptions fuel doc (Some prop)); [|discriminate].
    cbn [bind] in Hrow.
    destruct (buildUnionVariants fuel doc prop sections) as [vs|] eqn:Ev;
      [|discriminate].
    destruct (getDescription fuel doc (Some prop)); [|discriminate].
    destruct (isArraySchema fuel doc (Some prop)); [|discriminate].
    cbn [bind] in Hrow. injection Hrow as <-.
    unfold rowIds. cbn [ir_unionVariants].
    now apply buildUnionVariants_links in Ev.
  - intros [= <-]. intros x [].
Qed.

Lemma sectionLinks_app secs o u :
  sectionLinks {| enums := enums secs; objects := objects secs ++ o;
                  unions := unions secs ++ u; byName := byName secs |}
  = flat_map (fun o => flat_map rowIds (os_rows o)) (objects secs)
    ++ flat_map (fun o => flat_map rowIds (os_rows o)) o
    ++ flat_map (fun u => flat_map variantIds (us_variants u)) (unions secs)
    ++ flat_map (fun u => flat_map variantIds (us_variants u)) u.
Proof.
  unfold sectionLinks. cbn [objects unions].
  now rewrite !flat_map_app, <- !app_assoc.
Qed.

Lemma emit_links fuel doc secs entry secs' :
  emitSection localeCompare fuel doc secs entry = Some secs' ->
  incl (sectionLinks secs) (idsOf (byName secs)) ->
  byName secs' = byName secs
  /\ incl (sectionLinks secs') (idsOf (byName secs')).
Proof.
  intros H Hall. unfold emitSection in H.
  assert (Hsplit : incl (flat_map (fun o => flat_map rowIds (os_rows o))
                           (objects secs)) (idsOf (byName secs))
                   /\ incl (flat_map (fun u => flat_map variantIds (us_variants u))
                              (unions secs)) (idsOf (byName secs))).
  { unfold sectionLinks in Hall. split; intros x Hx; apply Hall;
      apply in_or_app; [now left|now right]. }
  destruct Hsplit as [Hobj Huni].
  destruct (se_kind entry).
  - destruct (getDescription fuel doc _); [|discriminate].
    destruct (getEnumValues fuel doc _); [|discriminate].
    destruct (getEnumDescriptions fuel doc _); [|discriminate].
    cbn [bind] in H. injection H as <-. split; [reflexivity|].
    cbn [byName]. exact Hall.
  - destruct (getUnionTitle fuel doc _); [|discriminate].
    destruct (getUnionVariants fuel doc _) as [vs|]; [|discriminate].
    cbn [bind] in H.
    destruct (mapM _ vs) as [pieces|] eqn:Hp; [|discriminate].
    cbn [bind] in H.
    destruct (mapM _ (concat pieces)) as [variants|] eqn:Hv; [|discriminate].
    cbn [bind] in H.
    destruct (getDescription fuel doc _); [|discriminate].
    cbn [bind] in H. injection H as <-. split; [reflexivity|].
    cbn [byName]. unfold sectionLinks. cbn [objects unions].
    rewrite flat_map_app. cbn [flat_map us_variants]. rewrite app_nil_r.
    apply incl_app; [exact Hobj|]. apply incl_app; [exact Huni|].
    intros id Hid. apply in_flat_map in Hid as [v [Hin Hid]].
    apply (Permutation_in _ (sort_perm _ _)) in Hin.
    apply (variants_links _ _ _ _ _ _ Hp Hv).
    apply in_flat_map. now exists v.
  - destruct (getDescription fuel doc _); [|discriminate].
    destruct (buildInlineRows fuel doc _ _) as [rows|] eqn:Er; [|discriminate].
    cbn [bind] in H. injection H as <-. split; [reflexivity|].
    cbn [byName]. unfold sectionLinks. cbn [objects unions].
    rewrite flat_map_app. cbn [flat_map os_rows]. rewrite app_nil_r.
    apply incl_app; [|exact Huni]. apply incl_app; [exact Hobj|].
    now apply buildInlineRows_links in Er.
Qed.

Lemma emit_all_links fuel doc : forall entries secs built,
  foldM (emitSection localeCompare fuel doc) entries secs = Some built ->
  incl (sectionLinks secs) (idsOf (byName secs)) ->
  byName built = byName secs
  /\ incl (sectionLinks built) (idsOf (byName built)).
Proof.
  induction entries as [|entry rest IH]; intros secs built H Hall.
  - injection H as <-. now split.
  - cbn [foldM] in H.
    destruct (emitSection localeCompare fuel doc secs entry) as [secs'|] eqn:E;
      [|discriminate].
    cbn [bind] in H. destruct (emit_links _ _ _ _ _ E Hall) as [Hb Hl].
    destruct (IH _ _ H Hl) as [Hb' Hl']. split; [congruence|exact Hl'].
Qed.

Lemma flat_map_perm_incl {A B : Type} (f : A -> list B) (l l' : list A) :
  Permutation l' l -> incl (flat_map f l') (flat_map f l).
Proof.
  intros Hp y Hy. apply in_flat_map in Hy as [x [Hx Hy]].
  apply in_flat_map. exists x. split; [|exact Hy].
  exact (Permutation_in _ Hp Hx).
Qed.

Lemma build_links fuel doc refs secs :
  buildSectionsFromRefs localeCompare fuel doc refs = Some secs ->
  incl (sectionLinks secs) (idsOf (byName secs)).
Proof.
  unfold buildSectionsFromRefs. intros H.
  destruct (foldM (classifyRef fuel doc) refs ([], [])) as [[names entries]|];
    [|discriminate].
  cbn [bind] in H.
  destruct (foldM (emitSection localeCompare fuel doc) entries _) as [built|]
    eqn:E2; [|discriminate].
  cbn [bind] in H. injection H as <-.
  destruct (emit_all_links _ _ _ _ _ E2) as [Hb Hl]; [intros x []|].
  cbn [byName] in Hb. rewrite Hb in Hl.
  unfold sectionLinks in *. cbn [objects unions byName].
  intros id Hid. apply Hl. apply in_app_or in Hid as [Hid|Hid];
    apply in_or_app; [left|right];
    exact (flat_map_perm_incl _ _ _ (sort_perm _ _) id Hid).
Qed.

Lemma idsOf_sections fuel doc refs secs :
  buildSectionsFromRefs localeCompare fuel doc refs = Some secs ->
  incl (idsOf (byName secs)) (map keyId (sectionKeys secs)).
Proof.
  intros H. destruct (build_indexed localeCompare fuel doc refs secs H)
    as [entries (Hidx & _ & Hperm)].
  intros id Hid. unfold idsOf in Hid. rewrite Hidx, map_map in Hid.
  apply (Permutation_in _ (Permutation_map keyId (Permutation_sym Hperm))).
  rewrite map_map. exact Hid.
Qed.

(** X19.  No link dangles: every section id that a variant of a union
    section, a variant of a row of an object section, or a variant in one
    of their groups links to is the id of a section of the same set. *)
Theorem section_links_resolve fuel doc refs secs :
  buildSectionsFromRefs localeCompare fuel doc refs = Some secs ->
  incl (sectionLinks secs) (map keyId (sectionKeys secs)).
Proof.
  intros H id Hid. apply (idsOf_sections fuel doc refs secs H).
  exact (build_links fuel doc refs secs H id Hid).
Qed.

Lemma buildParameterRows_links fuel doc schema sections rows :
  buildParameterRows fuel doc schema sections = Some rows ->
  incl (flat_map parameterIds rows) (idsOf (byName sections)).
Proof.
  unfold buildParameterRows.
  destruct schema as [s|]; [|intros [= <-]; intros x []].
  destruct (s_properties s) as [props|]; [|intros [= <-]; intros x []].
  intros H. apply flat_map_incl. intros row Hin.
  destruct (mapM_in _ _ _ H row Hin) as [[name prop] [_ Hrow]].
  destruct (getEnumValues fuel doc (Some prop)); [|discriminate].
  destruct (getEnumDescriptions fuel doc (Some prop)); [|discriminate].
  cbn [bind] in Hrow.
  destruct (getInlineable fuel doc (Some prop)) as [inl|]; [|discriminate].
  cbn [bind] in Hrow.
  destruct (buildUnionVariants fuel doc prop sections) as [vs|] eqn:Ev;
    [|discriminate].
  cbn [bind] in Hrow.
  destruct (getDescription fuel doc (Some prop)); [|discriminate].
  destruct (isArraySchema fuel doc (Some prop)); [|discriminate].
  cbn [bind] in Hrow.
  destruct (if inl then buildInlineRows fuel doc (Some prop) sections
            else Some []) as [inlineRows|] eqn:Er; [|discriminate].
  cbn [bind] in Hrow. injection Hrow as <-.
  unfold parameterIds.
  cbn [pr_typeLinkId pr_unionVariants pr_inlineRows].
  apply incl_app; [|apply incl_app].
  - destruct (negb inl); [apply option_id_in|intros x []].
  - now apply buildUnionVariants_links in Ev.
  - destruct inl; [now apply buildInlineRows_links in Er|].
    injection Er as <-. intros x [].
Qed.

(** X20.  The same holds for the index of a request schema: the type
    link of every parameter row, and every link of its variants and of
    its inline rows, is the id of a section of the index. *)
Theorem parameter_links_resolve fuel doc root index :
  buildReferenceIndex localeCompare fuel doc root = Some index ->
  incl (flat_map parameterIds (parameterRows index))
    (map keyId (sectionKeys (sections index))).
Proof.
  unfold buildReferenceIndex. intros H.
  destruct (collectRefsFromSchemas fuel doc [root]) as [refs|]; [|discriminate].
  cbn [bind] in H.
  destruct (buildSectionsFromRefs localeCompare fuel doc refs) as [secs|]
    eqn:Es; [|discriminate].
  cbn [bind] in H.
  destruct (buildParameterRows fuel doc root secs) as [rows|] eqn:Er;
    [|discriminate].
  cbn [bind] in H. injection H as <-. cbn [parameterRows sections].
  intros id Hid. apply (idsOf_sections fuel doc refs secs Es).
  exact (buildParameterRows_links fuel doc root secs rows Er id Hid).
Qed.

End LinkFacts.

(** * Nullable unions *)

Section SplitFacts.
Import SchemaLib SchemaFormat.

Lemma nonNull_length l : length (nonNull l) <= length l.
Proof.
  unfold nonNull. induction l as [|b r IH]; [reflexivity|].
  cbn [filter]. destruct (negb (isNullType b)); cbn [length]; lia.
Qed.

Lemma nonNull_same l :
  length (nonNull l) = length l <-> Forall (fun b => isNullType b = false) l.
Proof.
  unfold nonNull. induction l as [|b r IH]; [split; [constructor|reflexivity]|].
  cbn [filter]. destruct (isNullType b) eqn:E; cbn [negb length].
  - split.
    + intros H. pose proof (nonNull_length r) as L. unfold nonNull in L.
      lia.
    + intros H. inversion H; subst. congruence.
  - split.
    + intros H. constructor; [exact E|]. apply IH. lia.
    + intros H. inversion H; subst. f_equal. now apply IH.
Qed.

Lemma nonNull_idem l : nonNull (nonNull l) = nonNull l.
Proof.
  unfold nonNull. induction l as [|b r IH]; [reflexivity|].
  cbn [filter]. destruct (negb (isNullType b)) eqn:E; [|exact IH].
  cbn [filter]. now rewrite E, IH.
Qed.

Lemma nonNull_clean l : Forall (fun b => isNullType b = false) (nonNull l).
Proof.
  apply Forall_forall. intros b Hb. unfold nonNull in Hb.
  apply filter_In in Hb as [_ Hb]. now apply negb_true_iff in Hb.
Qed.

(** X22.  [splitNullableUnion] reports a nullable union exactly for an
    [anyOf] of two or more branches with a branch of type ["null"];
    otherwise the base is the schema itself.  For a nullable union, the
    base is the only branch that is not null, when there is exactly one;
    otherwise it is the schema with the null branches removed from its
    [anyOf] and nothing else changed, and splitting that base again
    reports it not nullable and leaves it as it is. *)
Theorem splitNullableUnion_spec (schema : Schema) :
  (nullable (splitNullableUnion schema) = true <->
   exists anyOf,
     s_anyOf schema = Some anyOf /\ 2 <= length anyOf
     /\ Exists (fun b => isNullType b = true) anyOf)
  /\ (nullable (splitNullableUnion schema) = false ->
      base (splitNullableUnion schema) = schema)
  /\ (forall anyOf,
        s_anyOf schema = Some anyOf ->
        nullable (splitNullableUnion schema) = true ->
        (exists only,
           nonNull anyOf = [only] /\ base (splitNullableUnion schema) = only)
        \/ (length (nonNull anyOf) <> 1
            /\ base (splitNullableUnion schema)
               = withAnyOf schema (nonNull anyOf)
            /\ splitNullableUnion (withAnyOf schema (nonNull anyOf))
               = {| base := withAnyOf schema (nonNull anyOf);
                    nullable := false |})).
Proof.
  unfold splitNullableUnion.
  destruct (s_anyOf schema) as [anyOf|] eqn:Ea.
  2:{ repeat split; try discriminate.
      intros [l [E _]]. discriminate. }
  destruct (Nat.ltb_spec (length anyOf) 2) as [Hlt|Hge].
  { repeat split; try discriminate.
    intros [l ([= <-] & Hl & _)]. lia. }
  destruct (Nat.eqb_spec (length (nonNull anyOf)) (length anyOf)) as [He|Hn];
    cbn [negb].
  { repeat split; try discriminate.
    intros [l ([= <-] & _ & Hex)]. apply nonNull_same in He.
    apply Exists_exists in Hex as [b [Hb Hnull]].
    rewrite Forall_forall in He. rewrite (He b Hb) in Hnull. discriminate. }
  assert (Hex : Exists (fun b => isNullType b = true) anyOf).
  { destruct (Exists_dec (fun b => isNullType b = true) anyOf) as [H|H];
      [intros b; destruct (isNullType b); [now left|now right]|exact H|].
    exfalso. apply Hn, nonNull_same. apply Forall_forall. intros b Hb.
    destruct (isNullType b) eqn:E; [|reflexivity].
    exfalso. apply H. apply Exists_exists. now exists b. }
  assert (Hnull : nullable
            match nonNull anyOf with
            | [only] => {| base := only; nullable := true |}
            | _ => {| base := withAnyOf schema (nonNull anyOf); nullable := true |}
            end = true)
    by (destruct (nonNull anyOf) as [|? [|? ?]]; reflexivity).
  split; [|split].
  - split; [intros _; now exists anyOf|intros _; exact Hnull].
  - rewrite Hnull. discriminate.
  - intros l [= <-] _. destruct (nonNull anyOf) as [|b1 [|b2 rest]] eqn:Ek.
    + right. split; [discriminate|]. split; [reflexivity|].
      reflexivity.
    + left. now exists b1.
    + right. split; [cbn; lia|]. split; [reflexivity|].
      cbn [withAnyOf s_anyOf]. cbn [length Nat.ltb Nat.leb].
      assert (Hid : nonNull (b1 :: b2 :: rest) = b1 :: b2 :: rest)
        by (rewrite <- Ek; apply nonNull_idem).
      rewrite Hid. cbn [length]. now rewrite Nat.eqb_refl.
Qed.

End SplitFacts.

(** * The further statements at sample documents *)

Section MoreSamples.
Import SchemaLib Reference Collector Index More Examples MoreExamples.

Example xyIndex_run :
  option_map
    (fun index =>
       (map (fun row => (pr_name row, pr_typeLabel row, pr_typeClass row,
                         pr_required row, pr_inlineable row, pr_typeLinkId row))
          (parameterRows index),
        map keyId (sectionKeys (sections index))))
    xyIndex
  = Some ([("either", "Either", "Either", false, false, Some "union-Either");
           ("color", "Color", "enum", true, false, Some "enum-Color");
           ("list", "X", "X", false, false, None);
           ("inline", "Inline", "Inline", false, true, None);
           ("name", "string", "string", true, false, None)],
          ["enum-Color"; "object-X"; "object-Y"; "union-Either"]).
Proof. vm_compute. reflexivity. Qed.

(** A pointer reads the length and the characters of a string. *)
Example string_properties_read :
  Resolve.getJson (Some titleDoc) "#/info/title/length" = Some (Resolve.JNum 5)
  /\ Resolve.getJson (Some titleDoc) "#/info/title/1" = Some (Resolve.JStr "e")
  /\ Resolve.getJson (Some titleDoc) "#/info/title/5" = None.
Proof. repeat split. Qed.

(** A reference to a name that [schemas] inherits resolves to the
    inherited member, on which every derivation ends at once; the
    collector stores it and no section is made of it. *)
Example inherited_name_resolves :
  resolveRef fooDoc (Some (refTo "#/components/schemas/constructor"))
  = Some inheritedMember
  /\ getEnumValues 2 fooDoc (Some (refTo "#/components/schemas/constructor"))
     = Some []
  /\ collectRefSchemas 2 fooDoc
       (Some (refTo "#/components/schemas/constructor")) []
     = Some [("constructor", inheritedMember)]
  /\ option_map (fun secs => map keyId (sectionKeys secs))
       (buildSectionsFromRefs byCode 3 fooDoc
          [("constructor", inheritedMember)])
     = Some [].
Proof. vm_compute. repeat split. Qed.

(** Where C4 stops short: [A] and [B] are named schemas, a property of
    [A] refers to [B] and a property of [B] refers back to [A], but the
    definition of [A] has a [$ref] of its own.  The collector follows
    that reference and never visits the properties of [A]: collecting
    from a reference to [A], or from the definition of [A], ends, and [B]
    is not a key of the result. *)
Lemma cycle_behind_reference_not_collected :
  namedSchema refCycleDoc "A" = Some refCycleA
  /\ namedSchema refCycleDoc "B" = Some cycleB
  /\ s_properties refCycleA = Some [("b", toB)] /\ refersTo toB "B"
  /\ s_properties cycleB = Some [("a", toA)] /\ refersTo toA "A"
  /\ (forall fuel, 3 <= fuel ->
        collectRefSchemas fuel refCycleDoc (Some toA) []
        = Some [("A", refCycleA); ("C", refCycleA)])
  /\ (forall fuel, 2 <= fuel ->
        collectRefSchemas fuel refCycleDoc (Some refCycleA) []
        = Some [("C", refCycleA)])
  /\ count_occ string_dec (keys [("A", refCycleA); ("C", refCycleA)]) "B" = 0
  /\ count_occ string_dec (keys [("C", refCycleA)]) "B" = 0.
Proof.
  split; [reflexivity|]. split; [reflexivity|].
  split; [reflexivity|]. split; [now repeat split|].
  split; [reflexivity|]. split; [now repeat split|].
  split; [|split; [|split; reflexivity]].
  - intros fuel H. do 3 (destruct fuel as [|fuel]; [lia|]). reflexivity.
  - intros fuel H. do 2 (destruct fuel as [|fuel]; [lia|]). reflexivity.
Qed.

End MoreSamples.

Section MoreWitnesses.
Import SchemaLib Reference Collector Index More Examples MoreExamples.
Import Resolve Deref SchemaFormat.

Lemma decodePointerSegment_round_trip_witness :
  decodePointerSegment (escapeKey "a/b~c") = "a/b~c"
  /\ decodePointerSegment "schemas" = "schemas".
Proof.
  destruct decodePointerSegment_round_trip as (Hkey & _ & Hplain).
  split; [apply Hkey|apply Hplain; reflexivity].
Defined.

Lemma getByJsonPointer_reads_a_property_witness :
  exists root keys key parent,
    Some jsonDoc = Some root /\ Resolve.isNull root = false
    /\ map decodePointerSegment
         (Js.split (Js.slice 2 "#/paths/~1responses/post"))
       = keys ++ [key]
    /\ lookupPath JSON Resolve.isNull Resolve.get (Some jsonDoc) keys
       = Some parent
    /\ Resolve.isNull parent = false
    /\ Resolve.get parent key = Some (JNum 1).
Proof.
  apply (getByJsonPointer_reads_a_property JSON Resolve.isNull Resolve.get
           (Some jsonDoc) "#/paths/~1responses/post" (JNum 1)).
  reflexivity.
Defined.

Lemma refName_characterized_witness :
  refName "#/components/schemas/a~1b" = Some "a/b"
  /\ refName "x.json#/components/schemas/Foo" = Some "Foo"
  /\ (exists before seg,
        "#/components/schemas/Foo" = (before ++ schemasPrefix ++ seg)%string
        /\ Js.nonEmpty seg = true /\ noSlash seg = true
        /\ "Foo" = decodePointerSegment seg).
Proof.
  destruct refName_characterized as (Hmatch & Hsome & Hname).
  split; [|split].
  - apply (Hname "a/b"). reflexivity.
  - apply (Hmatch "x.json" "Foo"); reflexivity.
  - apply (Hsome "#/components/schemas/Foo" "Foo"). reflexivity.
Defined.

Lemma schema_reference_names_witness :
  refName "#/components/schemas/a~1b" = Some "a/b"
  /\ Resolve.resolveRef JSON Resolve.isNull Resolve.get (Some slashDoc)
       "#/components/schemas/a~1b"
     = Some (JObj [("type", JStr "string")])
  /\ getRefName (Some (refTo "#/components/schemas/a~1b")) = Some "a~1b"
  /\ getSchemaFromRef (docOf [("a/b", ofType "string")])
       "#/components/schemas/a~1b"
     = None.
Proof.
  destruct (schema_reference_names JSON Resolve.isNull Resolve.get
              (Some slashDoc) (docOf [("a/b", ofType "string")]) "a~1b"
              eq_refl eq_refl) as (Hn & Hr & Hg & Hs).
  split; [|split; [|split]].
  - exact Hn.
  - change ("#/components/schemas/a~1b") with (schemasPrefix ++ "a~1b")%string.
    rewrite Hr. reflexivity.
  - exact Hg.
  - change ("#/components/schemas/a~1b") with (schemasPrefix ++ "a~1b")%string.
    rewrite Hs. reflexivity.
Defined.

Lemma derefSchema_falls_back_witness :
  derefSchema JSON Resolve.isNull Resolve.get Resolve.falsy Resolve.isObject
    Resolve.hasProperty Resolve.asString (Some slashDoc) (Some (JStr "x"))
  = Some (JStr "x")
  /\ derefSchema JSON Resolve.isNull Resolve.get Resolve.falsy
       Resolve.isObject Resolve.hasProperty Resolve.asString (Some slashDoc)
       (Some (refNode "other.json#/a"))
     = Some (refNode "other.json#/a")
  /\ derefSchema JSON Resolve.isNull Resolve.get Resolve.falsy
       Resolve.isObject Resolve.hasProperty Resolve.asString (Some slashDoc)
       (Some (refNode (pointerOf ["components"; "schemas"; "a/b"])))
     = Some (JObj [("type", JStr "string")])
  /\ derefSchema JSON Resolve.isNull Resolve.get Resolve.falsy
       Resolve.isObject Resolve.hasProperty Resolve.asString (Some slashDoc)
       (Some (refNode (pointerOf ["components"; "schemas"; "gone"])))
     = Some (refNode (pointerOf ["components"; "schemas"; "gone"])).
Proof.
  destruct (derefSchema_falls_back JSON Resolve.isNull Resolve.get
              Resolve.falsy Resolve.isObject Resolve.hasProperty
              Resolve.asString (Some slashDoc))
    as (Hplain & Hext & Hkeys & _).
  split; [|split; [|split]].
  - apply Hplain. reflexivity.
  - apply (Hext _ "other.json#/a"); reflexivity.
  - rewrite (Hkeys _ ["components"; "schemas"; "a/b"]);
      [reflexivity|reflexivity|reflexivity|reflexivity|discriminate].
  - rewrite (Hkeys _ ["components"; "schemas"; "gone"]);
      [reflexivity|reflexivity|reflexivity|reflexivity|discriminate].
Defined.

Lemma collectRefSchemas_terminates_witness :
  exists result,
    Converges cycleDoc (Some cycleA) [("Seen", cycleB)] result
    /\ Grows [("Seen", cycleB)] result
    /\ NoDup (keys result).
Proof.
  destruct (collectRefSchemas_terminates cycleDoc (Some cycleA)
              [("Seen", cycleB)]) as [result (Hc & Hg & Hn)].
  exists result. split; [exact Hc|split; [exact Hg|]].
  apply Hn. repeat constructor. intros [].
Defined.

Lemma collectRefSchemas_closed_witness :
  exists result,
    collectRefSchemas 8 xyDoc (Some (refTo "#/components/schemas/Either")) []
    = Some result
    /\ Js.has result "Either" = true
    /\ Js.has result "X" = true
    /\ Js.has result "Y" = true.
Proof.
  destruct (collectRefSchemas 8 xyDoc
              (Some (refTo "#/components/schemas/Either")) [])
    as [result|] eqn:E; [|vm_compute in E; discriminate].
  exists result. split; [reflexivity|].
  destruct (collectRefSchemas_closed xyDoc 8
              (refTo "#/components/schemas/Either") result E)
    as (Hroot & _ & Hdefs).
  assert (He : Js.has result "Either" = true)
    by (apply Hroot; vm_compute; auto).
  split; [exact He|split].
  - apply (Hdefs "Either" defEither toX "X" He); try reflexivity.
    + cbn. auto.
    + vm_compute; auto.
  - apply (Hdefs "Either" defEither toY "Y" He); try reflexivity.
    + cbn. auto.
    + vm_compute; auto.
Defined.

Lemma collectRefSchemas_stores_definitions_witness :
  exists result,
    collectRefSchemas 8 xyDoc
      (Some (objectOf [("e", refTo "#/components/schemas/Either");
                       ("m", toMissing)] [])) []
    = Some result
    /\ (forall v, In ("Either", v) result -> v = defEither)
    /\ (forall v, In ("Missing", v) result -> refersTo v "Missing").
Proof.
  destruct (collectRefSchemas 8 xyDoc
              (Some (objectOf [("e", refTo "#/components/schemas/Either");
                               ("m", toMissing)] [])) [])
    as [result|] eqn:E; [|vm_compute in E; discriminate].
  exists result. split; [reflexivity|]. split.
  - intros v Hin.
    destruct (collectRefSchemas_stores_definitions xyDoc 8 _ result E
                "Either" v Hin) as (_ & Hdef & _).
    now apply Hdef.
  - intros v Hin.
    destruct (collectRefSchemas_stores_definitions xyDoc 8 _ result E
                "Missing" v Hin) as (_ & _ & Hmiss).
    now apply Hmiss.
Defined.

Lemma mergeRefs_first_wins_witness :
  Js.assoc "X" (mergeRefs [("X", defX)] [("X", defY); ("Y", defY)]) = Some defX
  /\ Js.assoc "Y" (mergeRefs [("X", defX)] [("X", defY); ("Y", defY)])
     = Some defY
  /\ NoDup (keys (mergeRefs [("X", defX)] [("X", defY); ("Y", defY)])).
Proof.
  destruct (mergeRefs_first_wins [("X", defX)] [("X", defY); ("Y", defY)])
    as (Hlook & Hnd).
  split; [|split].
  - rewrite Hlook. reflexivity.
  - rewrite Hlook. reflexivity.
  - apply Hnd. repeat constructor. intros [].
Defined.

Lemma collectRefsFromSchemas_single_witness :
  collectRefsFromSchemas 8 cycleDoc [Some cycleA]
  = collectRefSchemas 8 cycleDoc (Some cycleA) []
  /\ exists enough result,
       forall fuel, enough <= fuel ->
         collectRefsFromSchemas fuel cycleDoc [Some cycleA] = Some result.
Proof.
  destruct (collectRefsFromSchemas_single cycleDoc cycleA) as (Hone & _ & Hend).
  split; [apply Hone|exact Hend].
Defined.

Lemma getUnionVariants_flat_witness :
  exists variants,
    getUnionVariants 8 xyDoc
      (Some (anyOfSchema [refTo "#/components/schemas/Either"; nullSchema;
                          ofType "string"]))
    = Some variants
    /\ Forall (fun v => isNullType v = false
                        /\ getUnionVariants 8 xyDoc (Some v) = Some [])
         variants.
Proof.
  destruct (getUnionVariants 8 xyDoc
              (Some (anyOfSchema [refTo "#/components/schemas/Either";
                                  nullSchema; ofType "string"])))
    as [variants|] eqn:E; [|vm_compute in E; discriminate].
  exists variants. split; [reflexivity|].
  exact (getUnionVariants_flat xyDoc 8 _ variants E).
Defined.

Lemma toMissing_selfResolving : selfResolving xyDoc toMissing.
Proof. split; reflexivity. Defined.


Lemma dangling_reference_stops_the_builders_witness :
  (forall fuel,
     buildParameterRows fuel xyDoc
       (Some (objectOf [("name", ofType "string"); ("m", toMissing)] []))
       noSections = None)
  /\ (forall fuel,
        buildSectionsFromRefs byCode fuel xyDoc
          [("X", defX); ("Missing", toMissing)] = None).
Proof.
  destruct (dangling_reference_stops_the_builders xyDoc byCode toMissing
              toMissing_selfResolving) as (Hrows & Hsecs).
  split.
  - intros fuel.
    apply (Hrows fuel _ [("name", ofType "string"); ("m", toMissing)] "m");
      [reflexivity|cbn; auto].
  - intros fuel. apply (Hsecs fuel _ "Missing"); [cbn; auto|discriminate].
Defined.

Lemma getEnumValues_of_branches_witness :
  NoDup [EStr "a"; EStr "b"; EStr "c"]
  /\ (In (EStr "c") [EStr "a"; EStr "b"; EStr "c"] <->
      exists item itemValues,
        In item [enumOf [EStr "a"; EStr "b"]; enumOf [EStr "b"; EStr "c"]]
        /\ getEnumValues 3 emptyDoc (Some item) = Some itemValues
        /\ In (EStr "c") itemValues).
Proof.
  destruct (getEnumValues_of_branches emptyDoc 3
              (anyOfSchema [enumOf [EStr "a"; EStr "b"];
                            enumOf [EStr "b"; EStr "c"]])
              [enumOf [EStr "a"; EStr "b"]; enumOf [EStr "b"; EStr "c"]]
              [EStr "a"; EStr "b"; EStr "c"]
              eq_refl eq_refl eq_refl eq_refl eq_refl) as (Hnd & Hin).
  split; [exact Hnd|apply Hin].
Defined.

Lemma byName_indexes_sections_witness :
  exists secs,
    xySections = Some secs
    /\ Permutation (map refKey (byName secs)) (sectionKeys secs)
    /\ forall name entry,
         Js.assoc name (byName secs) = Some entry
         <-> In (sr_kind entry, name, sr_id entry) (sectionKeys secs).
Proof.
  destruct xySections as [secs|] eqn:E; [|vm_compute in E; discriminate].
  exists secs. split; [reflexivity|].
  exact (byName_indexes_sections byCode 8 xyDoc xyRefs secs E).
Defined.

Lemma byCode_one_way (a b : string) : byCode a b = Gt -> byCode b a <> Gt.
Proof.
  unfold byCode. intros H H'.
  rewrite String.compare_antisym, H' in H. discriminate.
Defined.

Lemma sections_sorted_witness :
  exists secs,
    xySections = Some secs
    /\ Sorted (fun a b => notAfter byCode (os_name a) (os_name b))
         (objects secs)
    /\ Forall (fun u =>
                 Sorted (fun a b => notAfter byCode (v_label a) (v_label b))
                   (us_variants u))
         (unions secs).
Proof.
  destruct xySections as [secs|] eqn:E; [|vm_compute in E; discriminate].
  exists secs. split; [reflexivity|].
  destruct (sections_sorted byCode 8 xyDoc xyRefs secs byCode_one_way E)
    as (_ & Hobjects & _ & Hvariants).
  split; [exact Hobjects|exact Hvariants].
Defined.

Lemma section_links_resolve_witness :
  exists secs,
    xySections = Some secs
    /\ incl (sectionLinks secs) (map keyId (sectionKeys secs)).
Proof.
  destruct xySections as [secs|] eqn:E; [|vm_compute in E; discriminate].
  exists secs. split; [reflexivity|].
  exact (section_links_resolve byCode 8 xyDoc xyRefs secs E).
Defined.

Lemma parameter_links_resolve_witness :
  exists index,
    xyIndex = Some index
    /\ incl (flat_map parameterIds (parameterRows index))
         (map keyId (sectionKeys (sections index))).
Proof.
  destruct xyIndex as [index|] eqn:E; [|vm_compute in E; discriminate].
  exists index. split; [reflexivity|].
  exact (parameter_links_resolve byCode 8 xyDoc (Some xyRoot) index E).
Defined.

Lemma splitNullableUnion_spec_witness :
  nullable (splitNullableUnion nullableTwo) = true
  /\ base (splitNullableUnion (ofType "string")) = ofType "string".
Proof.
  destruct (splitNullableUnion_spec nullableTwo) as (Hnullable & _ & _).
  destruct (splitNullableUnion_spec (ofType "string")) as (_ & Hbase & _).
  split.
  - apply Hnullable. exists [toX; nullSchema; toY].
    split; [reflexivity|]. split; [cbn; lia|].
    apply Exists_cons_tl, Exists_cons_hd. reflexivity.
  - apply Hbase. reflexivity.
Defined.

End MoreWitnesses.
